(** * Results aggregation engine of [mf_prior_experiments]

    A shallow embedding of [src/mf_prior_experiments/configs/plotting/types.py]:
    the evaluation record [Result], the per-seed [Trace] with its
    transformations (continuation stitching, cumulative fidelity, incumbent
    extraction, range filter, axis rescaling), the two raw-format loaders and
    the per-seed rank table.

    Conventions of the embedding.
    - Python [int] is [Z].
    - Python [float] is an abstract carrier [F] with the operations the code
      applies to it ([PyFloat]).  Two carriers are used: IEEE binary64
      ([PrimFloat.float], what CPython computes with) and exact rationals
      ([Q], the idealisation in which order-theoretic facts are stated).
    - An attribute typed [float | None] is an [option F]; using [None] in a
      comparison or a product raises [TypeError].
    - A raising computation is a value of [res]: [Ok a] or [Raise e]. *)

From Stdlib Require Import ZArith QArith List Sorted Permutation Lia Bool String Uint63 Floats.
Import ListNotations.

Set Implicit Arguments.
Set Warnings "-register-all".

(** ** Exceptions and the error monad *)

(** The [assert] statements of the module, by site. *)
Inductive assertion : Type :=
| AlreadyContinued                (* Result.continue_from: continued_from is None *)
| CountMismatch                   (* with_continuations: len(trace_results) == len(continuations) *)
| WorkersNotEqual                 (* with_cumulative_fidelity: all_equal(process_id) *)
| WorkerMissing                   (* with_cumulative_fidelity: all(process_id is not None) *)
| MetricNotSupported (yaxis : string) (* with_cumulative_fidelity: yaxis == "loss" *)
| PathDoesNotExist.               (* load_neps: trace_results_dir.exists() *)

Inductive exn : Type :=
| AssertionError (a : assertion)
| ValueError
| NotImplementedError
| IndexError
| TypeError
| KeyError
| OverflowError.

Inductive res (A : Type) : Type :=
| Ok (a : A)
| Raise (e : exn).

Arguments Ok {A} a.
Arguments Raise {A} e.

Definition bind {A B : Type} (m : res A) (k : A -> res B) : res B :=
  match m with
  | Ok a => k a
  | Raise e => Raise e
  end.

Notation "x <- m ;; k" := (bind m (fun x => k))
  (at level 61, m at next level, right associativity).

Notation "'assert!' b 'else' a ;; k" :=
  (if b then k else Raise (AssertionError a))
  (at level 61, b at next level, a at next level, right associativity).

(** A comprehension or loop whose body may raise: left to right, the first
    exception aborts. *)
Fixpoint mapM {A B : Type} (f : A -> res B) (l : list A) : res (list B) :=
  match l with
  | [] => Ok []
  | a :: l' => b <- f a ;; bs <- mapM f l' ;; Ok (b :: bs)
  end.

(** ** Builtins and itertools *)

Section Builtins.
Context {A K : Type}.
Variable ltb : K -> K -> bool.
Variable eqb : K -> K -> bool.
Variable key : A -> K.

(** [sorted(l, key=key)]: the stable sort, which only ever asks [<] of two
    keys.  [x] is placed in front of the first element whose key is not
    smaller than [x]'s, so that, folding from the right, equal keys keep
    the order they had in [l]. *)
Fixpoint insert_sorted (x : A) (l : list A) : list A :=
  match l with
  | [] => [x]
  | y :: l' => if ltb (key y) (key x) then y :: insert_sorted x l' else x :: l
  end.

Definition sorted (l : list A) : list A := fold_right insert_sorted [] l.

(** [itertools.groupby(l, key=key)]: maximal runs of consecutive elements
    with equal keys, each with the key of its first element. *)
Fixpoint groupby (l : list A) : list (K * list A) :=
  match l with
  | [] => []
  | x :: l' =>
      match groupby l' with
      | (k, g) :: gs =>
          if eqb (key x) k then (key x, x :: g) :: gs
          else (key x, [x]) :: (k, g) :: gs
      | [] => [(key x, [x])]
      end
  end.

(** [min(l, key=key)]: the first element with the least key. *)
Fixpoint min_from (best : A) (l : list A) : A :=
  match l with
  | [] => best
  | x :: l' => min_from (if ltb (key x) (key best) then x else best) l'
  end.

Definition py_min (l : list A) : res A :=
  match l with
  | [] => Raise ValueError
  | x :: l' => Ok (min_from x l')
  end.
End Builtins.

(** [more_itertools.pairwise]. *)
Fixpoint pairwise {A : Type} (l : list A) : list (A * A) :=
  match l with
  | a :: (b :: _) as l' => (a, b) :: pairwise l'
  | _ => []
  end.

(** [more_itertools.all_equal]. *)
Definition all_equal {A : Type} (eqb : A -> A -> bool) (l : list A) : bool :=
  match l with
  | [] => true
  | x :: l' => forallb (eqb x) l'
  end.

(** [itertools.accumulate] on integers: the first item, then the running
    total. *)
Fixpoint accumulate_from (total : Z) (l : list Z) : list Z :=
  match l with
  | [] => []
  | x :: l' => (total + x)%Z :: accumulate_from (total + x)%Z l'
  end.

Definition accumulate (l : list Z) : list Z :=
  match l with
  | [] => []
  | x :: l' => x :: accumulate_from x l'
  end.

(** [zip]. *)
Definition zip {A B : Type} (l : list A) (l' : list B) : list (A * B) := combine l l'.

(** A [dict] as the list of its items in insertion order; assigning to a key
    that is present replaces the value in place. *)
Section Dict.
Context {K V : Type}.
Variable eqb : K -> K -> bool.

Fixpoint dict_set (k : K) (v : V) (d : list (K * V)) : list (K * V) :=
  match d with
  | [] => [(k, v)]
  | (k', v') :: d' =>
      if eqb k' k then (k', v) :: d' else (k', v') :: dict_set k v d'
  end.

Definition dict_of (items : list (K * V)) : list (K * V) :=
  fold_left (fun d kv => dict_set (fst kv) (snd kv) d) items [].

Definition dict_values (d : list (K * V)) : list V := map snd d.

Definition dict_keys (d : list (K * V)) : list K := map fst d.

Fixpoint dict_get (k : K) (d : list (K * V)) : res V :=
  match d with
  | [] => Raise KeyError
  | (k', v) :: d' => if eqb k' k then Ok v else dict_get k d'
  end.
End Dict.

Definition option_eqb {A : Type} (eqb : A -> A -> bool) (a b : option A) : bool :=
  match a, b with
  | Some x, Some y => eqb x y
  | None, None => true
  | _, _ => false
  end.

Definition is_some {A : Type} (a : option A) : bool :=
  match a with Some _ => true | None => false end.

(** ** Floats *)

(** What the module does with a [float]. [of_int] is the conversion Python
    applies to an [int] operand of a mixed operation, [to_int] is [int(x)]
    (truncation; it raises on NaN and on infinities). *)
Class PyFloat (F : Type) : Type := {
  fsub : F -> F -> F;
  fmul : F -> F -> F;
  fdiv : F -> F -> F;
  fltb : F -> F -> bool;
  fleb : F -> F -> bool;
  feqb : F -> F -> bool;
  of_int : Z -> F;
  to_int : F -> res Z
}.

(** Exact rationals. *)
#[export] Instance Q_float : PyFloat Q := {
  fsub := Qminus;
  fmul := Qmult;
  fdiv := Qdiv;
  fltb := fun x y => negb (Qle_bool y x);
  fleb := Qle_bool;
  feqb := Qeq_bool;
  of_int := inject_Z;
  to_int := fun x => Ok (Z.quot (Qnum x) (Zpos (Qden x)))
}.

(** IEEE binary64.  [float_of_Z] is [float(z)] for [|z| < 2^63] (round to
    nearest even), which covers every count of fidelity units. *)
Definition float_of_Z (z : Z) : float :=
  match z with
  | Z0 => PrimFloat.of_uint63 0%uint63
  | Zpos _ => PrimFloat.of_uint63 (Uint63.of_Z z)
  | Zneg p => PrimFloat.opp (PrimFloat.of_uint63 (Uint63.of_Z (Zpos p)))
  end.

Definition Z_of_float (x : float) : res Z :=
  match Prim2SF x with
  | S754_zero _ => Ok 0%Z
  | S754_finite s m e =>
      let mag := match e with
                 | Zneg p => Z.shiftr (Zpos m) (Zpos p)
                 | _ => Z.shiftl (Zpos m) e
                 end in
      Ok (if s then Z.opp mag else mag)
  | S754_infinity _ => Raise OverflowError
  | S754_nan => Raise ValueError
  end.

#[export] Instance binary64 : PyFloat float := {
  fsub := PrimFloat.sub;
  fmul := PrimFloat.mul;
  fdiv := PrimFloat.div;
  fltb := PrimFloat.ltb;
  fleb := PrimFloat.leb;
  feqb := PrimFloat.eqb;
  of_int := float_of_Z;
  to_int := Z_of_float
}.

(** ** The evaluation record *)

Section Model.
Context {F : Type} {PF : PyFloat F}.

(** [@dataclass class Result]. *)
Inductive Result : Type := mkResult {
  id : Z;
  bracket : option Z;
  loss : F;
  cost : F;
  val_score : F;
  test_score : F;
  fidelity : Z;
  start_time : F;
  end_time : F;
  max_fidelity_loss : F;
  max_fidelity_cost : F;
  cumulated_fidelity : option F;
  start_time_since_global_start : option F;
  end_time_since_global_start : option F;
  continued_from : option Result;
  process_id : option Z
}.

(** The keyword arguments the module passes to [Result.mutate], which is
    [dataclasses.replace]. *)
Inductive change : Type :=
| Fidelity (v : Z)
| Cost (v : F)
| ContinuedFrom (v : option Result)
| CumulatedFidelity (v : option F)
| StartTimeSinceGlobalStart (v : option F)
| EndTimeSinceGlobalStart (v : option F).

Definition replace1 (r : Result) (c : change) : Result :=
  let (i, b, l, co, vs, ts, f, st, et, mfl, mfc, cf, stg, etg, cfrom, pid) := r in
  match c with
  | Fidelity v => mkResult i b l co vs ts v st et mfl mfc cf stg etg cfrom pid
  | Cost v => mkResult i b l v vs ts f st et mfl mfc cf stg etg cfrom pid
  | ContinuedFrom v => mkResult i b l co vs ts f st et mfl mfc cf stg etg v pid
  | CumulatedFidelity v => mkResult i b l co vs ts f st et mfl mfc v stg etg cfrom pid
  | StartTimeSinceGlobalStart v => mkResult i b l co vs ts f st et mfl mfc cf v etg cfrom pid
  | EndTimeSinceGlobalStart v => mkResult i b l co vs ts f st et mfl mfc cf stg v cfrom pid
  end.

Definition mutate (self : Result) (kwargs : list change) : Result :=
  fold_left replace1 kwargs self.

(** [Result.continue_from]. *)
Definition continue_from (self other : Result) : res Result :=
  assert! negb (is_some (continued_from self)) else AlreadyContinued ;;
  let changes := [ Fidelity (fidelity self - fidelity other)%Z;
                   Cost (fsub (cost self) (cost other));
                   ContinuedFrom (Some other) ] in
  Ok (mutate self changes).

(** The float-valued attributes, the ones an axis name may designate. *)
Inductive attr : Type :=
| ax_loss | ax_cost | ax_val_score | ax_test_score
| ax_start_time | ax_end_time
| ax_max_fidelity_loss | ax_max_fidelity_cost
| ax_cumulated_fidelity
| ax_start_time_since_global_start | ax_end_time_since_global_start.

(** [getattr(r, xaxis)]; [None] is Python's [None]. *)
Definition getattr (a : attr) (r : Result) : option F :=
  match a with
  | ax_loss => Some (loss r)
  | ax_cost => Some (cost r)
  | ax_val_score => Some (val_score r)
  | ax_test_score => Some (test_score r)
  | ax_start_time => Some (start_time r)
  | ax_end_time => Some (end_time r)
  | ax_max_fidelity_loss => Some (max_fidelity_loss r)
  | ax_max_fidelity_cost => Some (max_fidelity_cost r)
  | ax_cumulated_fidelity => cumulated_fidelity r
  | ax_start_time_since_global_start => start_time_since_global_start r
  | ax_end_time_since_global_start => end_time_since_global_start r
  end.

(** [setattr(r, xaxis, v)] on a fresh copy. *)
Definition setattr (a : attr) (v : F) (r : Result) : Result :=
  let (i, b, l, co, vs, ts, f, st, et, mfl, mfc, cf, stg, etg, cfrom, pid) := r in
  match a with
  | ax_loss => mkResult i b v co vs ts f st et mfl mfc cf stg etg cfrom pid
  | ax_cost => mkResult i b l v vs ts f st et mfl mfc cf stg etg cfrom pid
  | ax_val_score => mkResult i b l co v ts f st et mfl mfc cf stg etg cfrom pid
  | ax_test_score => mkResult i b l co vs v f st et mfl mfc cf stg etg cfrom pid
  | ax_start_time => mkResult i b l co vs ts f v et mfl mfc cf stg etg cfrom pid
  | ax_end_time => mkResult i b l co vs ts f st v mfl mfc cf stg etg cfrom pid
  | ax_max_fidelity_loss => mkResult i b l co vs ts f st et v mfc cf stg etg cfrom pid
  | ax_max_fidelity_cost => mkResult i b l co vs ts f st et mfl v cf stg etg cfrom pid
  | ax_cumulated_fidelity => mkResult i b l co vs ts f st et mfl mfc (Some v) stg etg cfrom pid
  | ax_start_time_since_global_start =>
      mkResult i b l co vs ts f st et mfl mfc cf (Some v) etg cfrom pid
  | ax_end_time_since_global_start =>
      mkResult i b l co vs ts f st et mfl mfc cf stg (Some v) cfrom pid
  end.

(** [<] on two attribute values that are known to be numbers. *)
Definition olt (a b : option F) : bool :=
  match a, b with
  | Some x, Some y => fltb x y
  | _, _ => false
  end.

(** [sorted(l, key=key)] with keys that may be [None].  Sorting two or more
    items compares every key with some other key, and a comparison with
    [None] raises [TypeError]; zero or one item are returned without any
    comparison. *)
Definition sorted_opt {A : Type} (key : A -> option F) (l : list A) : res (list A) :=
  match l with
  | [] | [_] => Ok l
  | _ =>
      if forallb (fun a => is_some (key a)) l then Ok (sorted olt key l)
      else Raise TypeError
  end.

(** ** Trace *)

(** [@dataclass class Trace]. *)
Record Trace : Type := mkTrace { results : list Result }.

(** The nested [bracket] function of [with_continuations]. *)
Definition bracket_key (r : Result) : Z :=
  match bracket r with
  | None => 0%Z
  | Some b => b
  end.

(** The body of the loop over [results.values()] in [with_continuations]:
    the entries one group contributes to [continuations]. *)
Definition continue_group (config_results : list Result) : res (list Result) :=
  match config_results with
  | [] => Raise IndexError
  | first :: _ =>
      if (List.length config_results =? 1)%nat then Ok [first]
      else
        continued <- mapM (fun p => continue_from (snd p) (fst p))
                          (pairwise config_results) ;;
        Ok (first :: continued)
  end.

(** [Trace.with_continuations]. *)
Definition with_continuations (self : Trace) : res Trace :=
  let trace_results := sorted Z.ltb id (results self) in
  let results_ :=
    dict_of Z.eqb
      (map (fun kg => (fst kg, sorted Z.ltb bracket_key (snd kg)))
           (groupby Z.eqb id trace_results)) in
  per_config <- mapM continue_group (dict_values results_) ;;
  let continuations := List.concat per_config in
  assert! (List.length trace_results =? List.length continuations)%nat else CountMismatch ;;
  let sorted_continuations := sorted fltb end_time continuations in
  Ok (mkTrace sorted_continuations).

(** The single-worker branch of [with_cumulative_fidelity], after its
    [assert]. *)
Definition cumulate (rs : list Result) : list Result :=
  let results := sorted fltb end_time rs in
  let cumulated_fidelities := accumulate (map fidelity results) in
  map (fun rf => mutate (fst rf) [CumulatedFidelity (Some (of_int (snd rf)))])
      (zip results cumulated_fidelities).

(** [trace.with_cumulative_fidelity()], the call with both defaults
    ([n_workers=None], [yaxis="loss"]) that the multi-worker branch makes
    on each process's trace. *)
Definition with_cumulative_fidelity_default (self : Trace) : res Trace :=
  assert! all_equal (option_eqb Z.eqb) (map process_id (results self))
    else WorkersNotEqual ;;
  Ok (mkTrace (cumulate (results self))).

Definition process_key (r : Result) : Z :=
  match process_id r with
  | Some p => p
  | None => 0%Z
  end.

(** The multi-worker branch up to the [assert] on [yaxis]: every process's
    records with their own running totals, process after process. *)
Definition merge_processes (rs : list Result) : res (list Result) :=
  let by_process := sorted Z.ltb process_key rs in
  let results_per_process :=
    dict_of (option_eqb Z.eqb)
      (map (fun pg => (fst pg, mkTrace (snd pg)))
           (groupby (option_eqb Z.eqb) process_id by_process)) in
  cumulated_results_per_process <-
    mapM (fun pt => t <- with_cumulative_fidelity_default (snd pt) ;; Ok (fst pt, t))
         results_per_process ;;
  Ok (List.concat (map results (dict_values cumulated_results_per_process))).

(** The multi-worker branch from the first [sorted] on: one record per
    cumulated fidelity, the one with the least loss. *)
Definition deduplicate (cumulated_results : list Result) : res (list Result) :=
  cumulated_results <- sorted_opt cumulated_fidelity cumulated_results ;;
  cumulated_results <-
    mapM (fun kg => py_min fltb loss (snd kg))
         (groupby (option_eqb feqb) cumulated_fidelity cumulated_results) ;;
  sorted_opt cumulated_fidelity cumulated_results.

(** [Trace.with_cumulative_fidelity]. *)
Definition with_cumulative_fidelity
    (n_workers : option Z) (yaxis : string) (self : Trace) : res Trace :=
  let single :=
    match n_workers with
    | None => true
    | Some n => (n =? 1)%Z
    end in
  if single then
    assert! all_equal (option_eqb Z.eqb) (map process_id (results self))
      else WorkersNotEqual ;;
    Ok (mkTrace (cumulate (results self)))
  else
    assert! forallb (fun r => is_some (process_id r)) (results self)
      else WorkerMissing ;;
    cumulated_results <- merge_processes (results self) ;;
    assert! (yaxis =? "loss")%string else MetricNotSupported yaxis ;;
    cumulated_results <- deduplicate cumulated_results ;;
    Ok (mkTrace cumulated_results).

(** The loop of [incumbent_trace] over [results[1:]]. *)
Fixpoint incumbents_after (incumbent : Result) (rs : list Result) : list Result :=
  match rs with
  | [] => []
  | result :: rs' =>
      if fltb (loss result) (loss incumbent)
      then result :: incumbents_after result rs'
      else incumbents_after incumbent rs'
  end.

(** [Trace.incumbent_trace]. *)
Definition incumbent_trace (xaxis : attr) (yaxis : string) (self : Trace) : res Trace :=
  if negb (yaxis =? "loss")%string then Raise NotImplementedError
  else
    results <- sorted_opt (getattr xaxis) (results self) ;;
    match results with
    | [] => Raise IndexError
    | incumbent :: rest => Ok (mkTrace (incumbent :: incumbents_after incumbent rest))
    end.

(** A comprehension with a condition that may raise. *)
Fixpoint filterM {A : Type} (p : A -> res bool) (l : list A) : res (list A) :=
  match l with
  | [] => Ok []
  | a :: l' =>
      b <- p a ;;
      rest <- filterM p l' ;;
      Ok (if b then a :: rest else rest)
  end.

(** [low <= getattr(result, xaxis) <= high]. *)
Definition between (low high : F) (v : option F) : res bool :=
  match v with
  | None => Raise TypeError
  | Some x => Ok (fleb low x && fleb x high)
  end.

(** [Trace.in_range]. *)
Definition in_range (bounds : F * F) (xaxis : attr) (self : Trace) : res Trace :=
  let (low, high) := bounds in
  results <- filterM (fun result => between low high (getattr xaxis result))
                     (results self) ;;
  results <- sorted_opt (getattr xaxis) results ;;
  Ok (mkTrace results).

(** The body of the loop of [rescale_xaxis]. *)
Definition rescale_result (c : F) (xaxis : attr) (result : Result) : res Result :=
  match getattr xaxis result with
  | None => Raise TypeError
  | Some value => Ok (setattr xaxis (fmul value c) result)
  end.

(** [Trace.rescale_xaxis]. *)
Definition rescale_xaxis (c : F) (xaxis : attr) (self : Trace) : res Trace :=
  results <- mapM (rescale_result c xaxis) (results self) ;;
  results <- sorted_opt (getattr xaxis) results ;;
  Ok (mkTrace results).

End Model.

Arguments Result F : clear implicits.
Arguments Trace F : clear implicits.

(** ** Loading *)

Section Loading.
Context {F : Type} {PF : PyFloat F}.

(** One [config_*] directory of the neps layout: the integers of its name
    (what follows [config_], split at [_]) and the fields of its
    [result.yaml]. *)
Record config_dir : Type := mkConfigDir {
  name_parts : list Z;
  yaml_loss : F;
  yaml_cost : F;
  info_val_score : F;
  info_test_score : F;
  info_fidelity : Z;
  info_start_time : F;
  info_end_time : F;
  info_max_fidelity_loss : F;
  info_max_fidelity_cost : F;
  info_process_id : option Z
}.

(** [Result.from_dir]. *)
Definition from_dir (d : config_dir) : res (Result F) :=
  name <- match name_parts d with
          | [id_] => Ok (id_, None)
          | [id_; bracket_] => Ok (id_, Some bracket_)
          | _ => Raise ValueError
          end ;;
  Ok (mkResult (fst name) (snd name) (yaml_loss d) (yaml_cost d)
        (info_val_score d) (info_test_score d) (info_fidelity d)
        (info_start_time d) (info_end_time d)
        (info_max_fidelity_loss d) (info_max_fidelity_cost d)
        None None None None (info_process_id d)).

(** [Trace.load_neps]; the argument is [None] when
    [neps_root_directory/results] does not exist, and otherwise the
    [config] directories in it. *)
Definition load_neps (trace_results_dir : option (list config_dir)) : res (Trace F) :=
  match trace_results_dir with
  | None => Raise (AssertionError PathDoesNotExist)
  | Some config_dirs =>
      results <- mapM from_dir config_dirs ;;
      if (List.length results =? 0)%nat then Raise ValueError
      else
        global_start <- py_min fltb (fun x => x) (map (@start_time F) results) ;;
        let results :=
          map (fun result =>
                 mutate result
                   [ StartTimeSinceGlobalStart
                       (Some (fsub (start_time result) global_start));
                     EndTimeSinceGlobalStart
                       (Some (fsub (end_time result) global_start)) ])
              results in
        Ok (mkTrace (sorted fltb (@end_time F) results))
  end.

(** One line of [results.json] of the hpbandster layout. *)
Record hpbandster_line : Type := mkHpbandsterLine {
  line_id : list Z;
  line_budget : F;
  line_started : F;
  line_finished : F;
  line_loss : F;
  line_cost : F;
  line_val_score : F;
  line_test_score : F;
  line_max_fidelity_loss : F;
  line_max_fidelity_cost : F
}.

Definition tuple_eqb (a b : list Z) : bool :=
  if list_eq_dec Z.eq_dec a b then true else false.

(** [{k: i for i, k in enumerate(keys)}]. *)
Definition enumerate_dict {K : Type} (eqb : K -> K -> bool) (keys : list K)
  : list (K * Z) :=
  dict_of eqb (combine keys (map Z.of_nat (seq 0 (List.length keys)))).

(** [Trace.load_hpbandster]; the arguments are the identifiers on the
    lines of [configs.json] and the lines of [results.json]. *)
Definition load_hpbandster (configs : list (list Z)) (lines : list hpbandster_line)
  : res (Trace F) :=
  let loaded_configs := dict_of tuple_eqb (map (fun i => (i, tt)) configs) in
  let new_id_mappings := enumerate_dict tuple_eqb (dict_keys loaded_configs) in
  hpbandster_results <-
    mapM (fun line =>
            _ <- dict_get tuple_eqb (line_id line) loaded_configs ;;
            new_id <- dict_get tuple_eqb (line_id line) new_id_mappings ;;
            fidelity_ <- to_int (line_budget line) ;;
            Ok (new_id, fidelity_, line))
         lines ;;
  let unique_fidelities := nodup Z.eq_dec (map (fun r => snd (fst r)) hpbandster_results) in
  let _fid_to_bracket :=
    enumerate_dict Z.eqb (sorted Z.ltb (fun f => f) unique_fidelities) in
  parsed_results <-
    mapM (fun r =>
            let '(new_id, fidelity_, line) := r in
            bracket_ <- dict_get Z.eqb fidelity_ _fid_to_bracket ;;
            Ok (mkResult new_id (Some bracket_) (line_loss line) (line_cost line)
                  (line_val_score line) (line_test_score line) fidelity_
                  (line_started line) (line_finished line)
                  (line_max_fidelity_loss line) (line_max_fidelity_cost line)
                  None None None None None))
         hpbandster_results ;;
  Ok (mkTrace (sorted fltb (@end_time F) parsed_results)).

(** What [Trace.load] finds under the path of one (benchmark, algorithm,
    seed): each of the two sentinel directories, when present, with its
    content. *)
Record seed_dir : Type := mkSeedDir {
  neps_root_directory : option (option (list config_dir));
  hpbandster_root_directory : option (list (list Z) * list hpbandster_line)
}.

(** [Trace.load]. *)
Definition load (path : seed_dir) : res (Trace F) :=
  match neps_root_directory path with
  | Some trace_results_dir => load_neps trace_results_dir
  | None =>
      match hpbandster_root_directory path with
      | Some (configs, lines) => load_hpbandster configs lines
      | None => Raise ValueError
      end
  end.

End Loading.

(** ** Per-seed rank tables *)

Module Ranking.

(** [AlgorithmResults.traces] and [BenchmarkResults.results], as dicts. *)
Definition AlgorithmResults : Type := list (Z * Trace Q).
Definition BenchmarkResults : Type := list (string * AlgorithmResults).

(** [AlgorithmResults.select(seeds=[seed])]. *)
Definition select (seed : Z) (self : AlgorithmResults) : res AlgorithmResults :=
  trace <- dict_get Z.eqb seed self ;;
  Ok [(seed, trace)].

(** [AlgorithmResults.incumbent_traces]. *)
Definition incumbent_traces (xaxis : attr) (yaxis : string) (self : AlgorithmResults)
  : res AlgorithmResults :=
  mapM (fun st => trace <- incumbent_trace xaxis yaxis (snd st) ;; Ok (fst st, trace))
       self.

(** A [pd.Series] with numeric labels: (label, value) in label order; a
    missing value is [None]. *)
Definition Series : Type := list (Q * option Q).

(** [Trace.series].  A record without a value for the index attribute
    would get a missing label; the tables below have numeric labels only,
    so this embedding raises there. *)
Definition series (index values : attr) (self : Trace Q) : res Series :=
  items <- mapM (fun r =>
                   match getattr index r with
                   | None => Raise TypeError
                   | Some x => Ok (x, getattr values r)
                   end)
                (results self) ;;
  Ok (sorted fltb fst items).

(** [AlgorithmResults.df] when there is one trace, as after [select]. *)
Definition df (index values : attr) (self : AlgorithmResults) : res Series :=
  match self with
  | [(_, trace)] => series index values trace
  | _ => Raise NotImplementedError
  end.

(** A [pd.DataFrame] with one column per algorithm: the rows in label
    order, each with one cell per column. *)
Definition Table : Type := list (Q * list (option Q)).

Fixpoint lookup (x : Q) (s : Series) : option Q :=
  match s with
  | [] => None
  | (x', v) :: s' => if Qeq_bool x' x then v else lookup x s'
  end.

Fixpoint dedup_labels (xs : list Q) : list Q :=
  match xs with
  | [] => []
  | x :: xs' =>
      if existsb (Qeq_bool x) xs' then dedup_labels xs' else x :: dedup_labels xs'
  end.

(** Modelled from the spec: [pd.concat(series, axis=1)] followed by the
    extension with [indices] and [sort_index], which are pandas and not in
    the source.  The spec has the series aligned in a single table indexed
    by the union of the observed axis values, extended with the supplied
    indices, the new rows being missing. *)
Definition align (columns : list Series) (indices : option (list Q)) : Table :=
  let observed := List.concat (map (map fst) columns) in
  let labels :=
    match indices with
    | None => observed
    | Some extra => observed ++ extra
    end in
  map (fun x => (x, map (lookup x) columns))
      (sorted (fun a b => negb (Qle_bool b a)) (fun x => x) (dedup_labels labels)).

(** Modelled from the spec: [df.fillna(method="ffill", axis=0)], which is
    pandas and not in the source.  The spec has the last known value of a
    column propagated forward along the index. *)
Fixpoint ffill_from (last : list (option Q)) (t : Table) : Table :=
  match t with
  | [] => []
  | (x, cells) :: t' =>
      let filled :=
        map (fun cl => match fst cl with Some v => Some v | None => snd cl end)
            (combine cells last) in
      (x, filled) :: ffill_from filled t'
  end.

Definition ffill (t : Table) : Table :=
  match t with
  | [] => []
  | (x, cells) :: t' => (x, cells) :: ffill_from cells t'
  end.

Definition present (cells : list (option Q)) : list Q :=
  flat_map (fun c => match c with Some v => [v] | None => [] end) cells.

Definition count_less (v : Q) (vs : list Q) : Z :=
  Z.of_nat (List.length (filter (fun w => negb (Qle_bool v w)) vs)).

Definition count_equal (v : Q) (vs : list Q) : Z :=
  Z.of_nat (List.length (filter (fun w => Qeq_bool w v) vs)).

(** Modelled from the spec: [df.rank(method="average", axis=1)], which is
    pandas and not in the source.  The spec has lower values ranked first
    and tied values receive the mean of the ranks they jointly occupy: a
    value with [l] smaller values and [e] values equal to it (itself
    included) occupies the ranks [l+1 .. l+e], whose mean is
    [(2l + e + 1) / 2].  A missing cell has no rank. *)
Definition rank_average (cells : list (option Q)) : list (option Q) :=
  let vs := present cells in
  map (fun c =>
         match c with
         | None => None
         | Some v => Some ((2 * count_less v vs + count_equal v vs + 1)%Z # 2)
         end)
      cells.

(** [BenchmarkResults.ranks]. *)
Definition ranks (xaxis yaxis : attr) (seed : Z) (indices : option (list Q))
    (self : BenchmarkResults) : res Table :=
  seed_results <- mapM (fun ar => r <- select seed (snd ar) ;; Ok (fst ar, r)) self ;;
  incumbent_results <-
    mapM (fun ar => r <- incumbent_traces xaxis "loss" (snd ar) ;; Ok (fst ar, r))
         seed_results ;;
  columns <- mapM (fun ar => df xaxis yaxis (snd ar)) incumbent_results ;;
  let table := align columns indices in
  let table := ffill table in
  Ok (map (fun row => (fst row, rank_average (snd row))) table).

(** The sum of a row, missing cells skipped. *)
Definition row_sum (cells : list (option Q)) : Q :=
  fold_right Qplus 0 (present cells).

End Ranking.


(** ** Results of an algorithm and of an experiment *)

Module Algorithm.
Section Algorithm.
Context {F : Type} {PF : PyFloat F}.

(** [AlgorithmResults.traces], a dict from seed to trace. *)
Definition AlgorithmResults : Type := list (Z * Trace F).

(** [AlgorithmResults.load] with [seeds] given; [disk seed] is what lies
    in the directory [path / f"seed={seed}"], which is taken to exist. *)
Definition load (disk : Z -> @seed_dir F) (seeds : list Z) : res AlgorithmResults :=
  traces_ <- mapM (fun seed => load (disk seed)) seeds ;;
  Ok (dict_of Z.eqb (zip seeds traces_)).

(** [AlgorithmResults.select]. *)
Definition select (seeds : option (list Z)) (self : AlgorithmResults)
  : res AlgorithmResults :=
  match seeds with
  | None => Ok self
  | Some seeds =>
      items <- mapM (fun s => trace <- dict_get Z.eqb s self ;; Ok (s, trace)) seeds ;;
      Ok (dict_of Z.eqb items)
  end.

(** [AlgorithmResults.seeds], a set, as the list of its members. *)
Definition seeds (self : AlgorithmResults) : list Z := dict_keys self.

End Algorithm.
End Algorithm.

Module Experiment.
Section Experiment.
Context {F : Type} {PF : PyFloat F}.

(** [Benchmark], which this module only reads from a file and hands on. *)
Variable Benchmark : Type.

(** [ExperimentResults], with [BenchmarkResults.results] and
    [AlgorithmResults.traces] as the dicts they wrap. *)
Record ExperimentResults : Type := mkExperimentResults {
  name : string;
  algorithms : list string;
  benchmarks : list string;
  benchmark_configs : list (string * Benchmark);
  results : list (string * list (string * @Algorithm.AlgorithmResults F))
}.

(** [{seed: trace for seed, trace in enumerate(traces)}]. *)
Definition enumerate_traces (traces : list (Trace F)) : @Algorithm.AlgorithmResults F :=
  dict_of Z.eqb (zip (map Z.of_nat (seq 0 (List.length traces))) traces).

(** [ExperimentResults.load].  [listing benchmark algorithm] is [None] when
    the directory of the algorithm does not exist and otherwise the seeds
    its entries are named after; [disk benchmark algorithm seed] is what
    lies in the directory of the seed, which is taken to exist;
    [from_name] is [Benchmark.from_name] with the directory of the
    benchmark configurations. *)
Definition load (listing : string -> string -> option (list Z))
    (disk : string -> string -> Z -> @seed_dir F)
    (from_name : string -> res Benchmark)
    (name_ : string) (benchmarks_ algorithms_ : list string) (seeds : option (list Z))
  : res ExperimentResults :=
  seeds <-
    match seeds with
    | Some seeds => Ok seeds
    | None =>
        match benchmarks_ with
        | [] => Raise IndexError
        | first_benchmark :: _ =>
            match listing first_benchmark "random_search"%string with
            | Some seeds => Ok seeds
            | None =>
                match listing first_benchmark "random_search_prior"%string with
                | Some seeds => Ok seeds
                | None => Raise ValueError
                end
            end
        end
    end ;;
  results_ <-
    mapM (fun benchmark =>
            per_algorithm <-
              mapM (fun algorithm =>
                      traces <- mapM (fun seed => load (disk benchmark algorithm seed))
                                     seeds ;;
                      Ok (algorithm, traces))
                   algorithms_ ;;
            Ok (benchmark, dict_of String.eqb per_algorithm))
         benchmarks_ ;;
  let results_ := dict_of String.eqb results_ in
  let results_ :=
    map (fun br =>
           (fst br, map (fun at_ => (fst at_, enumerate_traces (snd at_))) (snd br)))
        results_ in
  benchmark_configs_ <-
    mapM (fun benchmark => config <- from_name benchmark ;; Ok (benchmark, config))
         benchmarks_ ;;
  Ok (mkExperimentResults name_ algorithms_ benchmarks_
        (dict_of String.eqb benchmark_configs_) results_).

End Experiment.
End Experiment.

(** ** Aggregate ranks of an experiment *)

Module Aggregate.

(** A [pd.DataFrame] whose columns have names: the names, and the rows in
    label order with one cell per name. *)
Definition Frame : Type := (list string * Ranking.Table)%type.

(** The cells of the row labelled [x]. *)
Fixpoint row_at (x : Q) (t : Ranking.Table) : option (list (option Q)) :=
  match t with
  | [] => None
  | (x', cells) :: t' => if Qeq_bool x' x then Some cells else row_at x t'
  end.

(** The position of the column named [a]. *)
Fixpoint index_of (a : string) (names : list string) : option nat :=
  match names with
  | [] => None
  | a' :: names' =>
      if String.eqb a' a then Some 0%nat else option_map S (index_of a names')
  end.

(** The value in row [x] and column [a]; [None] when it is missing, and
    when the frame has no such row or no such column. *)
Definition cell (f : Frame) (x : Q) (a : string) : option Q :=
  match row_at x (snd f), index_of a (fst f) with
  | Some cells, Some j => nth j cells None
  | _, _ => None
  end.

(** [set(xs)] as the list of its members: one of every group of equal
    items.  Python does not specify the order in which a set yields its
    members; the results below depend on that order only in which of
    several failures is met first. *)
Fixpoint set_of {A : Type} (eqb : A -> A -> bool) (xs : list A) : list A :=
  match xs with
  | [] => []
  | x :: xs' => if existsb (eqb x) xs' then set_of eqb xs' else x :: set_of eqb xs'
  end.

(** [xs if not sort else sorted(xs)]. *)
Definition sort_indices (sort : bool) (xs : list (option Q)) : res (list (option Q)) :=
  if sort then sorted_opt (fun x => x) xs else Ok xs.

(** [Trace.indices]. *)
Definition trace_indices (xaxis : attr) (sort : bool) (self : Trace Q)
  : res (list (option Q)) :=
  sort_indices sort (map (getattr xaxis) (results self)).

(** [AlgorithmResults.indices]. *)
Definition algorithm_indices (xaxis : attr) (sort : bool)
    (self : Ranking.AlgorithmResults) : res (list (option Q)) :=
  indices <- mapM (fun st => trace_indices xaxis false (snd st)) self ;;
  sort_indices sort (set_of (option_eqb Qeq_bool) (List.concat indices)).

(** [BenchmarkResults.indices]. *)
Definition benchmark_indices (xaxis : attr) (sort : bool)
    (self : Ranking.BenchmarkResults) : res (list (option Q)) :=
  indices <- mapM (fun ar => algorithm_indices xaxis false (snd ar)) self ;;
  sort_indices sort (set_of (option_eqb Qeq_bool) (List.concat indices)).

(** [BenchmarkResults.seeds]; [AlgorithmResults.seeds] is [dict_keys]. *)
Definition benchmark_seeds (self : Ranking.BenchmarkResults) : list Z :=
  set_of Z.eqb (List.concat (map (fun ar => dict_keys (snd ar)) self)).

(** Modelled from the spec: the rank tables are indexed by axis values,
    which are numbers (see [Ranking.series]); extending a table with a
    missing axis value raises. *)
Definition label (x : option Q) : res Q :=
  match x with
  | Some v => Ok v
  | None => Raise TypeError
  end.

(** [self.results[benchmark].ranks(xaxis, yaxis, seed=seed,
    indices=indices)], with the names of the columns of the table: the
    algorithms of the benchmark.  The table is extended with [indices]
    after the columns have been computed. *)
Definition benchmark_ranks (xaxis yaxis : attr) (seed : Z) (indices : list (option Q))
    (self : Ranking.BenchmarkResults) : res Frame :=
  table <-
    match mapM label indices with
    | Ok labels => Ranking.ranks xaxis yaxis seed (Some labels) self
    | Raise e => _ <- Ranking.ranks xaxis yaxis seed None self ;; Raise e
    end ;;
  Ok (dict_keys self, table).

Definition add_cells (u v : option Q) : option Q :=
  match u, v with
  | Some a, Some b => Some (a + b)
  | _, _ => None
  end.

(** Modelled from the spec: [operator.add] on two tables, which is pandas
    and not in the source.  The spec has the tables averaged element-wise:
    the sum has the rows and the columns of both, and in each place the sum
    of the two values, or nothing when either is missing. *)
Definition table_add (f g : Frame) : Frame :=
  let names :=
    fst f ++ filter (fun a => negb (existsb (String.eqb a) (fst f))) (fst g) in
  let labels :=
    sorted (fun a b => negb (Qle_bool b a)) (fun x => x)
           (Ranking.dedup_labels (map fst (snd f) ++ map fst (snd g))) in
  (names,
   map (fun x => (x, map (fun a => add_cells (cell f x a) (cell g x a)) names)) labels).

(** Modelled from the spec: a table divided by a number, element-wise. *)
Definition table_div (f : Frame) (n : nat) : Frame :=
  (fst f,
   map (fun row =>
          (fst row, map (option_map (fun v => v / inject_Z (Z.of_nat n))) (snd row)))
       (snd f)).

(** [functools.reduce(function, items)], without an initial value. *)
Definition reduce {A : Type} (function : A -> A -> A) (items : list A) : res A :=
  match items with
  | [] => Raise TypeError
  | x :: items' => Ok (fold_left function items' x)
  end.

(** [rank_df[algorithm]]. *)
Definition column (algorithm : string) (f : Frame) : res Ranking.Series :=
  match index_of algorithm (fst f) with
  | None => Raise KeyError
  | Some j => Ok (map (fun row => (fst row, nth j (snd row) None)) (snd f))
  end.

(** Modelled from the spec: [sem], which is pandas and not in the source.
    The spec has the standard error of the mean, the sample standard
    deviation divided by the square root of the number of samples.  The
    rationals have no square roots, so this is its square: the sample
    variance divided by the number of samples.  Fewer than two samples
    have no sample variance. *)
Definition sem_squared (samples : list Q) : option Q :=
  let n := inject_Z (Z.of_nat (List.length samples)) in
  if (List.length samples <? 2)%nat then None
  else
    let mean := fold_right Qplus 0 samples / n in
    Some (fold_right Qplus 0 (map (fun v => (v - mean) * (v - mean)) samples)
          / (n - 1) / n).

(** Modelled from the spec: [algorithm_results.sem(axis=1)], row by row
    over the values that are not missing. *)
Definition sem (t : Ranking.Table) : Ranking.Series :=
  map (fun row => (fst row, sem_squared (Ranking.present (snd row)))) t.

Definition pair_eqb (p q : string * Z) : bool :=
  String.eqb (fst p) (fst q) && Z.eqb (snd p) (snd q).

Section Aggregate.
Variable Benchmark : Type.

(** [ExperimentResults.indices]. *)
Definition indices (xaxis : attr) (sort : bool)
    (self : @Experiment.ExperimentResults Q Benchmark) : res (list (option Q)) :=
  indices <- mapM (fun br => benchmark_indices xaxis false (snd br))
                  (Experiment.results self) ;;
  sort_indices sort (set_of (option_eqb Qeq_bool) (List.concat indices)).

(** [ExperimentResults.seeds]. *)
Definition seeds (self : @Experiment.ExperimentResults Q Benchmark) : list Z :=
  set_of Z.eqb (List.concat (map (fun br => benchmark_seeds (snd br))
                                 (Experiment.results self))).

(** [ExperimentResults.ranks]: the table of the means, and the table of
    the (squared) standard errors. *)
Definition ranks (xaxis yaxis : attr)
    (self : @Experiment.ExperimentResults Q Benchmark) : res (Frame * Frame) :=
  indices_ <- indices xaxis false self ;;
  let seeds_ := seeds self in
  let benchmarks_ := Experiment.benchmarks self in
  ranks_ <-
    mapM (fun bs : string * Z =>
            benchmark_results <- dict_get String.eqb (fst bs) (Experiment.results self) ;;
            rank_df <- benchmark_ranks xaxis yaxis (snd bs) indices_ benchmark_results ;;
            Ok (bs, rank_df))
         (list_prod benchmarks_ seeds_) ;;
  let ranks_ := dict_of pair_eqb ranks_ in
  ranks_accumulated <- reduce table_add (dict_values ranks_) ;;
  let means := table_div ranks_accumulated (List.length ranks_) in
  stds <-
    mapM (fun algorithm =>
            algorithm_ranks_per_benchmark_seed <-
              mapM (fun kv => column algorithm (snd kv)) ranks_ ;;
            let algorithm_results :=
              Ranking.align algorithm_ranks_per_benchmark_seed None in
            Ok (sem algorithm_results))
         (Experiment.algorithms self) ;;
  Ok (means, (Experiment.algorithms self, Ranking.align stds None)).

End Aggregate.
End Aggregate.

(** * Vocabulary of the statements *)

(** [a] does not come after [b] in the order [sorted] produces. *)
Definition key_le {A K : Type} (ltb : K -> K -> bool) (key : A -> K) (a b : A) : Prop :=
  ltb (key b) (key a) = false.

(** A group is a non-empty run, labelled with the key of its first item,
    and all its items have that key. *)
Definition group_ok {A K : Type} (eqb : K -> K -> bool) (key : A -> K)
    (kg : K * list A) : Prop :=
  exists a g, snd kg = a :: g /\ fst kg = key a /\
              Forall (fun b => eqb (key b) (fst kg) = true) (snd kg).

(** On the items at hand, equal group keys are keys that the sort does not
    tell apart. *)
Definition linked {A K K1 : Type} (eqb : K -> K -> bool) (key : A -> K)
    (ltb : K1 -> K1 -> bool) (key1 : A -> K1) (l : list A) : Prop :=
  forall a b, In a l -> In b l ->
    (eqb (key a) (key b) = true <->
     ltb (key1 a) (key1 b) = false /\ ltb (key1 b) (key1 a) = false).

Definition distinct_keys {A K : Type} (eqb : K -> K -> bool)
    (gs : list (K * list A)) : Prop :=
  ForallOrdPairs (fun p q => eqb (fst p) (fst q) = false) gs.

Definition group_is_class {A K : Type} (eqb : K -> K -> bool) (key : A -> K)
    (l : list A) (kg : K * list A) : Prop :=
  snd kg = filter (fun b => eqb (key b) (fst kg)) l.

(** [<] of the rational carrier. *)
Definition Qltb (x y : Q) : bool := negb (Qle_bool y x).

(** [a] is immediately followed by [b] in [l]. *)
Definition adjacent {A : Type} (a b : A) (l : list A) : Prop :=
  exists l1 l2, l = l1 ++ a :: b :: l2.

Section StitchingVocabulary.
Context {F : Type} {PF : PyFloat F}.

(** A record that no [continue_from] has produced. *)
Definition fresh (r : Result F) : Prop := continued_from r = None.

(** What [continue_from] makes of [higher] and [lower]. *)
Definition stitched (lower higher r : Result F) : Prop :=
  fidelity r = (fidelity higher - fidelity lower)%Z /\
  cost r = fsub (cost higher) (cost lower) /\
  continued_from r = Some lower /\
  id r = id higher /\ bracket r = bracket higher /\ loss r = loss higher /\
  val_score r = val_score higher /\ test_score r = test_score higher /\
  start_time r = start_time higher /\ end_time r = end_time higher /\
  max_fidelity_loss r = max_fidelity_loss higher /\
  max_fidelity_cost r = max_fidelity_cost higher /\
  cumulated_fidelity r = cumulated_fidelity higher /\
  start_time_since_global_start r = start_time_since_global_start higher /\
  end_time_since_global_start r = end_time_since_global_start higher /\
  process_id r = process_id higher.

(** The records of configuration [i], lowest bracket first. *)
Definition config_group (i : Z) (l : list (Result F)) : list (Result F) :=
  sorted Z.ltb bracket_key (filter (fun r => (id r =? i)%Z) l).

(** The groups [with_continuations] works on. *)
Definition config_groups (l : list (Result F)) : list (list (Result F)) :=
  map (fun kg => sorted Z.ltb bracket_key (snd kg))
      (groupby Z.eqb (@id F) (sorted Z.ltb (@id F) l)).
End StitchingVocabulary.


(** * Scenarios *)

Definition record (F : Type) (i : Z) (b : option Z) (l c : F) (f : Z) (st et : F)
    (pid : option Z) (zero : F) : Result F :=
  mkResult i b l c zero zero f st et zero zero None None None None pid.

(** Three evaluations of configuration 0, at brackets 0, 1 and 2, with
    fidelities 1, 3 and 5 and losses 0.9, 0.5 and 0.2, listed out of order. *)
Definition scenario_A : Trace Q :=
  mkTrace [ record 0%Z (Some 2%Z) (2 # 10) (50 # 1) 5%Z (2 # 1) (3 # 1) None 0%Q;
            record 0%Z (Some 0%Z) (9 # 10) (10 # 1) 1%Z (0 # 1) (1 # 1) None 0%Q;
            record 0%Z (Some 1%Z) (5 # 10) (30 # 1) 3%Z (1 # 1) (2 # 1) None 0%Q ].


(** The fidelity a list of records adds up to. *)
Definition fidelity_total {F : Type} (rs : list (Result F)) : Z :=
  fold_right Z.add 0%Z (map (@fidelity F) rs).

(** Five evaluations by one worker, in end-time order, with fidelities
    1, 1, 3, 1 and 9. *)
Definition scenario_B : Trace Q :=
  mkTrace [ record 0%Z None (9 # 10) (1 # 1) 1%Z (0 # 1) (1 # 1) None 0%Q;
            record 1%Z None (8 # 10) (1 # 1) 1%Z (1 # 1) (2 # 1) None 0%Q;
            record 2%Z None (7 # 10) (1 # 1) 3%Z (2 # 1) (3 # 1) None 0%Q;
            record 3%Z None (6 # 10) (1 # 1) 1%Z (3 # 1) (4 # 1) None 0%Q;
            record 4%Z None (5 # 10) (1 # 1) 9%Z (4 # 1) (5 # 1) None 0%Q ].


(** [l] is [l'] with some items left out. *)
Inductive subseq {A : Type} : list A -> list A -> Prop :=
| subseq_nil : subseq [] []
| subseq_skip (x : A) (l l' : list A) : subseq l l' -> subseq l (x :: l')
| subseq_keep (x : A) (l l' : list A) : subseq l l' -> subseq (x :: l) (x :: l').

(** Every record carries a value for the attribute. *)
Definition populated {F : Type} (a : attr) (rs : list (Result F)) : Prop :=
  Forall (fun r => is_some (getattr a r) = true) rs.

(** [a] does not come after [b] along the axis. *)
Definition axis_le (xaxis : attr) (a b : Result Q) : Prop :=
  forall x y, getattr xaxis a = Some x -> getattr xaxis b = Some y -> (x <= y)%Q.

(** The records whose loss is strictly lower than the loss of every record
    before them: [seen] holds the records already passed. *)
Fixpoint improvers {F : Type} {PF : PyFloat F} (seen rs : list (Result F))
  : list (Result F) :=
  match rs with
  | [] => []
  | r :: rs' =>
      if forallb (fun a => fltb (loss r) (loss a)) seen
      then r :: improvers (seen ++ [r]) rs'
      else improvers (seen ++ [r]) rs'
  end.


(** What [rescale_xaxis] does to a record that carries the axis. *)
Definition scaled {F : Type} {PF : PyFloat F} (c : F) (xaxis : attr) (r : Result F)
  : Result F :=
  match getattr xaxis r with
  | Some v => setattr xaxis (fmul v c) r
  | None => r
  end.

(** [r'] is [r] with an axis value that equals ([==]) the one of [r]. *)
Definition same_axis_value {F : Type} {PF : PyFloat F} (xaxis : attr)
    (r r' : Result F) : Prop :=
  exists v v', getattr xaxis r = Some v /\ feqb v' v = true /\ r' = setattr xaxis v' r.

(** The records [final] are the records [original], in some order, each with
    its original axis value. *)
Definition reproduces {F : Type} {PF : PyFloat F} (xaxis : attr)
    (original final : list (Result F)) : Prop :=
  exists l, Permutation l original /\ Forall2 (same_axis_value xaxis) l final.

(** Rescaling by [c] and then by [1/c] returns, and reproduces the axis
    value of every record. *)
Definition rescale_round_trip {F : Type} {PF : PyFloat F} (c : F) (xaxis : attr)
    (t : Trace F) : Prop :=
  exists t1 t2,
    rescale_xaxis c xaxis t = Ok t1 /\
    rescale_xaxis (fdiv (of_int 1) c) xaxis t1 = Ok t2 /\
    reproduces xaxis (results t) (results t2).

(** One record that has consumed 7 units of fidelity in total, in binary64. *)
Definition seven_units : Trace float :=
  mkTrace [ mkResult 0%Z None 0.5%float 1%float 0%float 0%float 7%Z
              0%float 1%float 0%float 0%float (Some 7%float) None None None None ].


(** The cumulated fidelity of [a] is strictly below the one of [b]. *)
Definition cf_lt (a b : Result Q) : Prop :=
  exists x y, cumulated_fidelity a = Some x /\ cumulated_fidelity b = Some y /\
              (x < y)%Q.

(** [a] and [b] have the same cumulated fidelity ([==]). *)
Definition cf_eq (a b : Result Q) : Prop :=
  option_eqb Qeq_bool (cumulated_fidelity a) (cumulated_fidelity b) = true.

(** [out] keeps, of the records [merged], one per cumulated fidelity, a
    record of least loss, in strictly ascending order of cumulated
    fidelity. *)
Definition deduplicated (merged out : list (Result Q)) : Prop :=
  StronglySorted cf_lt out /\
  (forall r, In r out ->
     In r merged /\
     forall r', In r' merged -> cf_eq r' r -> (loss r <= loss r')%Q) /\
  (forall r', In r' merged -> exists r, In r out /\ cf_eq r r').

(** The cumulated fidelity as a number, for records that have one. *)
Definition cf_value (r : Result Q) : Q :=
  match cumulated_fidelity r with
  | Some v => v
  | None => 0
  end.

(** Five evaluations by two workers. *)
Definition two_workers : Trace Q :=
  mkTrace [ record 0%Z None (9 # 10) (1 # 1) 1%Z (0 # 1) (1 # 1) (Some 1%Z) 0%Q;
            record 1%Z None (8 # 10) (1 # 1) 1%Z (0 # 1) (2 # 1) (Some 0%Z) 0%Q;
            record 2%Z None (5 # 10) (1 # 1) 3%Z (1 # 1) (3 # 1) (Some 1%Z) 0%Q;
            record 3%Z None (4 # 10) (1 # 1) 1%Z (2 # 1) (4 # 1) (Some 0%Z) 0%Q;
            record 4%Z None (9 # 10) (1 # 1) 9%Z (4 # 1) (5 # 1) (Some 0%Z) 0%Q ].

(** The record names the worker that evaluated it. *)
Definition has_worker {F : Type} (r : Result F) : Prop := is_some (process_id r) = true.

(** Every record has a cumulated fidelity. *)
Definition cf_known (rs : list (Result Q)) : Prop :=
  Forall (fun r => is_some (cumulated_fidelity r) = true) rs.


(** No two of the values are equal. *)
Definition untied (vs : list Q) : Prop :=
  ForallOrdPairs (fun x y => ~ x == y) vs.

(** No cell of the row is missing. *)
Definition complete (cells : list (option Q)) : Prop :=
  Forall (fun c => is_some c = true) cells.

(** The ranks in [row] are the integers [p], cell by cell. *)
Definition ranks_are (row : list (option Q)) (p : list nat) : Prop :=
  Forall2 (fun c n => exists q, c = Some q /\ q == inject_Z (Z.of_nat n)) row p.

(** Two algorithms on one seed; the second has its first evaluation later
    on the axis than the first. *)
Definition late_start : Ranking.BenchmarkResults :=
  [ ("A"%string,
     [(0%Z, mkTrace [ mkResult 0%Z None (5 # 10) 1 0 0 1%Z 0 1 0 0 (Some 1) None None
                        None None ])]);
    ("B"%string,
     [(0%Z, mkTrace [ mkResult 0%Z None (3 # 10) 1 0 0 3%Z 0 1 0 0 (Some 3) None None
                        None None ])]) ]%Q.


(** Two algorithms on one seed with incumbent losses 0.5 then 0.4 and
    0.6 then 0.3 at the axis values 1 and 3. *)
Definition scenario_D : Ranking.BenchmarkResults :=
  [ ("A"%string,
     [(0%Z, mkTrace [ mkResult 0%Z None (5 # 10) 1 0 0 1%Z 0 1 0 0 (Some 1) None None
                        None None;
                      mkResult 1%Z None (4 # 10) 1 0 0 2%Z 1 2 0 0 (Some 3) None None
                        None None ])]);
    ("B"%string,
     [(0%Z, mkTrace [ mkResult 0%Z None (6 # 10) 1 0 0 1%Z 0 1 0 0 (Some 1) None None
                        None None;
                      mkResult 1%Z None (3 # 10) 1 0 0 2%Z 1 2 0 0 (Some 3) None None
                        None None ])]) ]%Q.


(** The axis value of [r] lies in [[low, high]]. *)
Definition within (low high : Q) (xaxis : attr) (r : Result Q) : Prop :=
  exists v, getattr xaxis r = Some v /\ (low <= v)%Q /\ (v <= high)%Q.


(** The cumulated fidelity of [b] exceeds the one of [a] by [gap] at least. *)
Definition cf_gap (gap : Z) (a b : Result Q) : Prop :=
  exists x y, cumulated_fidelity a = Some x /\ cumulated_fidelity b = Some y /\
              (x + inject_Z gap <= y)%Q.

(** Two evaluations reported by different workers. *)
Definition mixed_workers : Trace Q :=
  mkTrace [ record 0%Z None (9 # 10) (1 # 1) 1%Z (0 # 1) (1 # 1) (Some 0%Z) 0%Q;
            record 1%Z None (8 # 10) (1 # 1) 1%Z (0 # 1) (2 # 1) (Some 1%Z) 0%Q ].


(** The name of a [config] directory has an identifier and at most a
    bracket. *)
Definition well_named {F : Type} (d : @config_dir F) : Prop :=
  List.length (name_parts d) = 1%nat \/ List.length (name_parts d) = 2%nat.

(** What [load_neps] adds to a record read from disk: the times since the
    global start [g], and nothing that a later step fills in. *)
Definition offset_from (g : Q) (r : Result Q) : Prop :=
  (g <= start_time r)%Q /\
  start_time_since_global_start r = Some (start_time r - g)%Q /\
  end_time_since_global_start r = Some (end_time r - g)%Q /\
  cumulated_fidelity r = None /\
  continued_from r = None.

(** Two [config] directories, [config_0_0] and [config_1_0]. *)
Definition two_dirs : list (@config_dir Q) :=
  [ mkConfigDir [0; 0]%Z (9 # 10) 1 0 0 1%Z (5 # 1) (6 # 1) 0 0 None;
    mkConfigDir [1; 0]%Z (8 # 10) 1 0 0 1%Z (4 # 1) (7 # 1) 0 0 None ]%Q.


(** What the records of [load_hpbandster] have and lack: a bracket, but no
    worker, no time since a global start, no cumulated fidelity and no
    continuation. *)
Definition hpbandster_shaped {F : Type} (r : Result F) : Prop :=
  is_some (bracket r) = true /\ process_id r = None /\
  start_time_since_global_start r = None /\ end_time_since_global_start r = None /\
  cumulated_fidelity r = None /\ continued_from r = None.

(** [int(x)] on a rational: truncation toward zero. *)
Definition truncate (x : Q) : Z := Z.quot (Qnum x) (Zpos (Qden x)).

(** The record [load_hpbandster] makes of a line, given the identifier it
    assigns to a configuration and the bracket it assigns to a fidelity. *)
Definition hpbandster_record (new_id : list Z -> Z) (bracket_of : Z -> Z)
    (line : @hpbandster_line Q) : Result Q :=
  mkResult (new_id (line_id line)) (Some (bracket_of (truncate (line_budget line))))
    (line_loss line) (line_cost line) (line_val_score line) (line_test_score line)
    (truncate (line_budget line)) (line_started line) (line_finished line)
    (line_max_fidelity_loss line) (line_max_fidelity_cost line)
    None None None None None.

(** Three runs of two configurations at the budgets 3, 1 and 3. *)
Definition three_lines : list (@hpbandster_line Q) :=
  [ mkHpbandsterLine [0; 0; 0]%Z 3 0 1 (9 # 10) 1 0 0 0 0;
    mkHpbandsterLine [0; 0; 1]%Z 1 1 2 (8 # 10) 1 0 0 0 0;
    mkHpbandsterLine [0; 0; 1]%Z 3 2 3 (7 # 10) 1 0 0 0 0 ]%Q.


(** Three evaluations of three configurations, the second already marked
    as a continuation. *)
Definition three_configs : Trace Q :=
  mkTrace [ record 2%Z None (2 # 10) (50 # 1) 5%Z (2 # 1) (3 # 1) None 0%Q;
            mutate (record 0%Z None (9 # 10) (10 # 1) 1%Z (0 # 1) (1 # 1) None 0%Q)
                   [ContinuedFrom
                      (Some (record 0%Z None (9 # 10) (10 # 1) 1%Z (0 # 1) (1 # 1) None 0%Q))];
            record 1%Z None (5 # 10) (30 # 1) 3%Z (1 # 1) (2 # 1) None 0%Q ].


(** A results directory in which the directory of every seed holds the two
    [config] directories above. *)
Definition uniform_disk : string -> string -> Z -> @seed_dir Q :=
  fun _ _ _ => mkSeedDir (Some (Some two_dirs)) None.


(** The records of worker [p], in the order of their end times. *)
Definition worker_records {F : Type} {PF : PyFloat F} (p : option Z)
    (l : list (Result F)) : list (Result F) :=
  sorted fltb (@end_time F)
         (filter (fun r => option_eqb Z.eqb (process_id r) p) l).

(** [r'] is a record of [l] with, as cumulated fidelity, the fidelity its
    worker had consumed when it finished that record: the total over the
    worker's records up to and including it, in the order of their end
    times. *)
Definition running_total {F : Type} {PF : PyFloat F} (l : list (Result F))
    (r' : Result F) : Prop :=
  exists p i r,
    nth_error (worker_records p l) i = Some r /\
    r' = mutate r [CumulatedFidelity
                     (Some (of_int (fidelity_total
                                      (firstn (S i) (worker_records p l)))))].

(** [merged] holds one record per record of [l], each with the running
    total of its worker, and nothing else. *)
Definition merged_per_worker {F : Type} {PF : PyFloat F}
    (l merged : list (Result F)) : Prop :=
  List.length merged = List.length l /\
  forall r', In r' merged <-> running_total l r'.

(** [r'] is [r] with its axis value multiplied by [c] and nothing else
    changed. *)
Definition multiplied {F : Type} {PF : PyFloat F} (c : F) (xaxis : attr)
    (r r' : Result F) : Prop :=
  exists v, getattr xaxis r = Some v /\ r' = setattr xaxis (fmul v c) r.

(** The records [final] are the records [original], in some order, each
    with its axis value multiplied by [c]. *)
Definition linear_image {F : Type} {PF : PyFloat F} (c : F) (xaxis : attr)
    (original final : list (Result F)) : Prop :=
  exists l, Permutation l original /\ Forall2 (multiplied c xaxis) l final.


(** The frame has a row labelled [x]. *)
Definition has_row (f : Aggregate.Frame) (x : Q) : bool :=
  is_some (Aggregate.row_at x (snd f)).

(** Two cells hold the same number, or are both missing. *)
Definition same_cell (u v : option Q) : Prop :=
  match u, v with
  | Some a, Some b => a == b
  | None, None => True
  | _, _ => False
  end.

(** The sum of cells, missing when one of them is. *)
Definition total (cells : list (option Q)) : option Q :=
  if forallb is_some cells then Some (fold_right Qplus 0 (Ranking.present cells))
  else None.

(** The average of cells: their sum over their number, missing when one of
    them is. *)
Definition average (cells : list (option Q)) : option Q :=
  option_map (fun v => v / inject_Z (Z.of_nat (List.length cells))) (total cells).

(** The axis values of all the records of the experiment. *)
Definition axis_values {B : Type} (xaxis : attr)
    (e : @Experiment.ExperimentResults Q B) : list (option Q) :=
  flat_map (fun br : string * Ranking.BenchmarkResults =>
    flat_map (fun ar : string * Ranking.AlgorithmResults =>
      flat_map (fun st : Z * Trace Q => map (getattr xaxis) (results (snd st)))
               (snd ar))
      (snd br))
    (Experiment.results e).

(** Some record of the experiment has the axis value [x]. *)
Definition on_axis {B : Type} (xaxis : attr) (e : @Experiment.ExperimentResults Q B)
    (x : Q) : Prop :=
  existsb (option_eqb Qeq_bool (Some x)) (axis_values xaxis e) = true.


(** What [ranks] needs of an experiment: a benchmark to rank and a seed;
    results for every benchmark of its list; for every algorithm of every
    benchmark, a trace for every seed that some algorithm has, all traces
    non-empty with records that carry the axis; and every algorithm of its
    list among the algorithms of every benchmark. *)
Definition rankable {B : Type} (xaxis : attr) (e : @Experiment.ExperimentResults Q B)
  : Prop :=
  Experiment.benchmarks e <> [] /\
  Aggregate.seeds e <> [] /\
  (forall b, In b (Experiment.benchmarks e) -> In b (dict_keys (Experiment.results e))) /\
  (forall b br a ar,
      In (b, br) (Experiment.results e) -> In (a, ar) br ->
      (forall s, In s (Aggregate.seeds e) -> In s (dict_keys ar)) /\
      (forall s t, In (s, t) ar -> results t <> [] /\ populated xaxis (results t))) /\
  (forall b br a,
      In (b, br) (Experiment.results e) -> In a (Experiment.algorithms e) ->
      In a (dict_keys br)).

(** [v] is the square of the standard error of the mean of [samples]:
    the sample variance, which is the sum of the squared deviations from
    the mean over one less than the number of samples, over the number of
    samples.  It is missing when there are fewer than two samples. *)
Definition standard_error_squared (samples : list Q) (v : option Q) : Prop :=
  let n := inject_Z (Z.of_nat (List.length samples)) in
  match v with
  | None => (List.length samples < 2)%nat
  | Some v =>
      (2 <= List.length samples)%nat /\
      exists mean,
        mean * n == fold_right Qplus 0 samples /\
        v * (n - 1) * n
        == fold_right Qplus 0 (map (fun x => (x - mean) * (x - mean)) samples)
  end.

(** [f] is the rank table of the benchmark and the seed [bs], extended to
    the axis values of the whole experiment: its columns are the
    algorithms of the benchmark and its rows are those axis values. *)
Definition per_seed_table {B : Type} (xaxis yaxis : attr)
    (e : @Experiment.ExperimentResults Q B) (bs : string * Z) (f : Aggregate.Frame)
  : Prop :=
  exists br labels,
    dict_get String.eqb (fst bs) (Experiment.results e) = Ok br /\
    (forall x, existsb (fun y => Qeq_bool y x) labels = true <-> on_axis xaxis e x) /\
    Ranking.ranks xaxis yaxis (snd bs) (Some labels) br = Ok (snd f) /\
    fst f = dict_keys br /\
    forall x, has_row f x = true <-> on_axis xaxis e x.

(** Two benchmarks with the algorithms A and B on one seed. *)
Definition two_benchmarks : @Experiment.ExperimentResults Q unit :=
  Experiment.mkExperimentResults "x"%string ["A"; "B"]%string ["d"; "l"]%string []
    [("d"%string, scenario_D); ("l"%string, late_start)].

(** One benchmark on which algorithm A has the seeds 0 and 1 and algorithm
    B the seed 0 only. *)
Definition uneven_seeds : @Experiment.ExperimentResults Q unit :=
  Experiment.mkExperimentResults "x"%string ["A"; "B"]%string ["d"]%string []
    [("d"%string,
      [("A"%string, [(0%Z, scenario_B); (1%Z, scenario_B)]);
       ("B"%string, [(0%Z, scenario_B)])])].

(** * Facts about the builtins *)

Lemma bind_Ok_inv {A B : Type} (m : res A) (k : A -> res B) (b : B) :
  bind m k = Ok b -> exists a, m = Ok a /\ k a = Ok b.
Proof. destruct m as [a|e]; simpl; [eauto | discriminate]. Qed.

Lemma mapM_Forall2 {A B : Type} (f : A -> res B) (l : list A) (l' : list B) :
  mapM f l = Ok l' -> Forall2 (fun a b => f a = Ok b) l l'.
Proof.
  revert l'; induction l as [|a l IH]; simpl; intros l' H.
  - injection H as <-. constructor.
  - apply bind_Ok_inv in H as (b & Hb & H).
    apply bind_Ok_inv in H as (bs & Hbs & H).
    injection H as <-. constructor; auto.
Qed.

Lemma Forall2_mapM {A B : Type} (f : A -> res B) (l : list A) (l' : list B) :
  Forall2 (fun a b => f a = Ok b) l l' -> mapM f l = Ok l'.
Proof. induction 1 as [|a b l l' Hab _ IH]; simpl; [|rewrite Hab; simpl; rewrite IH]; reflexivity. Qed.

Lemma mapM_total {A B : Type} (f : A -> res B) (l : list A) :
  Forall (fun a => exists b, f a = Ok b) l -> exists l', mapM f l = Ok l'.
Proof.
  induction 1 as [|a l [b Hb] _ [l' IH]]; simpl.
  - eauto.
  - rewrite Hb, IH. simpl. eauto.
Qed.

Lemma mapM_pure {A B : Type} (g : A -> B) (l : list A) :
  mapM (fun a => Ok (g a)) l = Ok (map g l).
Proof. induction l as [|a l IH]; simpl; [|rewrite IH]; reflexivity. Qed.

Section SortedFacts.
Context {A K : Type}.
Variable ltb : K -> K -> bool.
Variable key : A -> K.


Lemma insert_sorted_perm x l : Permutation (insert_sorted ltb key x l) (x :: l).
Proof.
  induction l as [|y l IH]; simpl; [reflexivity|].
  destruct (ltb (key y) (key x)); [|reflexivity].
  rewrite IH. apply perm_swap.
Qed.

Lemma sorted_perm l : Permutation (sorted ltb key l) l.
Proof.
  induction l as [|x l IH]; simpl; [constructor|].
  rewrite insert_sorted_perm. now constructor.
Qed.

Lemma sorted_length l : List.length (sorted ltb key l) = List.length l.
Proof. apply Permutation_length, sorted_perm. Qed.

Lemma sorted_In a l : In a (sorted ltb key l) <-> In a l.
Proof.
  split; apply Permutation_in; [|symmetry]; apply sorted_perm.
Qed.

(** The sort is stable: records that compare equal among themselves keep
    their relative order. *)
Lemma insert_sorted_filter (p : A -> bool) x l :
  (forall a, In a l -> p x = true -> p a = true -> ltb (key a) (key x) = false) ->
  filter p (insert_sorted ltb key x l) = filter p (x :: l).
Proof.
  induction l as [|y l IH]; intros Hp; [reflexivity|].
  simpl. destruct (ltb (key y) (key x)) eqn:E; [|reflexivity].
  simpl. rewrite IH by (intros a Ha; apply Hp; right; exact Ha).
  simpl. destruct (p x) eqn:Ex, (p y) eqn:Ey; try reflexivity.
  rewrite Hp in E; simpl; auto. discriminate.
Qed.

Lemma sorted_filter (p : A -> bool) l :
  (forall a b, In a l -> In b l -> p a = true -> p b = true -> ltb (key a) (key b) = false) ->
  filter p (sorted ltb key l) = filter p l.
Proof.
  induction l as [|x l IH]; intros Hp; [reflexivity|].
  simpl sorted. rewrite insert_sorted_filter.
  - simpl. rewrite IH by (intros a b Ha Hb; apply Hp; right; assumption). reflexivity.
  - intros a Ha Hx Hpa. apply (proj1 (sorted_In _ _)) in Ha.
    apply Hp; [right; exact Ha | left; reflexivity | exact Hpa | exact Hx].
Qed.

Hypothesis ltb_asym : forall x y, ltb x y = true -> ltb y x = false.
Hypothesis le_trans : forall x y z, ltb y x = false -> ltb z y = false -> ltb z x = false.

Lemma key_le_trans a b c : key_le ltb key a b -> key_le ltb key b c -> key_le ltb key a c.
Proof. unfold key_le. intros. eapply le_trans; eauto. Qed.

Lemma insert_sorted_sorted x l :
  StronglySorted (key_le ltb key) l -> StronglySorted (key_le ltb key) (insert_sorted ltb key x l).
Proof.
  induction 1 as [|y l Hl IH Hy]; simpl.
  - repeat constructor.
  - destruct (ltb (key y) (key x)) eqn:E.
    + constructor; [exact IH|].
      rewrite Forall_forall. intros a Ha.
      apply (Permutation_in _ (insert_sorted_perm x l)) in Ha.
      destruct Ha as [<-|Ha].
      * apply ltb_asym, E.
      * rewrite Forall_forall in Hy. auto.
    + constructor; [now constructor|].
      constructor; [exact E|].
      rewrite Forall_forall in *. intros a Ha.
      apply key_le_trans with y; [exact E | auto].
Qed.

Lemma sorted_sorted l : StronglySorted (key_le ltb key) (sorted ltb key l).
Proof.
  induction l as [|x l IH]; simpl; [constructor|].
  now apply insert_sorted_sorted.
Qed.

(** Sorting a sorted list changes nothing. *)
Lemma sorted_id l : StronglySorted (key_le ltb key) l -> sorted ltb key l = l.
Proof.
  induction 1 as [|x l Hl IH Hx]; [reflexivity|].
  simpl. rewrite IH. destruct l as [|y l]; [reflexivity|].
  simpl. inversion Hx as [|? ? Hxy _]; subst.
  unfold key_le in Hxy. now rewrite Hxy.
Qed.
End SortedFacts.

(** [sorted] only looks at how the keys of the items compare. *)
Lemma sorted_ext {A K K' : Type} (ltb : K -> K -> bool) (ltb' : K' -> K' -> bool)
    (key : A -> K) (key' : A -> K') (l : list A) :
  (forall a b, In a l -> In b l -> ltb (key a) (key b) = ltb' (key' a) (key' b)) ->
  sorted ltb key l = sorted ltb' key' l.
Proof.
  induction l as [|x l IH]; intros H; [reflexivity|].
  simpl. rewrite <- IH by (intros; apply H; simpl; auto).
  assert (Hin : forall a, In a (sorted ltb key l) -> In a l) by (intros a; apply sorted_In).
  revert Hin. generalize (sorted ltb key l) as s.
  induction s as [|y s IHs]; intros Hin; [reflexivity|].
  simpl. rewrite (H y x) by (simpl; auto using in_eq).
  destruct (ltb' (key' y) (key' x)); [|reflexivity].
  f_equal. apply IHs. intros; apply Hin; simpl; auto.
Qed.

Lemma filter_cons1 {A : Type} (p : A -> bool) (x : A) (l : list A) :
  filter p (x :: l) = if p x then x :: filter p l else filter p l.
Proof. reflexivity. Qed.

Lemma filter_none {A : Type} (p : A -> bool) (l : list A) :
  (forall a, In a l -> p a = false) -> filter p l = [].
Proof.
  induction l as [|x l IH]; intros H; [reflexivity|].
  simpl. rewrite (H x (in_eq _ _)). apply IH. intros; apply H; now right.
Qed.

Section GroupFacts.
Context {A K : Type}.
Variable eqb : K -> K -> bool.
Variable key : A -> K.

Hypothesis eqb_refl : forall x, eqb x x = true.
Hypothesis eqb_sym : forall x y, eqb x y = eqb y x.
Hypothesis eqb_trans : forall x y z, eqb x y = true -> eqb y z = true -> eqb x z = true.

Lemma eqb_congr x y z : eqb x y = true -> eqb x z = eqb y z.
Proof.
  intros H. destruct (eqb y z) eqn:E.
  - eapply eqb_trans; eauto.
  - destruct (eqb x z) eqn:E'; [|reflexivity].
    rewrite <- E. symmetry. apply eqb_trans with x; [|exact E'].
    now rewrite eqb_sym.
Qed.


Lemma groupby_cons x l :
  groupby eqb key (x :: l) =
  match groupby eqb key l with
  | (k, g) :: gs =>
      if eqb (key x) k then (key x, x :: g) :: gs else (key x, [x]) :: (k, g) :: gs
  | [] => [(key x, [x])]
  end.
Proof. reflexivity. Qed.

Lemma groupby_concat l : List.concat (map snd (groupby eqb key l)) = l.
Proof.
  induction l as [|x l IH]; [reflexivity|].
  rewrite groupby_cons. destruct (groupby eqb key l) as [|[k g] gs].
  - simpl in *. now subst.
  - destruct (eqb (key x) k); simpl in *; now rewrite IH.
Qed.

Lemma groupby_ok l : Forall (group_ok eqb key) (groupby eqb key l).
Proof.
  induction l as [|x l IH]; [constructor|].
  rewrite groupby_cons. destruct (groupby eqb key l) as [|[k g] gs].
  - repeat constructor. exists x, []. simpl. repeat split; auto.
  - inversion IH as [|? ? (a & g' & Hg & Hk & Hall) Hgs]; subst. simpl in *.
    destruct (eqb (key x) k) eqn:E; subst k.
    + constructor; [|exact Hgs]. exists x, g. simpl. repeat split.
      constructor; [apply eqb_refl|].
      revert Hall. apply Forall_impl. intros b Hb.
      apply eqb_trans with (key a); [exact Hb|]. now rewrite eqb_sym.
    + constructor; [|constructor; [|exact Hgs]].
      * exists x, []. simpl. repeat split; auto.
      * exists a, g'. simpl. repeat split; auto.
Qed.

Lemma groupby_nil l : groupby eqb key l = [] -> l = [].
Proof. intros H. rewrite <- (groupby_concat l), H. reflexivity. Qed.

(** The label of the first group is the key of the first item. *)
Lemma groupby_head x l :
  exists g gs, groupby eqb key (x :: l) = (key x, x :: g) :: gs.
Proof.
  rewrite groupby_cons. destruct (groupby eqb key l) as [|[k g] gs]; [eauto|].
  destruct (eqb (key x) k); eauto.
Qed.

Lemma groupby_key_In l kg :
  In kg (groupby eqb key l) -> exists a, In a l /\ In a (snd kg) /\ fst kg = key a.
Proof.
  intros Hin. pose proof (groupby_ok l) as Hok.
  rewrite Forall_forall in Hok. destruct (Hok _ Hin) as (a & g & Hg & Hk & _).
  exists a. repeat split; [|rewrite Hg; apply in_eq|exact Hk].
  rewrite <- (groupby_concat l). apply in_concat.
  exists (snd kg). split; [now apply in_map|]. rewrite Hg. apply in_eq.
Qed.

Lemma groupby_In_group l kg a :
  In kg (groupby eqb key l) -> In a (snd kg) -> In a l /\ eqb (key a) (fst kg) = true.
Proof.
  intros Hin Ha. split.
  - rewrite <- (groupby_concat l). apply in_concat.
    exists (snd kg). split; [now apply in_map|exact Ha].
  - pose proof (groupby_ok l) as Hok. rewrite Forall_forall in Hok.
    destruct (Hok _ Hin) as (_ & _ & _ & _ & Hall).
    rewrite Forall_forall in Hall. auto.
Qed.

Lemma groupby_covers l a :
  In a l -> exists kg, In kg (groupby eqb key l) /\ In a (snd kg).
Proof.
  intros Ha. rewrite <- (groupby_concat l) in Ha.
  apply in_concat in Ha as (g & Hg & Ha).
  apply in_map_iff in Hg as (kg & <- & Hkg). eauto.
Qed.

(** ** Groups of a list that was sorted first *)

Context {K1 : Type}.
Variable ltb : K1 -> K1 -> bool.
Variable key1 : A -> K1.
Hypothesis le_trans :
  forall x y z, ltb y x = false -> ltb z y = false -> ltb z x = false.




Lemma sorted_head_differs x l :
  StronglySorted (key_le ltb key1) (x :: l) -> linked eqb key ltb key1 (x :: l) ->
  forall y l', l = y :: l' -> eqb (key x) (key y) = false ->
  forall b, In b l -> eqb (key b) (key x) = false.
Proof.
  intros Hs Hl y l' -> Hxy b Hb.
  destruct (eqb (key b) (key x)) eqn:E; [|reflexivity].
  rewrite <- Hxy. symmetry.
  inversion Hs as [|? ? Hs' Hx]; subst. rewrite Forall_forall in Hx.
  apply Hl; [apply in_eq | right; apply in_eq |].
  apply (Hl b x) in E as [Hbx Hxb]; [|now right|apply in_eq].
  split; [|apply Hx, in_eq].
  (* y <= b <= x *)
  destruct Hb as [<-|Hb]; [exact Hxb|].
  inversion Hs' as [|? ? _ Hy]; subst. rewrite Forall_forall in Hy.
  apply le_trans with (key1 b); [apply Hy, Hb | exact Hxb].
Qed.

Lemma groupby_sorted l :
  StronglySorted (key_le ltb key1) l -> linked eqb key ltb key1 l ->
  Forall (group_is_class eqb key l) (groupby eqb key l) /\ distinct_keys eqb (groupby eqb key l).
Proof.
  induction l as [|x l IH]; intros Hs Hl.
  - split; constructor.
  - assert (Hs' : StronglySorted (key_le ltb key1) l) by (now inversion Hs).
    assert (Hl' : linked eqb key ltb key1 l) by (intros a b Ha Hb; apply Hl; now right).
    destruct (IH Hs' Hl') as [Hc Hd]. clear IH.
    rewrite groupby_cons.
    destruct l as [|y l'].
    { simpl. split; repeat constructor. unfold group_is_class. simpl.
      now rewrite eqb_refl. }
    destruct (groupby_head y l') as (g & gs & Hg). rewrite Hg in *.
    inversion Hc as [|? ? Hcg Hcgs]; subst.
    inversion Hd as [|? ? Hdg Hdgs]; subst.
    unfold group_is_class in Hcg. simpl fst in *. simpl snd in Hcg.
    destruct (eqb (key x) (key y)) eqn:E.
    + (* x joins the first group *)
      assert (Hfresh : forall kg, In kg gs -> eqb (key x) (fst kg) = false).
      { intros kg Hkg. rewrite Forall_forall in Hdg.
        rewrite (eqb_congr (fst kg) E). auto. }
      split.
      * constructor.
        -- unfold group_is_class. simpl fst. simpl snd.
           rewrite filter_cons1, eqb_refl. f_equal.
           rewrite Hcg. apply filter_ext. intros b.
           rewrite (eqb_sym (key b)), (eqb_sym (key b)). symmetry.
           now apply eqb_congr.
        -- rewrite Forall_forall in *. intros kg Hkg.
           unfold group_is_class. rewrite filter_cons1.
           rewrite Hfresh by exact Hkg. now apply Hcgs.
      * constructor; [|exact Hdgs].
        rewrite Forall_forall. intros kg Hkg. simpl. auto.
    + (* x starts a group of its own *)
      pose proof (sorted_head_differs Hs Hl eq_refl E) as Hnone.
      assert (Hfresh : forall kg, In kg ((key y, y :: g) :: gs) ->
                                  eqb (key x) (fst kg) = false).
      { intros kg Hkg. rewrite <- Hg in Hkg.
        apply groupby_key_In in Hkg as (a & Ha & _ & ->).
        rewrite eqb_sym. auto. }
      split.
      * constructor.
        -- unfold group_is_class. simpl fst. simpl snd.
           rewrite filter_cons1, eqb_refl. f_equal.
           symmetry. apply filter_none. exact Hnone.
        -- rewrite Forall_forall. intros kg Hkg.
           unfold group_is_class. rewrite filter_cons1.
           rewrite Hfresh by exact Hkg.
           rewrite Forall_forall in Hc. now apply Hc.
      * constructor; [|exact Hd].
        rewrite Forall_forall. intros kg Hkg. simpl. auto.
Qed.
End GroupFacts.

Section DictFacts.
Context {K V : Type}.
Variable eqb : K -> K -> bool.

Lemma dict_set_fresh k (v : V) d :
  Forall (fun p => eqb (fst p) k = false) d -> dict_set eqb k v d = d ++ [(k, v)].
Proof.
  induction 1 as [|[k' v'] d Hk _ IH]; [reflexivity|].
  simpl in *. now rewrite Hk, IH.
Qed.

Lemma fold_dict_set (items d : list (K * V)) :
  ForallOrdPairs (fun p q => eqb (fst p) (fst q) = false) (d ++ items) ->
  fold_left (fun d kv => dict_set eqb (fst kv) (snd kv) d) items d = d ++ items.
Proof.
  revert d. induction items as [|[k v] items IH]; intros d H; simpl.
  - now rewrite app_nil_r.
  - rewrite dict_set_fresh.
    + rewrite IH; rewrite <- app_assoc; [reflexivity | exact H].
    + clear IH. induction d as [|p d IHd]; [constructor|].
      simpl in H. inversion H as [|? ? Hp Hd]; subst.
      constructor; [|now apply IHd].
      rewrite Forall_forall in Hp. apply (Hp (k, v)).
      apply in_or_app. right. apply in_eq.
Qed.

(** Distinct keys: the dict is the list of its items. *)
Lemma dict_of_distinct (items : list (K * V)) :
  ForallOrdPairs (fun p q => eqb (fst p) (fst q) = false) items ->
  dict_of eqb items = items.
Proof. intros H. unfold dict_of. now rewrite fold_dict_set. Qed.
End DictFacts.

(** ** Order laws of the key types *)

Lemma Zltb_asym x y : (x <? y)%Z = true -> (y <? x)%Z = false.
Proof. rewrite Z.ltb_lt, Z.ltb_ge. lia. Qed.

Lemma Zle_trans x y z : (y <? x)%Z = false -> (z <? y)%Z = false -> (z <? x)%Z = false.
Proof. rewrite !Z.ltb_ge. lia. Qed.

Lemma Zeqb_trans x y z : (x =? y)%Z = true -> (y =? z)%Z = true -> (x =? z)%Z = true.
Proof. rewrite !Z.eqb_eq. congruence. Qed.

Lemma Zkey_linked {A : Type} (key : A -> Z) (l : list A) :
  linked Z.eqb key Z.ltb key l.
Proof. intros a b _ _. rewrite Z.eqb_eq, !Z.ltb_ge. lia. Qed.


Lemma Qltb_lt x y : Qltb x y = true <-> (x < y)%Q.
Proof.
  unfold Qltb. rewrite negb_true_iff, <- not_true_iff_false, Qle_bool_iff.
  split; [apply Qnot_le_lt | apply Qlt_not_le].
Qed.

Lemma Qltb_ge x y : Qltb x y = false <-> (y <= x)%Q.
Proof. unfold Qltb. now rewrite negb_false_iff, Qle_bool_iff. Qed.

Lemma Qltb_asym x y : Qltb x y = true -> Qltb y x = false.
Proof. rewrite Qltb_lt, Qltb_ge. apply Qlt_le_weak. Qed.

Lemma Qle_trans' x y z : Qltb y x = false -> Qltb z y = false -> Qltb z x = false.
Proof. rewrite !Qltb_ge. apply Qle_trans. Qed.

Lemma pairwise_length {A : Type} (a : A) (l : list A) :
  List.length (pairwise (a :: l)) = List.length l.
Proof.
  revert a. induction l as [|b l IH]; intros a; [reflexivity|].
  change (pairwise (a :: b :: l)) with ((a, b) :: pairwise (b :: l)).
  change (S (List.length (pairwise (b :: l))) = S (List.length l)).
  f_equal. apply IH.
Qed.


Lemma pairwise_adjacent {A : Type} (a b : A) (l : list A) :
  In (a, b) (pairwise l) <-> adjacent a b l.
Proof.
  induction l as [|x l IH]; [split; [intros [] | intros ([|? ?] & ? & [=])]|].
  destruct l as [|y l].
  - split; [intros [] | intros ([|? [|? ?]] & ? & [=])].
  - change (pairwise (x :: y :: l)) with ((x, y) :: pairwise (y :: l)).
    split.
    + intros [[= -> ->]|H].
      * exists [], l. reflexivity.
      * apply IH in H as (l1 & l2 & H). exists (x :: l1), l2. now rewrite H.
    + intros ([|z l1] & l2 & H); simpl in H.
      * injection H as -> -> _. apply in_eq.
      * injection H as -> H. right. apply IH. exists l1, l2. exact H.
Qed.

Lemma Forall2_in_l {A B : Type} (R : A -> B -> Prop) (l : list A) (l' : list B) (a : A) :
  Forall2 R l l' -> In a l -> exists b, In b l' /\ R a b.
Proof.
  induction 1 as [|x y l l' Hxy _ IH]; intros Hin; [destruct Hin|].
  destruct Hin as [<-|Hin].
  - exists y. split; [apply in_eq | exact Hxy].
  - destruct (IH Hin) as (b & Hb & Hab). exists b. split; [now right | exact Hab].
Qed.

Lemma Forall2_in_r {A B : Type} (R : A -> B -> Prop) (l : list A) (l' : list B) (b : B) :
  Forall2 R l l' -> In b l' -> exists a, In a l /\ R a b.
Proof.
  induction 1 as [|x y l l' Hxy _ IH]; intros Hin; [destruct Hin|].
  destruct Hin as [<-|Hin].
  - exists x. split; [apply in_eq | exact Hxy].
  - destruct (IH Hin) as (a & Ha & Hab). exists a. split; [now right | exact Hab].
Qed.

Section Continuations.
Context {F : Type} {PF : PyFloat F}.



Lemma continue_from_stitched (lower higher r : Result F) :
  continue_from higher lower = Ok r -> stitched lower higher r.
Proof.
  unfold continue_from.
  destruct higher as [i b l c vs ts f st et mfl mfc cf stg etg [prev|] pid]; simpl;
    [discriminate|].
  intros [= <-]. unfold stitched. simpl. tauto.
Qed.

Lemma continue_from_fresh (lower higher : Result F) :
  fresh higher -> exists r, continue_from higher lower = Ok r.
Proof. unfold fresh, continue_from. intros ->. simpl. eauto. Qed.

Lemma stitched_unique (lower higher r r' : Result F) :
  stitched lower higher r -> stitched lower higher r' -> r = r'.
Proof.
  unfold stitched. destruct r, r'; simpl.
  intros (H1 & H2 & H3 & H4 & H5 & H6 & H7 & H8 & H9 & H10 & H11 & H12 & H13
          & H14 & H15 & H16)
         (G1 & G2 & G3 & G4 & G5 & G6 & G7 & G8 & G9 & G10 & G11 & G12 & G13
          & G14 & G15 & G16).
  subst. reflexivity.
Qed.

Lemma continue_group_spec (g out : list (Result F)) :
  continue_group g = Ok out <->
  exists first rest continued,
    g = first :: rest /\ out = first :: continued /\
    Forall2 (fun p c => continue_from (snd p) (fst p) = Ok c) (pairwise g) continued.
Proof.
  unfold continue_group. destruct g as [|first rest].
  - split; [discriminate | intros (? & ? & ? & [=] & _)].
  - destruct rest as [|second rest].
    + simpl. split.
      * intros [= <-]. exists first, [], []. repeat split. constructor.
      * intros (? & ? & c & [= <- <-] & -> & H). inversion H. reflexivity.
    + change (List.length (first :: second :: rest) =? 1)%nat with false.
      cbv iota. split.
      * intros H. apply bind_Ok_inv in H as (c & Hc & [= <-]).
        exists first, (second :: rest), c. repeat split.
        now apply mapM_Forall2.
      * intros (? & ? & c & [= <- <-] & -> & H).
        apply Forall2_mapM in H. rewrite H. reflexivity.
Qed.

Lemma continue_group_length (g out : list (Result F)) :
  continue_group g = Ok out -> List.length out = List.length g.
Proof.
  intros H. apply continue_group_spec in H as (first & rest & c & -> & -> & H).
  apply Forall2_length in H. rewrite pairwise_length in H. simpl. now rewrite H.
Qed.

Lemma continue_group_total (g : list (Result F)) :
  g <> [] -> Forall fresh g -> exists out, continue_group g = Ok out.
Proof.
  intros Hne Hf. destruct g as [|first rest]; [congruence|].
  destruct (@mapM_total _ _ (fun p => continue_from (snd p) (fst p))
              (pairwise (first :: rest))) as [c Hc].
  - rewrite Forall_forall. intros [lo hi] Hin. simpl.
    apply continue_from_fresh.
    apply pairwise_adjacent in Hin as (l1 & l2 & Hl).
    rewrite Forall_forall in Hf. apply Hf. rewrite Hl.
    apply in_or_app. right. right. apply in_eq.
  - exists (first :: c). apply continue_group_spec.
    exists first, rest, c. repeat split. now apply mapM_Forall2.
Qed.

Lemma continue_group_In (g out : list (Result F)) r :
  continue_group g = Ok out ->
  (In r out <->
   (exists rest, g = r :: rest) \/
   (exists lower higher, adjacent lower higher g /\ stitched lower higher r)).
Proof.
  intros H. apply continue_group_spec in H as (first & rest & c & -> & -> & H).
  split.
  - intros [<-|Hr]; [left; eauto|]. right.
    destruct (Forall2_in_r _ H Hr) as ([lo hi] & Hin & Hc). simpl in Hc.
    exists lo, hi. split; [now apply pairwise_adjacent | now apply continue_from_stitched].
  - intros [(rest' & [= -> ->])|(lo & hi & Hadj & Hst)]; [apply in_eq|].
    right. apply pairwise_adjacent in Hadj.
    destruct (Forall2_in_l _ H Hadj) as (c0 & Hin & Hc). simpl in Hc.
    apply continue_from_stitched in Hc.
    now rewrite (stitched_unique Hst Hc).
Qed.


Lemma id_groups_distinct (l : list (Result F)) :
  Forall (group_is_class Z.eqb (@id F) (sorted Z.ltb (@id F) l))
         (groupby Z.eqb (@id F) (sorted Z.ltb (@id F) l)) /\
  distinct_keys Z.eqb (groupby Z.eqb (@id F) (sorted Z.ltb (@id F) l)).
Proof.
  apply groupby_sorted with (ltb := Z.ltb) (key1 := @id F).
  - apply Z.eqb_refl.
  - apply Z.eqb_sym.
  - apply Zeqb_trans.
  - apply Zle_trans.
  - apply sorted_sorted; [apply Zltb_asym | apply Zle_trans].
  - apply Zkey_linked.
Qed.

Lemma with_continuations_eq (t : Trace F) :
  with_continuations t =
  (per_config <- mapM continue_group (config_groups (results t)) ;;
   assert! (List.length (sorted Z.ltb (@id F) (results t))
              =? List.length (List.concat per_config))%nat
     else CountMismatch ;;
   Ok (mkTrace (sorted fltb (@end_time F) (List.concat per_config)))).
Proof.
  unfold with_continuations, config_groups.
  rewrite dict_of_distinct.
  - unfold dict_values. rewrite map_map. reflexivity.
  - destruct (id_groups_distinct (results t)) as [_ Hd].
    unfold distinct_keys in Hd.
    induction Hd as [|kg gs Hkg _ IH]; simpl; constructor; [|exact IH].
    rewrite Forall_forall in *. intros q Hq.
    apply in_map_iff in Hq as (q' & <- & Hq'). simpl. auto.
Qed.

Lemma config_groups_In (l : list (Result F)) (g : list (Result F)) :
  In g (config_groups l) <-> exists i, g = config_group i l /\ g <> [].
Proof.
  destruct (id_groups_distinct l) as [Hc _]. rewrite Forall_forall in Hc.
  assert (Hstable : forall i, filter (fun r => (id r =? i)%Z) (sorted Z.ltb (@id F) l)
                              = filter (fun r => (id r =? i)%Z) l).
  { intros i. apply sorted_filter. intros a b _ _ Ha Hb.
    apply Z.eqb_eq in Ha, Hb. rewrite Z.ltb_ge. lia. }
  unfold config_groups. rewrite in_map_iff. split.
  - intros (kg & <- & Hin). exists (fst kg).
    pose proof (Hc _ Hin) as Hcl. unfold group_is_class in Hcl.
    unfold config_group. rewrite <- Hstable, <- Hcl. split; [reflexivity|].
    pose proof (groupby_ok Z.eqb (@id F) Z.eqb_refl Z.eqb_sym Zeqb_trans
                  (sorted Z.ltb (@id F) l)) as Hok.
    rewrite Forall_forall in Hok. destruct (Hok _ Hin) as (a & g' & Hg & _).
    rewrite Hg. intros Hnil.
    apply (f_equal (@List.length _)) in Hnil. rewrite sorted_length in Hnil.
    discriminate.
  - intros (i & -> & Hne). unfold config_group in *.
    destruct (filter (fun r => (id r =? i)%Z) l) as [|a rest] eqn:Ef;
      [now contradiction Hne|].
    assert (Ha : In a l /\ (id a =? i)%Z = true).
    { apply (proj1 (filter_In (fun r => (id r =? i)%Z) a l)). rewrite Ef. apply in_eq. }
    destruct Ha as [Ha Hi]. apply Z.eqb_eq in Hi.
    apply (proj2 (sorted_In Z.ltb (@id F) a l)) in Ha.
    apply (groupby_covers Z.eqb (@id F)) in Ha as (kg & Hin & Hag).
    exists kg. split; [|exact Hin].
    pose proof (Hc _ Hin) as Hcl. unfold group_is_class in Hcl.
    destruct (groupby_In_group Z.eqb (@id F) Z.eqb_refl Z.eqb_sym Zeqb_trans
                _ _ _ Hin Hag) as [_ Hk].
    apply Z.eqb_eq in Hk. rewrite Hcl, <- Hk, Hi, Hstable, Ef. reflexivity.
Qed.

Lemma stitch_length (gs outs : list (list (Result F))) :
  Forall2 (fun g out => continue_group g = Ok out) gs outs ->
  List.length (List.concat outs) = List.length (List.concat gs).
Proof.
  induction 1 as [|g out gs outs Hg _ IH]; [reflexivity|].
  simpl. rewrite !length_app, IH. f_equal. now apply continue_group_length.
Qed.

Lemma config_groups_length (l : list (Result F)) :
  List.length (List.concat (config_groups l)) = List.length l.
Proof.
  unfold config_groups.
  transitivity (List.length (sorted Z.ltb (@id F) l)); [|apply sorted_length].
  transitivity
    (List.length
       (List.concat (map snd (groupby Z.eqb (@id F) (sorted Z.ltb (@id F) l)))));
    [|now rewrite groupby_concat].
  generalize (groupby Z.eqb (@id F) (sorted Z.ltb (@id F) l)) as gs.
  induction gs as [|kg gs IH]; [reflexivity|].
  simpl. rewrite !length_app, IH, sorted_length. reflexivity.
Qed.

(** The count assertion of [with_continuations] never fails: stitching
    returns as soon as no [continue_from] raises. *)
Lemma with_continuations_Ok (t : Trace F) :
  forall t', with_continuations t = Ok t' <->
    exists per_config,
      Forall2 (fun g out => continue_group g = Ok out)
              (config_groups (results t)) per_config /\
      t' = mkTrace (sorted fltb (@end_time F) (List.concat per_config)).
Proof.
  intros t'. rewrite with_continuations_eq. split.
  - intros H. apply bind_Ok_inv in H as (pc & Hpc & H).
    destruct (_ =? _)%nat; [|discriminate]. injection H as <-.
    exists pc. split; [now apply mapM_Forall2 | reflexivity].
  - intros (pc & Hpc & ->).
    rewrite (Forall2_mapM _ Hpc). simpl bind.
    rewrite (stitch_length Hpc), config_groups_length, sorted_length.
    now rewrite Nat.eqb_refl.
Qed.

Lemma with_continuations_total (t : Trace F) :
  Forall fresh (results t) -> exists t', with_continuations t = Ok t'.
Proof.
  intros Hf.
  destruct (@mapM_total _ _ (@continue_group F PF) (config_groups (results t)))
    as [pc Hpc].
  - rewrite Forall_forall. intros g Hg.
    apply config_groups_In in Hg as (i & -> & Hne).
    apply continue_group_total; [exact Hne|].
    rewrite Forall_forall in *. intros r Hr.
    apply sorted_In, filter_In in Hr as [Hr _]. auto.
  - eexists. apply with_continuations_Ok. exists pc.
    split; [now apply mapM_Forall2 | reflexivity].
Qed.

Lemma with_continuations_length (t t' : Trace F) :
  with_continuations t = Ok t' ->
  List.length (results t') = List.length (results t).
Proof.
  intros H. apply with_continuations_Ok in H as (pc & Hpc & ->). simpl.
  now rewrite sorted_length, (stitch_length Hpc), config_groups_length.
Qed.

Lemma with_continuations_In (t t' : Trace F) (r : Result F) :
  with_continuations t = Ok t' ->
  (In r (results t') <->
   (exists i rest, config_group i (results t) = r :: rest) \/
   (exists i lower higher,
       adjacent lower higher (config_group i (results t)) /\
       stitched lower higher r)).
Proof.
  intros H. apply with_continuations_Ok in H as (pc & Hpc & ->). simpl.
  rewrite sorted_In, in_concat.
  split.
  - intros (out & Hout & Hr).
    destruct (Forall2_in_r _ Hpc Hout) as (g & Hg & Hgo).
    apply config_groups_In in Hg as (i & -> & _).
    apply continue_group_In with (r := r) in Hgo. apply Hgo in Hr.
    destruct Hr as [(rest & Hr)|(lo & hi & Ha & Hs)]; [left|right]; eauto.
  - intros Hr.
    assert (exists i, config_group i (results t) <> [] /\
              ((exists rest, config_group i (results t) = r :: rest) \/
               (exists lower higher,
                   adjacent lower higher (config_group i (results t)) /\
                   stitched lower higher r))) as (i & Hne & Hcase).
    { destruct Hr as [(i & rest & Hr)|(i & lo & hi & Ha & Hs)]; exists i.
      - split; [rewrite Hr; discriminate | left; eauto].
      - split; [|right; eauto].
        destruct Ha as (l1 & l2 & ->). now destruct l1. }
    assert (Hg : In (config_group i (results t)) (config_groups (results t))).
    { apply config_groups_In. eauto. }
    destruct (Forall2_in_l _ Hpc Hg) as (out & Hout & Hgo).
    exists out. split; [exact Hout|].
    apply continue_group_In with (r := r) in Hgo. now apply Hgo.
Qed.
End Continuations.

Lemma StronglySorted_weaken {A : Type} (R R' : A -> A -> Prop) (l : list A) :
  (forall a b, R a b -> R' a b) -> StronglySorted R l -> StronglySorted R' l.
Proof.
  intros HR. induction 1 as [|a l _ IH Ha]; constructor; [exact IH|].
  revert Ha. apply Forall_impl. exact (HR a).
Qed.

Lemma sorted_by_end_time (l : list (Result Q)) :
  StronglySorted (fun a b => (end_time a <= end_time b)%Q)
                 (sorted fltb (@end_time Q) l).
Proof.
  apply StronglySorted_weaken with (R := key_le Qltb (@end_time Q)).
  - intros a b. unfold key_le. apply Qltb_ge.
  - apply (sorted_sorted Qltb (@end_time Q) Qltb_asym Qle_trans').
Qed.

(** ** Continuation stitching *)

(** C1: stitching returns on every trace without earlier continuations,
    and whenever it returns the output has exactly as many records as the
    input and is sorted by end time, ascending. *)
Theorem with_continuations_preserves_count (t : Trace Q) :
  (Forall fresh (results t) -> exists t', with_continuations t = Ok t') /\
  (forall t', with_continuations t = Ok t' ->
     List.length (results t') = List.length (results t) /\
     StronglySorted (fun a b => (end_time a <= end_time b)%Q) (results t')).
Proof.
  split; [apply with_continuations_total|].
  intros t' H. split; [now apply with_continuations_length|].
  apply with_continuations_Ok in H as (pc & _ & ->). apply sorted_by_end_time.
Qed.

Lemma with_continuations_preserves_count_witness :
  exists t', with_continuations scenario_A = Ok t' /\
             List.length (results t') = 3%nat.
Proof.
  destruct (with_continuations_preserves_count scenario_A) as [Htotal Hcount].
  destruct Htotal as [t' Ht'].
  - repeat constructor.
  - exists t'. split; [exact Ht'|]. exact (proj1 (Hcount t' Ht')).
Defined.

(** C2: stitching keeps the lowest-bracket record of every configuration
    and, for every two neighbours (lower, higher) of a configuration's
    records in bracket order, yields the record that has the fidelity and
    cost of higher minus those of lower, continues from lower, and agrees
    with higher on all other fields; it yields nothing else.  Fidelities
    1, 3, 5 at brackets 0, 1, 2 become 1, 2, 2. *)
Theorem with_continuations_stitches :
  (forall (F : Type) (PF : PyFloat F) (t : Trace F),
      (Forall fresh (results t) -> exists t', with_continuations t = Ok t') /\
      (forall t', with_continuations t = Ok t' ->
         forall r, In r (results t') <->
           (exists i rest, config_group i (results t) = r :: rest) \/
           (exists i lower higher,
               adjacent lower higher (config_group i (results t)) /\
               stitched lower higher r))) /\
  (exists t', with_continuations scenario_A = Ok t' /\
              map (fun r => (bracket r, fidelity r)) (results t')
              = [(Some 0, 1); (Some 1, 2); (Some 2, 2)]%Z).
Proof.
  split.
  - intros F PF t. split; [apply with_continuations_total|].
    intros t' H r. now apply with_continuations_In.
  - eexists. split; reflexivity.
Qed.

Lemma with_continuations_stitches_witness :
  exists t', with_continuations scenario_A = Ok t' /\
    forall r, In r (results t') ->
      (exists i rest, config_group i (results scenario_A) = r :: rest) \/
      (exists i lower higher,
          adjacent lower higher (config_group i (results scenario_A)) /\
          stitched lower higher r).
Proof.
  destruct (proj1 with_continuations_stitches Q Q_float scenario_A) as [Htotal Hin].
  destruct Htotal as [t' Ht'].
  - repeat constructor.
  - exists t'. split; [exact Ht'|]. intros r Hr. exact (proj1 (Hin t' Ht' r) Hr).
Defined.


(** ** Cumulative fidelity, one worker *)

Lemma accumulate_from_nth (l : list Z) (total : Z) (i : nat) :
  (i < List.length l)%nat ->
  nth_error (accumulate_from total l) i
  = Some (total + fold_right Z.add 0 (firstn (S i) l))%Z.
Proof.
  revert total i. induction l as [|x l IH]; intros total i Hi; simpl in Hi; [lia|].
  destruct i as [|i]; simpl.
  - f_equal. lia.
  - rewrite IH by lia. f_equal. simpl. lia.
Qed.

Lemma accumulate_nth (l : list Z) (i : nat) :
  (i < List.length l)%nat ->
  nth_error (accumulate l) i = Some (fold_right Z.add 0 (firstn (S i) l))%Z.
Proof.
  destruct l as [|x l]; simpl; intros Hi; [lia|].
  destruct i as [|i]; simpl.
  - f_equal. lia.
  - rewrite accumulate_from_nth by lia. reflexivity.
Qed.

Lemma accumulate_length (l : list Z) : List.length (accumulate l) = List.length l.
Proof.
  destruct l as [|x l]; [reflexivity|]. simpl. f_equal.
  generalize x. induction l as [|y l IH]; intros z; simpl; [|rewrite IH]; reflexivity.
Qed.

Lemma nth_error_combine {A B : Type} (l : list A) (l' : list B) i a b :
  nth_error l i = Some a -> nth_error l' i = Some b ->
  nth_error (combine l l') i = Some (a, b).
Proof.
  revert l' i. induction l as [|x l IH]; intros [|y l'] [|i]; simpl; try discriminate.
  - now intros [= ->] [= ->].
  - apply IH.
Qed.

Lemma cumulate_length {F : Type} {PF : PyFloat F} (rs : list (Result F)) :
  List.length (cumulate rs) = List.length rs.
Proof.
  unfold cumulate, zip.
  rewrite length_map, length_combine, accumulate_length, length_map, Nat.min_id.
  apply sorted_length.
Qed.

Lemma cumulate_nth {F : Type} {PF : PyFloat F} (rs : list (Result F)) i r :
  nth_error (sorted fltb (@end_time F) rs) i = Some r ->
  nth_error (cumulate rs) i
  = Some (mutate r [CumulatedFidelity
                      (Some (of_int (fidelity_total
                                       (firstn (S i) (sorted fltb (@end_time F) rs)))))]).
Proof.
  intros Hr. unfold cumulate, zip.
  set (s := sorted fltb (@end_time F) rs) in *.
  assert (Hi : (i < List.length s)%nat) by (apply nth_error_Some; congruence).
  assert (Hacc : nth_error (accumulate (map (@fidelity F) s)) i
                 = Some (fold_right Z.add 0%Z (firstn (S i) (map (@fidelity F) s)))).
  { apply accumulate_nth. now rewrite length_map. }
  rewrite nth_error_map, (nth_error_combine _ _ _ Hr Hacc).
  unfold fidelity_total. rewrite firstn_map. reflexivity.
Qed.

Lemma all_equal_same {A : Type} (eqb : A -> A -> bool) (l : list A) :
  (forall x, eqb x x = true) ->
  (forall x y, In x l -> In y l -> x = y) -> all_equal eqb l = true.
Proof.
  intros Hrefl H. destruct l as [|x l]; [reflexivity|]. simpl.
  apply forallb_forall. intros y Hy.
  rewrite <- (H x y); [apply Hrefl | apply in_eq | now right].
Qed.

Lemma option_Z_eqb_refl (x : option Z) : option_eqb Z.eqb x x = true.
Proof. destruct x; simpl; [apply Z.eqb_refl | reflexivity]. Qed.

(** C3: with no worker count or a count of one, on a trace whose records
    all carry the same worker identifier (or none), cumulative fidelity
    returns the records in ascending end-time order, each with
    cumulated_fidelity set to the total fidelity of the records up to and
    including it in that order; fidelities 1, 1, 3, 1, 9 give 1, 2, 5, 6, 15. *)
Theorem single_worker_cumulative_fidelity :
  (forall (n_workers : option Z) (yaxis : string) (t : Trace Q),
      n_workers = None \/ n_workers = Some 1%Z ->
      (forall r r', In r (results t) -> In r' (results t) ->
                    process_id r = process_id r') ->
      exists s t',
        Permutation s (results t) /\
        StronglySorted (fun a b => (end_time a <= end_time b)%Q) s /\
        with_cumulative_fidelity n_workers yaxis t = Ok t' /\
        List.length (results t') = List.length s /\
        forall i r, nth_error s i = Some r ->
          nth_error (results t') i
          = Some (mutate r [CumulatedFidelity
                              (Some (inject_Z (fidelity_total (firstn (S i) s))))])) /\
  (exists t', with_cumulative_fidelity None "loss" scenario_B = Ok t' /\
              map (@fidelity Q) (results scenario_B) = [1; 1; 3; 1; 9]%Z /\
              map (@cumulated_fidelity Q) (results t')
              = map (fun z => Some (inject_Z z)) [1; 2; 5; 6; 15]%Z).
Proof.
  split.
  - intros n_workers yaxis t Hn Hpid.
    exists (sorted fltb (@end_time Q) (results t)), (mkTrace (cumulate (results t))).
    split; [apply sorted_perm|].
    split; [apply sorted_by_end_time|].
    split.
    + unfold with_cumulative_fidelity.
      assert (Hsingle : match n_workers with None => true | Some n => (n =? 1)%Z end = true)
        by (destruct Hn as [->| ->]; reflexivity).
      rewrite Hsingle.
      rewrite all_equal_same; [reflexivity | apply option_Z_eqb_refl |].
      intros x y Hx Hy.
      apply in_map_iff in Hx as (r & <- & Hr).
      apply in_map_iff in Hy as (r' & <- & Hr'). now apply Hpid.
    + split.
      * simpl. now rewrite cumulate_length, sorted_length.
      * intros i r Hr. exact (cumulate_nth (results t) i Hr).
  - eexists. repeat split; reflexivity.
Qed.

Lemma single_worker_cumulative_fidelity_witness :
  exists s t',
    Permutation s (results scenario_B) /\
    with_cumulative_fidelity (Some 1%Z) "loss" scenario_B = Ok t' /\
    List.length (results t') = List.length s.
Proof.
  destruct (proj1 single_worker_cumulative_fidelity (Some 1%Z) "loss"%string scenario_B)
    as (s & t' & Hperm & _ & Hok & Hlen & _).
  - right. reflexivity.
  - intros r r' Hr Hr'. simpl in Hr, Hr'.
    repeat (destruct Hr as [<-|Hr]; [repeat (destruct Hr' as [<-|Hr']; [reflexivity|]); destruct Hr' |]).
    destruct Hr.
  - exists s, t'. repeat split; assumption.
Defined.


(** ** Incumbent extraction *)

Lemma sorted_small {A K : Type} (ltb : K -> K -> bool) (key : A -> K) (l : list A) :
  (List.length l <= 1)%nat -> sorted ltb key l = l.
Proof. destruct l as [|x [|y l]]; simpl; intros H; try reflexivity; lia. Qed.

(** When [sorted] with optional keys returns, it returns the stable sort,
    and no comparison involved [None]. *)
Lemma sorted_opt_Ok {F : Type} {PF : PyFloat F} {A : Type}
    (key : A -> option F) (l s : list A) :
  sorted_opt key l = Ok s <->
  s = sorted olt key l /\
  ((List.length l <= 1)%nat \/ Forall (fun a => is_some (key a) = true) l).
Proof.
  unfold sorted_opt. destruct l as [|x [|y l]].
  - simpl. split; [intros [= <-]; split; [reflexivity | left; lia] | now intros [-> _]].
  - simpl. split; [intros [= <-]; split; [reflexivity | left; lia] | now intros [-> _]].
  - destruct (forallb _ (x :: y :: l)) eqn:E.
    + split; [intros [= <-]; split; [reflexivity|right] | now intros [-> _]].
      rewrite Forall_forall. intros a Ha.
      rewrite forallb_forall in E. auto.
    + split; [discriminate|]. intros [_ [H|H]]; [simpl in H; lia|].
      rewrite Forall_forall in H.
      assert (E' : forallb (fun a => is_some (key a)) (x :: y :: l) = true)
        by (apply forallb_forall; exact H).
      congruence.
Qed.

Lemma sorted_opt_raises {F : Type} {PF : PyFloat F} {A : Type}
    (key : A -> option F) (l : list A) :
  (2 <= List.length l)%nat -> ~ Forall (fun a => is_some (key a) = true) l ->
  sorted_opt key l = Raise TypeError.
Proof.
  intros Hlen Hnot. unfold sorted_opt. destruct l as [|x [|y l]]; simpl in Hlen; try lia.
  destruct (forallb _ (x :: y :: l)) eqn:E; [|reflexivity].
  exfalso. apply Hnot. rewrite Forall_forall. intros a Ha.
  rewrite forallb_forall in E. auto.
Qed.

Lemma incumbents_after_subseq {F : Type} {PF : PyFloat F} (rs : list (Result F)) :
  forall incumbent, subseq (incumbents_after incumbent rs) rs.
Proof.
  induction rs as [|r rs IH]; intros inc; simpl; [constructor|].
  destruct (fltb (loss r) (loss inc)); constructor; apply IH.
Qed.

Lemma incumbents_after_decreasing (rs : list (Result Q)) :
  forall incumbent,
    Forall (fun r => (loss r < loss incumbent)%Q) (incumbents_after incumbent rs) /\
    StronglySorted (fun a b => (loss b < loss a)%Q) (incumbents_after incumbent rs).
Proof.
  induction rs as [|r rs IH]; intros inc; simpl; [split; constructor|].
  destruct (negb (Qle_bool (loss inc) (loss r))) eqn:E; [|apply IH].
  apply Qltb_lt in E. destruct (IH r) as [Hall Hsorted].
  split; constructor; auto.
  revert Hall. apply Forall_impl. intros a Ha. now apply Qlt_trans with (loss r).
Qed.

(** The running incumbent is the best record seen so far, so improving on
    it is improving on every record seen so far. *)
Lemma incumbents_after_improvers (rs : list (Result Q)) :
  forall incumbent seen,
    (forall x, Qltb x (loss incumbent) = forallb (fun a => Qltb x (loss a)) seen) ->
    incumbents_after incumbent rs = improvers seen rs.
Proof.
  induction rs as [|r rs IH]; intros inc seen Hinv; [reflexivity|].
  simpl. change (negb (Qle_bool (loss inc) (loss r))) with (Qltb (loss r) (loss inc)).
  change (forallb (fun a => negb (Qle_bool (loss a) (loss r))) seen)
    with (forallb (fun a => Qltb (loss r) (loss a)) seen).
  rewrite <- Hinv. destruct (Qltb (loss r) (loss inc)) eqn:E.
  - f_equal. apply IH. intros x. rewrite forallb_app, <- Hinv. simpl.
    rewrite andb_true_r. destruct (Qltb x (loss r)) eqn:Ex; [|now rewrite andb_false_r].
    rewrite andb_true_r. symmetry. apply Qltb_lt. apply Qltb_lt in E, Ex.
    now apply Qlt_trans with (loss r).
  - apply IH. intros x. rewrite forallb_app, <- Hinv. simpl.
    rewrite andb_true_r. destruct (Qltb x (loss inc)) eqn:Ex; [|reflexivity].
    simpl. symmetry. apply Qltb_lt. apply Qltb_lt in Ex. apply Qltb_ge in E.
    now apply Qlt_le_trans with (loss inc).
Qed.

Lemma sorted_by_axis (xaxis : attr) (l : list (Result Q)) :
  (List.length l <= 1)%nat \/ populated xaxis l ->
  StronglySorted (axis_le xaxis) (sorted olt (getattr xaxis) l).
Proof.
  intros [Hlen|Hpop].
  - rewrite sorted_small by exact Hlen.
    destruct l as [|x [|y l]]; simpl in Hlen; try lia; repeat constructor.
  - set (key' := fun r : Result Q =>
                   match getattr xaxis r with Some v => v | None => 0%Q end).
    rewrite (sorted_ext olt Qltb (getattr xaxis) key').
    + apply StronglySorted_weaken with (R := key_le Qltb key').
      * intros a b Hab x y Hx Hy. unfold key_le, key' in Hab.
        rewrite Hx, Hy in Hab. now apply Qltb_ge.
      * apply (sorted_sorted Qltb key' Qltb_asym Qle_trans').
    + unfold populated in Hpop. rewrite Forall_forall in Hpop.
      intros a b Ha Hb. unfold key'.
      pose proof (Hpop a Ha) as Ea. pose proof (Hpop b Hb) as Eb.
      destruct (getattr xaxis a), (getattr xaxis b); try discriminate. reflexivity.
Qed.

Lemma incumbent_trace_Ok {F : Type} {PF : PyFloat F} (xaxis : attr) (t t' : Trace F) :
  incumbent_trace xaxis "loss" t = Ok t' <->
  exists incumbent rest,
    sorted olt (getattr xaxis) (results t) = incumbent :: rest /\
    ((List.length (results t) <= 1)%nat \/ populated xaxis (results t)) /\
    t' = mkTrace (incumbent :: incumbents_after incumbent rest).
Proof.
  unfold incumbent_trace. simpl negb. cbv iota. split.
  - intros H. apply bind_Ok_inv in H as (s & Hs & H).
    apply sorted_opt_Ok in Hs as [-> Hcase].
    destruct (sorted olt (getattr xaxis) (results t)) as [|inc rest]; [discriminate|].
    injection H as <-. exists inc, rest. repeat split. exact Hcase.
  - intros (inc & rest & Hs & Hcase & ->).
    assert (Ho : sorted_opt (getattr xaxis) (results t)
                 = Ok (sorted olt (getattr xaxis) (results t)))
      by (apply sorted_opt_Ok; split; [reflexivity | exact Hcase]).
    rewrite Ho. simpl. rewrite Hs. reflexivity.
Qed.

(** C4, amended: on a non-empty trace whose records all carry the axis,
    incumbent extraction over the loss returns; and whenever it returns, the
    output is a subsequence of the records in ascending axis order that
    starts with the first of them, has strictly decreasing losses, and
    consists exactly of the records that are strictly better than every
    record before them.  On a trace of two or more records one of which
    lacks the axis it raises a type error. *)
Theorem incumbent_trace_spec (xaxis : attr) (t : Trace Q) :
  (results t <> [] -> populated xaxis (results t) ->
   exists t', incumbent_trace xaxis "loss" t = Ok t') /\
  (forall t', incumbent_trace xaxis "loss" t = Ok t' ->
     exists s,
       Permutation s (results t) /\
       StronglySorted (axis_le xaxis) s /\
       subseq (results t') s /\
       results t' <> [] /\
       hd_error (results t') = hd_error s /\
       StronglySorted (fun a b => (loss b < loss a)%Q) (results t') /\
       results t' = improvers [] s) /\
  ((2 <= List.length (results t))%nat -> ~ populated xaxis (results t) ->
   incumbent_trace xaxis "loss" t = Raise TypeError).
Proof.
  split; [|split].
  - intros Hne Hpop.
    destruct (sorted olt (getattr xaxis) (results t)) as [|inc rest] eqn:Es.
    + exfalso. apply Hne. apply length_zero_iff_nil.
      rewrite <- (sorted_length olt (getattr xaxis)), Es. reflexivity.
    + exists (mkTrace (inc :: incumbents_after inc rest)).
      apply incumbent_trace_Ok. exists inc, rest.
      split; [exact Es|]. split; [now right | reflexivity].
  - intros t' H. apply incumbent_trace_Ok in H as (inc & rest & Hs & Hcase & ->).
    exists (inc :: rest). simpl results.
    split; [rewrite <- Hs; apply sorted_perm|].
    split; [rewrite <- Hs; now apply sorted_by_axis|].
    split; [constructor; apply incumbents_after_subseq|].
    split; [discriminate|].
    split; [reflexivity|].
    destruct (incumbents_after_decreasing rest inc) as [Hall Hsorted].
    split; [now constructor|].
    simpl. f_equal. apply incumbents_after_improvers.
    intros x. simpl. now rewrite andb_true_r.
  - intros Hlen Hpop. unfold incumbent_trace. simpl negb. cbv iota.
    now rewrite (@sorted_opt_raises _ _ _ (getattr xaxis) (results t) Hlen Hpop).
Qed.

Lemma incumbent_trace_spec_witness :
  (exists t', incumbent_trace ax_end_time "loss" scenario_A = Ok t' /\
              results t' <> []) /\
  incumbent_trace ax_cumulated_fidelity "loss" scenario_A = Raise TypeError.
Proof.
  destruct (incumbent_trace_spec ax_end_time scenario_A) as (Htotal & Hspec & _).
  destruct (incumbent_trace_spec ax_cumulated_fidelity scenario_A) as (_ & _ & Hfail).
  split.
  - destruct Htotal as [t' Ht'].
    + discriminate.
    + repeat constructor.
    + exists t'. split; [exact Ht'|].
      destruct (Hspec t' Ht') as (s & _ & _ & _ & Hne & _). exact Hne.
  - apply Hfail.
    + simpl. lia.
    + intros Hpop. inversion Hpop as [|? ? Hr _]. discriminate Hr.
Defined.

(** C4 as stated fails: scenario A is not empty, its records carry no time
    since a global start, and extraction along that axis does not return. *)
Lemma incumbent_trace_missing_axis :
  ~ (results scenario_A <> [] ->
     exists t', incumbent_trace ax_end_time_since_global_start "loss" scenario_A = Ok t').
Proof.
  intros H. destruct H as (t' & Ht'); [discriminate|].
  vm_compute in Ht'. discriminate.
Qed.


Lemma in_range_excludes_all {F : Type} {PF : PyFloat F}
    (low high : F) (xaxis : attr) (rs : list (Result F)) :
  populated xaxis rs ->
  Forall (fun r => forall v, getattr xaxis r = Some v ->
                             fleb low v && fleb v high = false) rs ->
  filterM (fun result => between low high (getattr xaxis result)) rs = Ok [].
Proof.
  induction 1 as [|r rs Hr _ IH]; intros Hout; [reflexivity|].
  inversion Hout as [|? ? Hv Hrest]; subst. simpl.
  destruct (getattr xaxis r) as [v|] eqn:Ev; [|discriminate].
  simpl. rewrite (Hv v eq_refl), (IH Hrest). reflexivity.
Qed.

(** C10, amended: incumbent extraction over the loss returns exactly on the
    traces that are not empty and either hold a single record or hold only
    records that carry the axis; its output is then not empty.  On an empty
    trace it fails with an index error, and a range filter that excludes
    every record produces such an empty trace. *)
Theorem incumbent_trace_preconditions
    (F : Type) (PF : PyFloat F) (xaxis : attr) (t : Trace F) :
  ((exists t', incumbent_trace xaxis "loss" t = Ok t') <->
   results t <> [] /\
   (List.length (results t) = 1%nat \/ populated xaxis (results t))) /\
  (forall t', incumbent_trace xaxis "loss" t = Ok t' -> results t' <> []) /\
  (results t = [] -> incumbent_trace xaxis "loss" t = Raise IndexError) /\
  (forall low high,
      populated xaxis (results t) ->
      Forall (fun r => forall v, getattr xaxis r = Some v ->
                                 fleb low v && fleb v high = false) (results t) ->
      exists empty,
        in_range (low, high) xaxis t = Ok empty /\
        results empty = [] /\
        incumbent_trace xaxis "loss" empty = Raise IndexError).
Proof.
  split; [|split; [|split]].
  - split.
    + intros (t' & H). apply incumbent_trace_Ok in H as (inc & rest & Hs & Hcase & _).
      assert (Hlen : List.length (results t) = S (List.length rest)).
      { rewrite <- (sorted_length olt (getattr xaxis)), Hs. reflexivity. }
      split; [intros E; rewrite E in Hlen; discriminate|].
      destruct Hcase as [Hle|Hpop]; [left; lia | now right].
    + intros (Hne & Hcase).
      destruct (sorted olt (getattr xaxis) (results t)) as [|inc rest] eqn:Es.
      * exfalso. apply Hne. apply length_zero_iff_nil.
        rewrite <- (sorted_length olt (getattr xaxis)), Es. reflexivity.
      * exists (mkTrace (inc :: incumbents_after inc rest)).
        apply incumbent_trace_Ok. exists inc, rest.
        split; [exact Es|]. split; [|reflexivity].
        destruct Hcase as [Hlen|Hpop]; [left; lia | now right].
  - intros t' H. apply incumbent_trace_Ok in H as (inc & rest & _ & _ & ->).
    discriminate.
  - intros E. unfold incumbent_trace. rewrite E. reflexivity.
  - intros low high Hpop Hout. exists (mkTrace []).
    unfold in_range. rewrite (@in_range_excludes_all F PF low high xaxis _ Hpop Hout).
    repeat split.
Qed.

Lemma incumbent_trace_preconditions_witness :
  (exists t', incumbent_trace ax_end_time "loss" scenario_A = Ok t') /\
  (exists empty,
      in_range (10 # 1, 11 # 1)%Q ax_end_time scenario_A = Ok empty /\
      results empty = [] /\
      incumbent_trace ax_end_time "loss" empty = Raise IndexError).
Proof.
  destruct (incumbent_trace_preconditions Q_float ax_end_time scenario_A)
    as (Hiff & _ & _ & Hrange).
  split.
  - apply (proj2 Hiff). split; [discriminate | right; repeat constructor].
  - apply Hrange; repeat constructor; intros v [= <-]; reflexivity.
Defined.

(** C10 as stated fails: the five records of scenario B carry no cumulated
    fidelity yet, the trace is not empty, and extraction along that axis
    raises a type error instead of returning. *)
Lemma incumbent_trace_nonempty_fails :
  ~ (results scenario_B <> [] ->
     exists t', incumbent_trace ax_cumulated_fidelity "loss" scenario_B = Ok t' /\
                results t' <> []).
Proof.
  intros H. destruct H as (t' & Ht' & _); [discriminate|].
  vm_compute in Ht'. discriminate.
Qed.


(** ** Loading *)

Lemma mapM_length {A B : Type} (f : A -> res B) (l : list A) (l' : list B) :
  mapM f l = Ok l' -> List.length l' = List.length l.
Proof. intros H. apply mapM_Forall2 in H. symmetry. now apply Forall2_length in H. Qed.

(** A trace loaded from the neps layout has one record per configuration
    directory, and there is at least one. *)
Lemma load_neps_nonempty {F : Type} {PF : PyFloat F}
    (trace_results_dir : option (list (@config_dir F))) (t : Trace F) :
  load_neps trace_results_dir = Ok t ->
  exists config_dirs,
    trace_results_dir = Some config_dirs /\
    List.length (results t) = List.length config_dirs /\
    results t <> [].
Proof.
  unfold load_neps. destruct trace_results_dir as [config_dirs|]; [|discriminate].
  intros H. apply bind_Ok_inv in H as (rs & Hrs & H).
  apply mapM_length in Hrs.
  destruct (List.length rs =? 0)%nat eqn:E; [discriminate|].
  apply Nat.eqb_neq in E.
  apply bind_Ok_inv in H as (global_start & _ & [= <-]).
  exists config_dirs. split; [reflexivity|]. cbn [results].
  split.
  - rewrite sorted_length, length_map. exact Hrs.
  - intros Hnil. apply (f_equal (@List.length _)) in Hnil.
    rewrite sorted_length, length_map in Hnil. simpl in Hnil. lia.
Qed.

(** C8 fails on the code: a seed directory in the hpbandster layout whose
    results log has no line loads as an empty trace, whatever its
    configurations log holds, while the neps layout raises on zero records
    and never yields an empty trace. *)
Theorem load_zero_records :
  (forall (F : Type) (PF : PyFloat F) (configs : list (list Z)),
      load (mkSeedDir None (Some (configs, @nil (@hpbandster_line F))))
      = Ok (mkTrace (@nil (Result F)))) /\
  (forall (F : Type) (PF : PyFloat F) hpbandster,
      load (mkSeedDir (Some (Some (@nil (@config_dir F)))) hpbandster)
      = Raise ValueError) /\
  (forall (F : Type) (PF : PyFloat F) neps hpbandster (t : Trace F),
      load (mkSeedDir (Some neps) hpbandster) = Ok t -> results t <> []).
Proof.
  split; [|split].
  - intros F PF configs. reflexivity.
  - intros F PF hp. reflexivity.
  - intros F PF neps hp t H. simpl in H.
    apply load_neps_nonempty in H as (cds & _ & _ & Hne). exact Hne.
Qed.


(** ** Axis rescaling *)

Lemma getattr_setattr {F : Type} (a : attr) (v : F) (r : Result F) :
  getattr a (setattr a v r) = Some v.
Proof. destruct r, a; reflexivity. Qed.

Lemma setattr_setattr {F : Type} (a : attr) (v v' : F) (r : Result F) :
  setattr a v' (setattr a v r) = setattr a v' r.
Proof. destruct r, a; reflexivity. Qed.

Lemma scaled_populated {F : Type} {PF : PyFloat F} (c : F) (xaxis : attr)
    (rs : list (Result F)) :
  populated xaxis rs -> populated xaxis (map (scaled c xaxis) rs).
Proof.
  unfold populated. rewrite !Forall_forall. intros H r' Hr'.
  apply in_map_iff in Hr' as (r & <- & Hr). specialize (H r Hr).
  unfold scaled. destruct (getattr xaxis r); [|discriminate].
  now rewrite getattr_setattr.
Qed.

Lemma rescale_results {F : Type} {PF : PyFloat F} (c : F) (xaxis : attr)
    (rs : list (Result F)) :
  populated xaxis rs ->
  mapM (rescale_result c xaxis) rs = Ok (map (scaled c xaxis) rs).
Proof.
  induction 1 as [|r rs Hr _ IH]; [reflexivity|].
  simpl. rewrite IH. unfold rescale_result, scaled.
  destruct (getattr xaxis r); [reflexivity | discriminate].
Qed.

Lemma populated_perm {F : Type} (xaxis : attr) (l l' : list (Result F)) :
  Permutation l l' -> populated xaxis l -> populated xaxis l'.
Proof. intros Hp. unfold populated. now apply Permutation_Forall. Qed.

(** On records that carry the axis, rescaling returns the rescaled records
    in the order of their new axis values. *)
Lemma rescale_xaxis_populated {F : Type} {PF : PyFloat F} (c : F) (xaxis : attr)
    (t : Trace F) :
  populated xaxis (results t) ->
  rescale_xaxis c xaxis t
  = Ok (mkTrace (sorted olt (getattr xaxis) (map (scaled c xaxis) (results t)))).
Proof.
  intros Hpop. unfold rescale_xaxis. rewrite (@rescale_results _ _ c xaxis _ Hpop). simpl bind.
  assert (Ho : sorted_opt (getattr xaxis) (map (scaled c xaxis) (results t))
               = Ok (sorted olt (getattr xaxis) (map (scaled c xaxis) (results t)))).
  { apply sorted_opt_Ok. split; [reflexivity|]. right.
    now apply scaled_populated. }
  rewrite Ho. reflexivity.
Qed.

Lemma not_populated_cons {F : Type} (xaxis : attr) (r : Result F) (rs : list (Result F)) :
  ~ populated xaxis (r :: rs) ->
  getattr xaxis r = None \/ (getattr xaxis r <> None /\ ~ populated xaxis rs).
Proof.
  intros H. destruct (getattr xaxis r) as [v|] eqn:E; [right | now left].
  split; [discriminate|]. intros Hp. apply H. constructor; [now rewrite E | exact Hp].
Qed.

Lemma rescale_results_raises {F : Type} {PF : PyFloat F} (c : F) (xaxis : attr)
    (rs : list (Result F)) :
  ~ populated xaxis rs -> mapM (rescale_result c xaxis) rs = Raise TypeError.
Proof.
  induction rs as [|r rs IH]; intros H; [exfalso; apply H; constructor|].
  apply not_populated_cons in H as [E|[E Hrs]]; simpl; unfold rescale_result at 1.
  - now rewrite E.
  - destruct (getattr xaxis r); [|congruence]. simpl. now rewrite (IH Hrs).
Qed.

Lemma Q_round_trip (v c : Q) : ~ c == 0 -> Qeq_bool ((v * c) * (inject_Z 1 / c)) v = true.
Proof. intros Hc. apply Qeq_bool_iff. field. exact Hc. Qed.

(** C9, amended: with exact rational arithmetic and a non-zero [c], on a
    trace whose records all carry the axis, rescaling is a linear transform
    (it returns the records, each with its axis value multiplied by [c]
    and nothing else changed, in ascending order of the new values) and it
    round-trips: rescaling by [c] and then by [1/c] returns and gives every
    record its original axis value back.  On a trace with a record that
    lacks the axis it raises a type error. *)
Theorem rescale_xaxis_round_trip (c : Q) (xaxis : attr) (t : Trace Q) :
  ~ c == 0 ->
  (populated xaxis (results t) ->
   (exists t1,
       rescale_xaxis c xaxis t = Ok t1 /\
       linear_image c xaxis (results t) (results t1) /\
       StronglySorted (axis_le xaxis) (results t1)) /\
   rescale_round_trip c xaxis t) /\
  (~ populated xaxis (results t) -> rescale_xaxis c xaxis t = Raise TypeError).
Proof.
  intros Hc. split.
  2:{ intros H. unfold rescale_xaxis. now rewrite rescale_results_raises. }
  intros Hpop. split.
  { rewrite (@rescale_xaxis_populated _ _ c xaxis t Hpop).
    eexists. split; [reflexivity|]. cbn [results]. split.
    - assert (Hperm : Permutation (sorted olt (getattr xaxis)
                                     (map (scaled c xaxis) (results t)))
                                  (map (scaled c xaxis) (results t)))
        by apply sorted_perm.
      apply Permutation_map_inv in Hperm as (l & Hl & Hperm).
      exists l. split; [now symmetry|]. rewrite Hl.
      assert (Hpl : populated xaxis l) by (now apply populated_perm with (results t)).
      clear Hl Hperm. induction Hpl as [|r l Hr _ IH]; constructor; [|exact IH].
      unfold multiplied, scaled.
      destruct (getattr xaxis r) as [v|]; [|discriminate]. now exists v.
    - apply sorted_by_axis. right. now apply scaled_populated. }
  unfold rescale_round_trip.
  rewrite (@rescale_xaxis_populated _ _ c xaxis t Hpop).
  eexists. eexists. split; [reflexivity|].
  assert (Hpop1 : populated xaxis
                    (sorted olt (getattr xaxis) (map (scaled c xaxis) (results t)))).
  { apply populated_perm with (map (scaled c xaxis) (results t)).
    - symmetry. apply sorted_perm.
    - now apply scaled_populated. }
  rewrite (@rescale_xaxis_populated _ _ _ xaxis (mkTrace _) Hpop1).
  split; [reflexivity|]. cbn [results].
  set (c' := fdiv (of_int 1) c).
  assert (Hperm : Permutation
                    (sorted olt (getattr xaxis)
                       (map (scaled c' xaxis)
                          (sorted olt (getattr xaxis)
                             (map (scaled c xaxis) (results t)))))
                    (map (fun r => scaled c' xaxis (scaled c xaxis r)) (results t))).
  { rewrite sorted_perm.
    rewrite <- (map_map (scaled c xaxis) (scaled c' xaxis)).
    apply Permutation_map, sorted_perm. }
  apply Permutation_map_inv in Hperm as (l & Hl & Hperm).
  exists l. split; [now symmetry|]. rewrite Hl.
  assert (Hpl : populated xaxis l) by (now apply populated_perm with (results t)).
  clear Hl Hperm. induction Hpl as [|r l Hr _ IH]; constructor; [|exact IH].
  unfold scaled at 2. destruct (getattr xaxis r) as [v|] eqn:Ev; [|discriminate].
  unfold scaled. rewrite getattr_setattr, setattr_setattr.
  exists v, ((v * c) * c')%Q.
  split; [exact Ev|]. split; [apply (Q_round_trip v Hc) | reflexivity].
Qed.

Lemma rescale_xaxis_round_trip_witness :
  (exists t1,
      rescale_xaxis (1 # 100) ax_end_time scenario_A = Ok t1 /\
      linear_image (1 # 100) ax_end_time (results scenario_A) (results t1)) /\
  rescale_round_trip (1 # 100) ax_end_time scenario_A /\
  rescale_xaxis (1 # 100) ax_cumulated_fidelity scenario_A = Raise TypeError.
Proof.
  assert (Hc : ~ (1 # 100) == 0) by (intros H; discriminate H).
  destruct (rescale_xaxis_round_trip ax_end_time scenario_A Hc) as [Hok _].
  destruct (rescale_xaxis_round_trip ax_cumulated_fidelity scenario_A Hc) as [_ Hfail].
  destruct Hok as [(t1 & H1 & Hlin & _) Hrt]; [repeat constructor|].
  split; [now exists t1|]. split; [exact Hrt|].
  apply Hfail. intros Hpop. inversion Hpop as [|? ? Hr _]. discriminate Hr.
Defined.

(** C9 as stated fails in binary64: a cumulated fidelity of 7, rescaled by
    1/100 (a maximum fidelity of 100) and then by 1/(1/100), comes back as
    7.000000000000001. *)
Lemma rescale_xaxis_round_trip_binary64 :
  ~ rescale_round_trip (1 / 100)%float ax_cumulated_fidelity seven_units.
Proof.
  intros (t1 & t2 & H1 & H2 & l & Hperm & Hsame).
  vm_compute in H1. injection H1 as <-.
  vm_compute in H2. injection H2 as <-.
  symmetry in Hperm. apply Permutation_length_1_inv in Hperm. subst l.
  inversion Hsame as [|r r2 l1 l2 (v & v' & Hv & Heq & Hr2) _]; subst.
  injection Hv as <-. apply (f_equal (@cumulated_fidelity float)) in Hr2.
  simpl in Hr2. injection Hr2 as <-.
  vm_compute in Heq. discriminate Heq.
Qed.


(** ** Cumulative fidelity, several workers *)

Section MinFacts.
Context {A K : Type}.
Variable ltb : K -> K -> bool.
Variable key : A -> K.
Hypothesis ltb_asym : forall x y, ltb x y = true -> ltb y x = false.
Hypothesis le_trans : forall x y z, ltb y x = false -> ltb z y = false -> ltb z x = false.
Hypothesis ltb_irrefl : forall x, ltb x x = false.

Lemma min_from_In best l : In (min_from ltb key best l) (best :: l).
Proof.
  revert best. induction l as [|x l IH]; intros best; simpl; [now left|].
  destruct (IH (if ltb (key x) (key best) then x else best)) as [H|H].
  - destruct (ltb (key x) (key best)); rewrite <- H; auto.
  - auto.
Qed.

Lemma min_from_least best l a :
  In a (best :: l) -> ltb (key a) (key (min_from ltb key best l)) = false.
Proof.
  revert best a. induction l as [|x l IH]; intros best a Ha.
  - destruct Ha as [<-|[]]. apply ltb_irrefl.
  - simpl. destruct (ltb (key x) (key best)) eqn:E.
    + destruct Ha as [<-|Ha]; [|now apply IH].
      apply le_trans with (key x); [apply IH; now left | now apply ltb_asym].
    + destruct Ha as [<-|[<-|Ha]].
      * apply IH. now left.
      * apply le_trans with (key best); [apply IH; now left | exact E].
      * apply IH. now right.
Qed.
End MinFacts.

Lemma StronglySorted_app_inv {A : Type} (R : A -> A -> Prop) (l1 l2 : list A) :
  StronglySorted R (l1 ++ l2) ->
  StronglySorted R l2 /\ forall a b, In a l1 -> In b l2 -> R a b.
Proof.
  induction l1 as [|x l1 IH]; simpl; intros H.
  - split; [exact H | intros a b []].
  - inversion H as [|? ? Hs Hx]; subst. destruct (IH Hs) as [H2 H12].
    split; [exact H2|]. intros a b [<-|Ha] Hb; [|now apply H12].
    rewrite Forall_forall in Hx. apply Hx. apply in_or_app. now right.
Qed.

Lemma option_Z_eqb_eq (x y : option Z) : option_eqb Z.eqb x y = true -> x = y.
Proof.
  destruct x, y; simpl; try discriminate; [|reflexivity].
  intros H. apply Z.eqb_eq in H. now subst.
Qed.

Lemma option_Z_eqb_sym (x y : option Z) : option_eqb Z.eqb x y = option_eqb Z.eqb y x.
Proof. destruct x, y; simpl; try reflexivity. apply Z.eqb_sym. Qed.

Lemma option_Z_eqb_trans (x y z : option Z) :
  option_eqb Z.eqb x y = true -> option_eqb Z.eqb y z = true ->
  option_eqb Z.eqb x z = true.
Proof. destruct x, y, z; simpl; try discriminate; auto. apply Zeqb_trans. Qed.

Lemma option_Q_eqb_refl (x : option Q) : option_eqb Qeq_bool x x = true.
Proof. destruct x; simpl; [apply Qeq_bool_refl | reflexivity]. Qed.

Lemma option_Q_eqb_sym (x y : option Q) :
  option_eqb Qeq_bool x y = option_eqb Qeq_bool y x.
Proof. destruct x, y; simpl; try reflexivity. apply Qeq_bool_comm. Qed.

Lemma option_Q_eqb_trans (x y z : option Q) :
  option_eqb Qeq_bool x y = true -> option_eqb Qeq_bool y z = true ->
  option_eqb Qeq_bool x z = true.
Proof. destruct x, y, z; simpl; try discriminate; auto. apply Qeq_bool_trans. Qed.

Lemma Qltb_irrefl (x : Q) : Qltb x x = false.
Proof. apply Qltb_ge. apply Qle_refl. Qed.

Lemma distinct_keys_map {A B K : Type} (eqb : K -> K -> bool) (f : K * list A -> B)
    (gs : list (K * list A)) :
  distinct_keys eqb gs ->
  ForallOrdPairs (fun p q => eqb (fst p) (fst q) = false)
                 (map (fun kg => (fst kg, f kg)) gs).
Proof.
  unfold distinct_keys. induction 1 as [|kg gs Hkg _ IH]; simpl; constructor; [|exact IH].
  rewrite Forall_forall in *. intros q Hq.
  apply in_map_iff in Hq as (q' & <- & Hq'). simpl. auto.
Qed.

Lemma cumulate_In_cf {F : Type} {PF : PyFloat F} (rs : list (Result F)) (r : Result F) :
  In r (cumulate rs) -> is_some (cumulated_fidelity r) = true.
Proof.
  unfold cumulate. intros H. apply in_map_iff in H as ([r0 f] & <- & _).
  destruct r0. reflexivity.
Qed.

Lemma worker_linked {F : Type} (l : list (Result F)) :
  Forall has_worker l ->
  linked (option_eqb Z.eqb) (@process_id F) Z.ltb (@process_key F) l.
Proof.
  intros H a b Ha Hb. rewrite Forall_forall in H.
  pose proof (H a Ha) as Wa. pose proof (H b Hb) as Wb.
  unfold has_worker, process_key in *.
  destruct (process_id a), (process_id b); try discriminate. simpl.
  rewrite Z.eqb_eq, !Z.ltb_ge. lia.
Qed.

Lemma worker_groups {F : Type} (l : list (Result F)) :
  Forall has_worker l ->
  distinct_keys (option_eqb Z.eqb)
    (groupby (option_eqb Z.eqb) (@process_id F) (sorted Z.ltb (@process_key F) l)).
Proof.
  intros H.
  apply (proj2 (A := Forall (group_is_class (option_eqb Z.eqb) (@process_id F)
                               (sorted Z.ltb (@process_key F) l))
                        (groupby (option_eqb Z.eqb) (@process_id F)
                                 (sorted Z.ltb (@process_key F) l)))).
  apply groupby_sorted with (ltb := Z.ltb) (key1 := @process_key F).
  - apply option_Z_eqb_refl.
  - apply option_Z_eqb_sym.
  - apply option_Z_eqb_trans.
  - apply Zle_trans.
  - apply sorted_sorted; [apply Zltb_asym | apply Zle_trans].
  - apply worker_linked. revert H. apply Permutation_Forall.
    symmetry. apply sorted_perm.
Qed.

(** Every worker's records pass the single-worker assertion, so merging
    returns: each worker's records with their own running totals. *)
Lemma merge_processes_Ok {F : Type} {PF : PyFloat F} (rs : list (Result F)) :
  Forall has_worker rs ->
  merge_processes rs
  = Ok (List.concat
          (map (fun kg => cumulate (snd kg))
               (groupby (option_eqb Z.eqb) (@process_id F)
                        (sorted Z.ltb (@process_key F) rs)))).
Proof.
  intros H. unfold merge_processes.
  rewrite (dict_of_distinct _
             (distinct_keys_map (fun pg => mkTrace (snd pg)) (worker_groups H))).
  pose proof (groupby_ok (option_eqb Z.eqb) (@process_id F)
                option_Z_eqb_refl option_Z_eqb_sym option_Z_eqb_trans
                (sorted Z.ltb (@process_key F) rs)) as Hok.
  revert Hok.
  generalize (groupby (option_eqb Z.eqb) (@process_id F)
                      (sorted Z.ltb (@process_key F) rs)) as gs.
  intros gs Hok.
  assert (Hm : mapM (fun pt : option Z * Trace F =>
                       t <- with_cumulative_fidelity_default (snd pt) ;; Ok (fst pt, t))
                    (map (fun pg => (fst pg, mkTrace (snd pg))) gs)
               = Ok (map (fun kg => (fst kg, mkTrace (cumulate (snd kg)))) gs)).
  { induction Hok as [|kg gs (a & g & Hg & Hk & Hall) _ IH]; [reflexivity|].
    simpl. rewrite IH. unfold with_cumulative_fidelity_default. simpl results.
    assert (Heq : all_equal (option_eqb Z.eqb) (map (@process_id F) (snd kg)) = true).
    { rewrite Hg. simpl. apply forallb_forall. intros p Hp.
      apply in_map_iff in Hp as (b & <- & Hb).
      rewrite Hg in Hall. rewrite Forall_forall in Hall.
      rewrite option_Z_eqb_sym, <- Hk. apply Hall. now right. }
    rewrite Heq. reflexivity. }
  rewrite Hm. simpl bind. unfold dict_values. rewrite !map_map. reflexivity.
Qed.

Lemma merge_processes_cf {F : Type} {PF : PyFloat F} (rs merged : list (Result F)) :
  merge_processes rs = Ok merged ->
  Forall (fun r => is_some (cumulated_fidelity r) = true) merged.
Proof.
  unfold merge_processes. intros H.
  apply bind_Ok_inv in H as (per_process & Hpp & [= <-]).
  apply mapM_Forall2 in Hpp.
  rewrite Forall_forall. intros r Hr.
  apply in_concat in Hr as (out & Hout & Hr).
  unfold dict_values in Hout. rewrite map_map in Hout.
  apply in_map_iff in Hout as ([pid t] & <- & Hin).
  destruct (Forall2_in_r _ Hpp Hin) as ([pid0 t0] & _ & Ht).
  simpl in Ht. apply bind_Ok_inv in Ht as (t1 & Ht1 & [= _ <-]).
  unfold with_cumulative_fidelity_default in Ht1.
  destruct (all_equal _ _); [|discriminate]. injection Ht1 as <-.
  simpl in Hr. now apply cumulate_In_cf in Hr.
Qed.

Lemma cf_sorted (rs : list (Result Q)) :
  cf_known rs ->
  sorted olt (@cumulated_fidelity Q) rs = sorted Qltb cf_value rs.
Proof.
  intros H. apply sorted_ext. unfold cf_known in H. rewrite Forall_forall in H.
  intros a b Ha Hb. pose proof (H a Ha) as Ea. pose proof (H b Hb) as Eb.
  unfold cf_value. destruct (cumulated_fidelity a), (cumulated_fidelity b);
    try discriminate. reflexivity.
Qed.

Lemma cf_linked (rs : list (Result Q)) :
  cf_known rs ->
  linked (option_eqb Qeq_bool) (@cumulated_fidelity Q) Qltb cf_value rs.
Proof.
  intros H a b Ha Hb. unfold cf_known in H. rewrite Forall_forall in H.
  pose proof (H a Ha) as Ea. pose proof (H b Hb) as Eb.
  unfold cf_value. destruct (cumulated_fidelity a) as [x|], (cumulated_fidelity b) as [y|];
    try discriminate. simpl.
  rewrite Qeq_bool_iff, !Qltb_ge. split.
  - intros E. rewrite E. split; apply Qle_refl.
  - intros [H1 H2]. now apply Qle_antisym.
Qed.

(** One record out of each group of a sorted list: strictly ascending. *)
Lemma picks_ascending (gs : list (option Q * list (Result Q))) (ms : list (Result Q)) :
  StronglySorted (key_le Qltb cf_value) (List.concat (map snd gs)) ->
  cf_known (List.concat (map snd gs)) ->
  distinct_keys (option_eqb Qeq_bool) gs ->
  Forall (group_ok (option_eqb Qeq_bool) (@cumulated_fidelity Q)) gs ->
  Forall2 (fun kg m => In m (snd kg)) gs ms ->
  StronglySorted cf_lt ms.
Proof.
  intros Hs Hk Hd Hok Hpick. revert Hs Hk Hd Hok.
  induction Hpick as [|kg m gs ms Hm Hrest IH]; intros Hs Hk Hd Hok; [constructor|].
  simpl in Hs, Hk.
  apply StronglySorted_app_inv in Hs as [Hs' Hcross].
  unfold cf_known in Hk. apply Forall_app in Hk as [Hk1 Hk2].
  inversion Hd as [|? ? Hdk Hd']; subst. inversion Hok as [|? ? Hokk Hok']; subst.
  constructor; [now apply IH|].
  rewrite Forall_forall. intros m' Hm'.
  destruct (Forall2_in_r _ Hrest Hm') as (kg' & Hkg' & Hin').
  assert (Hc : In m' (List.concat (map snd gs))).
  { apply in_concat. exists (snd kg'). split; [now apply in_map | exact Hin']. }
  pose proof (Hcross m m' Hm Hc) as Hle. unfold key_le in Hle.
  rewrite Forall_forall in Hk1, Hk2, Hdk, Hok'.
  pose proof (Hk1 m Hm) as Em. pose proof (Hk2 m' Hc) as Em'.
  destruct Hokk as (_ & _ & _ & _ & Hall). rewrite Forall_forall in Hall.
  destruct (Hok' kg' Hkg') as (_ & _ & _ & _ & Hall'). rewrite Forall_forall in Hall'.
  pose proof (Hall m Hm) as Km. pose proof (Hall' m' Hin') as Km'.
  pose proof (Hdk kg' Hkg') as Kd.
  unfold cf_lt. unfold cf_value in Hle.
  destruct (cumulated_fidelity m) as [x|]; [|discriminate].
  destruct (cumulated_fidelity m') as [y|]; [|discriminate].
  exists x, y. repeat split.
  apply Qltb_ge in Hle. apply Qle_lt_or_eq in Hle as [Hlt|Heq]; [exact Hlt|].
  exfalso.
  assert (Kxy : option_eqb Qeq_bool (Some x) (Some y) = true)
    by (simpl; now apply Qeq_bool_iff).
  pose proof (option_Q_eqb_trans _ _ _ Kxy Km') as K1.
  rewrite option_Q_eqb_sym in Km.
  pose proof (option_Q_eqb_trans _ _ _ Km K1) as K2.
  congruence.
Qed.

Lemma py_min_spec (g : list (Result Q)) :
  g <> [] ->
  exists m, py_min fltb (@loss Q) g = Ok m /\ In m g /\
            forall x, In x g -> (loss m <= loss x)%Q.
Proof.
  destruct g as [|a g]; [congruence|]. intros _.
  exists (min_from Qltb (@loss Q) a g). split; [reflexivity|].
  split; [apply min_from_In|].
  intros x Hx. apply Qltb_ge.
  now apply (min_from_least Qltb (@loss Q) Qltb_asym Qle_trans' Qltb_irrefl).
Qed.

(** Deduplication returns on records that all have a cumulated fidelity,
    with one least-loss record per cumulated fidelity, strictly ascending. *)
Lemma deduplicate_Ok (merged : list (Result Q)) :
  cf_known merged -> exists out, deduplicate merged = Ok out /\ deduplicated merged out.
Proof.
  intros Hk. unfold deduplicate.
  assert (H1 : sorted_opt (@cumulated_fidelity Q) merged
               = Ok (sorted olt (@cumulated_fidelity Q) merged))
    by (apply sorted_opt_Ok; split; [reflexivity | right; exact Hk]).
  rewrite H1. simpl bind. rewrite (cf_sorted Hk).
  set (s1 := sorted Qltb cf_value merged).
  assert (Hperm : Permutation s1 merged) by apply sorted_perm.
  assert (Hk1 : cf_known s1)
    by (unfold cf_known; apply Permutation_Forall with merged; [now symmetry | exact Hk]).
  assert (Hs1 : StronglySorted (key_le Qltb cf_value) s1)
    by (apply sorted_sorted; [apply Qltb_asym | apply Qle_trans']).
  change (@feqb Q Q_float) with Qeq_bool.
  set (gs := groupby (option_eqb Qeq_bool) (@cumulated_fidelity Q) s1).
  assert (Hgs : Forall (group_is_class (option_eqb Qeq_bool) (@cumulated_fidelity Q) s1) gs
                /\ distinct_keys (option_eqb Qeq_bool) gs).
  { apply groupby_sorted with (ltb := Qltb) (key1 := cf_value).
    - apply option_Q_eqb_refl.
    - apply option_Q_eqb_sym.
    - apply option_Q_eqb_trans.
    - apply Qle_trans'.
    - exact Hs1.
    - now apply cf_linked. }
  destruct Hgs as [Hclass Hdist].
  pose proof (groupby_ok (option_eqb Qeq_bool) (@cumulated_fidelity Q)
                option_Q_eqb_refl option_Q_eqb_sym option_Q_eqb_trans s1) as Hok.
  fold gs in Hok.
  pose proof (groupby_concat (option_eqb Qeq_bool) (@cumulated_fidelity Q) s1) as Hcat.
  fold gs in Hcat.
  assert (Hmins : exists mins,
             Forall2 (fun kg m => py_min fltb (@loss Q) (snd kg) = Ok m /\ In m (snd kg) /\
                                  forall x, In x (snd kg) -> (loss m <= loss x)%Q)
                     gs mins).
  { clear Hclass Hdist Hcat. induction Hok as [|kg gs' (a & g & Hg & _) _ IH].
    - exists []. constructor.
    - destruct IH as [mins IH].
      destruct (@py_min_spec (snd kg)) as (m & Hm); [rewrite Hg; discriminate|].
      exists (m :: mins). now constructor. }
  destruct Hmins as [mins Hmins].
  assert (Hmap : mapM (fun kg : option Q * list (Result Q) => py_min fltb (@loss Q) (snd kg)) gs
                 = Ok mins).
  { apply Forall2_mapM. revert Hmins. apply Forall2_impl. now intros kg m [H _]. }
  change (fun x y : Q => negb (Qle_bool y x)) with (@fltb Q Q_float).
  rewrite Hmap. simpl bind.
  assert (Hpick : Forall2 (fun kg m => In m (snd kg)) gs mins)
    by (revert Hmins; apply Forall2_impl; now intros kg m (_ & H & _)).
  assert (Hin : forall m, In m mins -> In m s1).
  { intros m Hm. destruct (Forall2_in_r _ Hpick Hm) as (kg & Hkg & Hmk).
    rewrite <- Hcat. apply in_concat. exists (snd kg). split; [now apply in_map | exact Hmk]. }
  assert (Hasc : StronglySorted cf_lt mins).
  { apply picks_ascending with gs; try assumption; now rewrite Hcat. }
  assert (Hkm : cf_known mins).
  { unfold cf_known in *. rewrite Forall_forall in *. auto. }
  assert (H2 : sorted_opt (@cumulated_fidelity Q) mins = Ok mins).
  { apply sorted_opt_Ok. split; [|right; exact Hkm].
    symmetry. apply sorted_id.
    revert Hasc. apply StronglySorted_weaken.
    intros a b (x & y & Ha & Hb & Hxy). unfold key_le. rewrite Ha, Hb. simpl.
    apply Qltb_ge. now apply Qlt_le_weak. }
  exists mins. split; [exact H2|].
  split; [exact Hasc|]. split.
  - intros r Hr. split; [apply (Permutation_in _ Hperm); auto|].
    intros r' Hr' Heq.
    destruct (Forall2_in_r _ Hmins Hr) as (kg & Hkg & _ & Hrk & Hleast).
    apply Hleast.
    rewrite Forall_forall in Hclass. rewrite (Hclass kg Hkg).
    apply filter_In. split; [apply (Permutation_in _ (Permutation_sym Hperm)); exact Hr'|].
    destruct (groupby_In_group (option_eqb Qeq_bool) (@cumulated_fidelity Q)
                option_Q_eqb_refl option_Q_eqb_sym option_Q_eqb_trans
                s1 kg r Hkg Hrk) as [_ Hkr].
    exact (option_Q_eqb_trans _ _ _ Heq Hkr).
  - intros r' Hr'.
    apply (Permutation_in _ (Permutation_sym Hperm)) in Hr'.
    destruct (groupby_covers (option_eqb Qeq_bool) (@cumulated_fidelity Q) s1 r' Hr')
      as (kg & Hkg & Hrk').
    destruct (Forall2_in_l _ Hpick Hkg) as (m & Hm & Hmk).
    exists m. split; [exact Hm|].
    destruct (groupby_In_group (option_eqb Qeq_bool) (@cumulated_fidelity Q)
                option_Q_eqb_refl option_Q_eqb_sym option_Q_eqb_trans
                s1 kg m Hkg Hmk) as [_ K1].
    destruct (groupby_In_group (option_eqb Qeq_bool) (@cumulated_fidelity Q)
                option_Q_eqb_refl option_Q_eqb_sym option_Q_eqb_trans
                s1 kg r' Hkg Hrk') as [_ K2].
    unfold cf_eq. rewrite option_Q_eqb_sym in K2.
    exact (option_Q_eqb_trans _ _ _ K1 K2).
Qed.

Lemma has_worker_forallb {F : Type} (rs : list (Result F)) :
  forallb (fun r => is_some (process_id r)) rs = true <-> Forall has_worker rs.
Proof. rewrite forallb_forall, Forall_forall. reflexivity. Qed.

Lemma cumulate_In {F : Type} {PF : PyFloat F} (g : list (Result F)) (r' : Result F) :
  In r' (cumulate g) <->
  exists i r,
    nth_error (sorted fltb (@end_time F) g) i = Some r /\
    r' = mutate r [CumulatedFidelity
                     (Some (of_int (fidelity_total
                                      (firstn (S i) (sorted fltb (@end_time F) g)))))].
Proof.
  split.
  - intros Hin. apply In_nth_error in Hin as (i & Hi).
    assert (Hlt : (i < List.length (sorted fltb (@end_time F) g))%nat).
    { rewrite sorted_length, <- (cumulate_length g). apply nth_error_Some. congruence. }
    destruct (nth_error (sorted fltb (@end_time F) g) i) as [r|] eqn:Er.
    + exists i, r. split; [exact Er|].
      pose proof (@cumulate_nth _ _ g i r Er) as Hc. congruence.
    + apply nth_error_None in Er. lia.
  - intros (i & r & Hr & ->). eapply nth_error_In. apply (@cumulate_nth _ _ g i r Hr).
Qed.

Lemma cumulated_groups_length {F : Type} {PF : PyFloat F} {K : Type}
    (gs : list (K * list (Result F))) :
  List.length (List.concat (map (fun kg => cumulate (snd kg)) gs))
  = List.length (List.concat (map snd gs)).
Proof.
  induction gs as [|kg gs IH]; [reflexivity|].
  simpl. now rewrite !length_app, cumulate_length, IH.
Qed.

(** Merging returns one record per input record, each with the running
    total of its worker. *)
Lemma merge_processes_spec {F : Type} {PF : PyFloat F} (rs : list (Result F)) :
  Forall has_worker rs ->
  exists merged, merge_processes rs = Ok merged /\ merged_per_worker rs merged.
Proof.
  intros Hw. eexists. split; [apply (merge_processes_Ok Hw)|].
  set (s := sorted Z.ltb (@process_key F) rs).
  set (gs := groupby (option_eqb Z.eqb) (@process_id F) s).
  assert (Hperm : Permutation s rs) by apply sorted_perm.
  assert (Hclass : Forall (group_is_class (option_eqb Z.eqb) (@process_id F) s) gs).
  { apply (proj1 (B := distinct_keys (option_eqb Z.eqb) gs)).
    apply groupby_sorted with (ltb := Z.ltb) (key1 := @process_key F).
    - apply option_Z_eqb_refl.
    - apply option_Z_eqb_sym.
    - apply option_Z_eqb_trans.
    - apply Zle_trans.
    - apply sorted_sorted; [apply Zltb_asym | apply Zle_trans].
    - apply worker_linked. revert Hw. apply Permutation_Forall. now symmetry. }
  assert (Hgroup : forall kg, In kg gs ->
            sorted fltb (@end_time F) (snd kg) = worker_records (fst kg) rs).
  { intros kg Hkg. rewrite Forall_forall in Hclass.
    rewrite (Hclass kg Hkg). unfold worker_records, s. f_equal.
    apply sorted_filter. intros a b _ _ Ha Hb.
    apply option_Z_eqb_eq in Ha, Hb. unfold process_key. rewrite Ha, Hb.
    apply Z.ltb_irrefl. }
  split.
  - rewrite cumulated_groups_length. unfold gs. rewrite groupby_concat.
    apply sorted_length.
  - intros r'. rewrite in_concat. split.
    + intros (out & Hout & Hr'). apply in_map_iff in Hout as (kg & <- & Hkg).
      apply cumulate_In in Hr' as (i & r & Hr & ->).
      rewrite (Hgroup kg Hkg) in Hr |- *. now exists (fst kg), i, r.
    + intros (p & i & r & Hr & ->).
      assert (Hin : In r (worker_records p rs)) by (eapply nth_error_In; exact Hr).
      unfold worker_records in Hin. rewrite sorted_In in Hin.
      apply filter_In in Hin as [Hin Hp]. apply option_Z_eqb_eq in Hp.
      assert (Hs : In r s) by (apply (Permutation_in _ (Permutation_sym Hperm)); exact Hin).
      destruct (groupby_covers (option_eqb Z.eqb) (@process_id F) s r Hs)
        as (kg & Hkg & Hrk).
      assert (Hk : fst kg = p).
      { rewrite Forall_forall in Hclass. rewrite (Hclass kg Hkg) in Hrk.
        apply filter_In in Hrk as [_ Hrk]. apply option_Z_eqb_eq in Hrk. congruence. }
      exists (cumulate (snd kg)). split.
      * apply in_map_iff. now exists kg.
      * apply cumulate_In. exists i, r. rewrite (Hgroup kg Hkg), Hk. now split.
Qed.

(** C7: with more than one worker, cumulative fidelity returns exactly when
    the metric is the loss and every record names its worker.  Its output
    then keeps, of the merged records (one per input record, each with the
    running total of its worker), one record of least loss per cumulated
    fidelity, and is sorted by cumulated fidelity, strictly ascending.
    With any other metric it raises the unsupported-metric assertion (after
    the worker check) and substitutes nothing. *)
Theorem multi_worker_cumulative_fidelity (n : Z) (yaxis : string) (t : Trace Q) :
  (1 < n)%Z ->
  ((exists t', with_cumulative_fidelity (Some n) yaxis t = Ok t') <->
   yaxis = "loss"%string /\ Forall has_worker (results t)) /\
  (yaxis <> "loss"%string -> Forall has_worker (results t) ->
   with_cumulative_fidelity (Some n) yaxis t
   = Raise (AssertionError (MetricNotSupported yaxis))) /\
  (forall t', with_cumulative_fidelity (Some n) yaxis t = Ok t' ->
     exists merged,
       merged_per_worker (results t) merged /\
       deduplicated merged (results t')).
Proof.
  intros Hn.
  assert (Hmulti : (n =? 1)%Z = false) by (apply Z.eqb_neq; lia).
  unfold with_cumulative_fidelity. rewrite Hmulti.
  destruct (forallb (fun r => is_some (process_id r)) (results t)) eqn:Ew.
  - apply has_worker_forallb in Ew.
    destruct (merge_processes_spec Ew) as (merged & Hmerged & Hspec).
    rewrite Hmerged. simpl bind.
    assert (Hk : cf_known merged)
      by (apply (@merge_processes_cf Q Q_float (results t)); exact Hmerged).
    destruct (deduplicate_Ok Hk) as (out & Hout & Hded).
    destruct (String.eqb yaxis "loss") eqn:Ey.
    + apply String.eqb_eq in Ey. rewrite Hout. simpl bind.
      split; [|split].
      * split; [intros _; now split | intros _; eauto].
      * intros Hy. contradiction.
      * intros t' [= <-]. exists merged. split; [exact Hspec | exact Hded].
    + apply String.eqb_neq in Ey.
      split; [|split].
      * split; [intros (t' & [=]) | intros [Hy _]; contradiction].
      * reflexivity.
      * discriminate.
  - assert (Hw : ~ Forall has_worker (results t)).
    { intros H. apply has_worker_forallb in H. congruence. }
    split; [|split].
    + split; [intros (t' & [=]) | intros [_ H]; contradiction].
    + intros _ H. contradiction.
    + discriminate.
Qed.

Lemma multi_worker_cumulative_fidelity_witness :
  exists t' merged,
    with_cumulative_fidelity (Some 2%Z) "loss" two_workers = Ok t' /\
    merged_per_worker (results two_workers) merged /\
    deduplicated merged (results t') /\
    List.length merged = 5%nat /\
    map (fun r => (id r, cumulated_fidelity r, loss r)) (results t')
    = [ (1%Z, Some (1 # 1), 8 # 10); (3%Z, Some (2 # 1), 4 # 10);
        (2%Z, Some (4 # 1), 5 # 10); (4%Z, Some (11 # 1), 9 # 10) ].
Proof.
  destruct (@multi_worker_cumulative_fidelity 2%Z "loss"%string two_workers)
    as (_ & _ & Hded); [reflexivity|].
  destruct (with_cumulative_fidelity (Some 2%Z) "loss" two_workers) as [t'|e] eqn:E;
    [|vm_compute in E; discriminate].
  destruct (Hded t' eq_refl) as (merged & Hm & Hd).
  exists t', merged. split; [reflexivity|]. split; [exact Hm|]. split; [exact Hd|].
  split; [exact (proj1 Hm)|].
  clear - E. vm_compute in E. injection E as <-. reflexivity.
Defined.


(** ** Rank tables *)

Lemma count_swap {A B : Type} (R : A -> B -> bool) (l : list A) (l' : list B) :
  list_sum (map (fun a => List.length (filter (R a) l')) l)
  = list_sum (map (fun b => List.length (filter (fun a => R a b) l)) l').
Proof.
  induction l as [|x l IH]; simpl.
  - induction l' as [|y l' IH']; simpl; [reflexivity | exact IH'].
  - rewrite IH. clear IH. induction l' as [|y l' IH']; simpl; [reflexivity|].
    destruct (R x y); simpl; lia.
Qed.

Lemma filter_length_le {A : Type} (p q : A -> bool) (l : list A) :
  (forall a, In a l -> p a = true -> q a = true) ->
  (List.length (filter p l) <= List.length (filter q l))%nat.
Proof.
  induction l as [|x l IH]; intros H; simpl; [lia|].
  assert (IH' := IH (fun a Ha => H a (or_intror Ha))).
  destruct (p x) eqn:Ep.
  - rewrite (H x (in_eq _ _) Ep). simpl. lia.
  - destruct (q x); simpl; lia.
Qed.

Lemma filter_length_lt {A : Type} (p q : A -> bool) (l : list A) (x : A) :
  (forall a, In a l -> p a = true -> q a = true) ->
  In x l -> p x = false -> q x = true ->
  (List.length (filter p l) < List.length (filter q l))%nat.
Proof.
  induction l as [|y l IH]; intros H Hx Hp Hq; [destruct Hx|].
  simpl. assert (Hle := @filter_length_le A p q l (fun a Ha => H a (or_intror Ha))).
  destruct Hx as [->|Hx].
  - rewrite Hp, Hq. simpl. lia.
  - assert (IH' := IH (fun a Ha => H a (or_intror Ha)) Hx Hp Hq).
    destruct (p y) eqn:Ep.
    + rewrite (H y (in_eq _ _) Ep). simpl. lia.
    + destruct (q y); simpl; lia.
Qed.

Lemma trichotomy_count (v : Q) (vs : list Q) :
  (List.length (filter (fun w => Qltb w v) vs)
   + List.length (filter (fun w => Qeq_bool w v) vs)
   + List.length (filter (fun w => Qltb v w) vs))%nat = List.length vs.
Proof.
  induction vs as [|w vs IH]; simpl; [reflexivity|].
  destruct (Q_dec w v) as [[Hlt|Hgt]|Heq].
  - assert (E1 : Qltb w v = true) by (now apply Qltb_lt).
    assert (E2 : Qeq_bool w v = false).
    { apply not_true_iff_false. rewrite Qeq_bool_iff. intros E. rewrite E in Hlt.
      now apply Qlt_irrefl in Hlt. }
    assert (E3 : Qltb v w = false) by (apply Qltb_ge; now apply Qlt_le_weak).
    rewrite E1, E2, E3. simpl. lia.
  - assert (E1 : Qltb w v = false) by (apply Qltb_ge; now apply Qlt_le_weak).
    assert (E2 : Qeq_bool w v = false).
    { apply not_true_iff_false. rewrite Qeq_bool_iff. intros E. rewrite E in Hgt.
      now apply Qlt_irrefl in Hgt. }
    assert (E3 : Qltb v w = true) by (now apply Qltb_lt).
    rewrite E1, E2, E3. simpl. lia.
  - assert (E1 : Qltb w v = false) by (apply Qltb_ge; rewrite Heq; apply Qle_refl).
    assert (E2 : Qeq_bool w v = true) by (now apply Qeq_bool_iff).
    assert (E3 : Qltb v w = false) by (apply Qltb_ge; rewrite Heq; apply Qle_refl).
    rewrite E1, E2, E3. simpl. lia.
Qed.

Lemma list_sum_map_add {A : Type} (f g : A -> nat) (l : list A) :
  list_sum (map (fun a => f a + g a)%nat l) = (list_sum (map f l) + list_sum (map g l))%nat.
Proof. induction l as [|x l IH]; simpl; [reflexivity | lia]. Qed.

Lemma list_sum_map_const {A : Type} (c : nat) (l : list A) :
  list_sum (map (fun _ => c) l) = (List.length l * c)%nat.
Proof. induction l as [|x l IH]; simpl; [reflexivity | lia]. Qed.

(** Twice the ranks of [k] values add up to [k (k + 1)]. *)
Lemma double_ranks_total (vs : list Q) :
  list_sum (map (fun v => 2 * List.length (filter (fun w => Qltb w v) vs)
                          + List.length (filter (fun w => Qeq_bool w v) vs) + 1)%nat vs)
  = (List.length vs * (List.length vs + 1))%nat.
Proof.
  set (less := fun v => List.length (filter (fun w => Qltb w v) vs)).
  set (equal := fun v => List.length (filter (fun w => Qeq_bool w v) vs)).
  set (more := fun v => List.length (filter (fun w => Qltb v w) vs)).
  assert (Hswap : list_sum (map less vs) = list_sum (map more vs)).
  { unfold less, more.
    exact (count_swap (fun v w => Qltb w v) vs vs). }
  assert (Htri : list_sum (map (fun v => less v + equal v + more v)%nat vs)
                 = (List.length vs * List.length vs)%nat).
  { rewrite <- list_sum_map_const. f_equal. apply map_ext.
    intros v. apply trichotomy_count. }
  rewrite !list_sum_map_add in Htri.
  transitivity (list_sum (map (fun v => (less v + less v) + equal v + 1)%nat vs)).
  { f_equal. apply map_ext. intros v. unfold less, equal. lia. }
  rewrite !list_sum_map_add, list_sum_map_const. lia.
Qed.

Lemma present_map (f : Q -> Q) (cells : list (option Q)) :
  Ranking.present (map (fun c => match c with
                                 | None => None
                                 | Some v => Some (f v)
                                 end) cells)
  = map f (Ranking.present cells).
Proof.
  induction cells as [|[v|] cells IH]; simpl; [reflexivity | now rewrite IH | exact IH].
Qed.

Lemma present_rank_average (cells : list (option Q)) :
  Ranking.present (Ranking.rank_average cells)
  = map (fun v => (2 * Ranking.count_less v (Ranking.present cells)
                   + Ranking.count_equal v (Ranking.present cells) + 1)%Z # 2)
        (Ranking.present cells).
Proof.
  unfold Ranking.rank_average. cbv zeta.
  apply (present_map
           (fun v => (2 * Ranking.count_less v (Ranking.present cells)
                      + Ranking.count_equal v (Ranking.present cells) + 1)%Z # 2)).
Qed.

Lemma present_complete (cells : list (option Q)) :
  complete cells -> List.length (Ranking.present cells) = List.length cells.
Proof.
  induction 1 as [|[v|] cells Hc _ IH]; simpl; [reflexivity | now rewrite IH | discriminate].
Qed.

Lemma Qsum_halves (zs : list Z) :
  fold_right Qplus 0 (map (fun z => z # 2) zs) == fold_right Z.add 0%Z zs # 2.
Proof.
  induction zs as [|z zs IH]; simpl; [reflexivity|].
  rewrite IH. unfold Qeq, Qplus. simpl. lia.
Qed.

Lemma Z_sum_of_nat (ns : list nat) :
  fold_right Z.add 0%Z (map Z.of_nat ns) = Z.of_nat (list_sum ns).
Proof. induction ns as [|n ns IH]; simpl; [reflexivity | rewrite IH; lia]. Qed.

(** The ranks of a row without missing cells add up to [k (k + 1) / 2]. *)
Lemma rank_average_sum (cells : list (option Q)) :
  complete cells ->
  Ranking.row_sum (Ranking.rank_average cells)
  == Z.of_nat (List.length cells * (List.length cells + 1)) # 2.
Proof.
  intros Hc. unfold Ranking.row_sum. rewrite present_rank_average.
  rewrite <- (present_complete Hc).
  set (vs := Ranking.present cells).
  rewrite <- (map_map (fun v => (2 * Ranking.count_less v vs + Ranking.count_equal v vs + 1)%Z)
                      (fun z => z # 2)).
  rewrite Qsum_halves, <- (double_ranks_total vs), <- Z_sum_of_nat, map_map.
  assert (E : map (fun v => (2 * Ranking.count_less v vs + Ranking.count_equal v vs + 1)%Z) vs
              = map (fun v => Z.of_nat
                                (2 * List.length (filter (fun w => Qltb w v) vs)
                                 + List.length (filter (fun w => Qeq_bool w v) vs) + 1)) vs).
  { apply map_ext. intros v. unfold Ranking.count_less, Ranking.count_equal, Qltb. lia. }
  rewrite E. reflexivity.
Qed.

Lemma less_bound (vs : list Q) (v : Q) :
  In v vs -> (List.length (filter (fun w => Qltb w v) vs) < List.length vs)%nat.
Proof.
  intros Hv.
  replace (List.length vs) with (List.length (filter (fun _ : Q => true) vs)).
  - apply filter_length_lt with v; auto. apply Qltb_irrefl.
  - induction vs as [|w vs' IH]; simpl; [reflexivity|].
    f_equal. clear. induction vs' as [|x l IH]; simpl; [reflexivity | now rewrite IH].
Qed.

Lemma less_strict (vs : list Q) (x y : Q) :
  In x vs -> (x < y)%Q ->
  (List.length (filter (fun w => Qltb w x) vs)
   < List.length (filter (fun w => Qltb w y) vs))%nat.
Proof.
  intros Hx Hxy. apply filter_length_lt with x.
  - intros w _ Hw. apply Qltb_lt. apply Qltb_lt in Hw. now apply Qlt_trans with x.
  - exact Hx.
  - apply Qltb_irrefl.
  - now apply Qltb_lt.
Qed.

Lemma less_NoDup (vs ws : list Q) :
  incl ws vs -> untied ws ->
  NoDup (map (fun v => List.length (filter (fun w => Qltb w v) vs)) ws).
Proof.
  intros Hincl Hu. induction Hu as [|x ws Hx _ IH]; simpl; constructor.
  - intros Hin. apply in_map_iff in Hin as (y & Hy & Hyin).
    rewrite Forall_forall in Hx. pose proof (Hx y Hyin) as Hne.
    assert (Hxv : In x vs) by (apply Hincl, in_eq).
    assert (Hyv : In y vs) by (apply Hincl; now right).
    destruct (Q_dec x y) as [[Hlt|Hgt]|Heq]; [| |contradiction].
    + pose proof (less_strict vs Hxv Hlt). lia.
    + pose proof (less_strict vs Hyv Hgt). lia.
  - apply IH. intros a Ha. apply Hincl. now right.
Qed.

Lemma equal_once (vs : list Q) (v : Q) :
  untied vs -> In v vs -> List.length (filter (fun w => Qeq_bool w v) vs) = 1%nat.
Proof.
  induction 1 as [|x vs Hx _ IH]; intros Hv; [destruct Hv|].
  rewrite Forall_forall in Hx. simpl. destruct Hv as [->|Hv].
  - rewrite Qeq_bool_refl. simpl. f_equal.
    rewrite filter_none; [reflexivity|].
    intros a Ha. apply not_true_iff_false. rewrite Qeq_bool_iff.
    intros E. apply (Hx a Ha). now symmetry.
  - assert (E : Qeq_bool x v = false).
    { apply not_true_iff_false. rewrite Qeq_bool_iff. now apply Hx. }
    rewrite E. now apply IH.
Qed.

Lemma ranks_are_map (f : Q -> Q) (g : Q -> nat) (cells : list (option Q)) :
  complete cells ->
  (forall v, In v (Ranking.present cells) -> f v == inject_Z (Z.of_nat (g v))) ->
  ranks_are (map (fun c => match c with
                           | None => None
                           | Some v => Some (f v)
                           end) cells)
            (map g (Ranking.present cells)).
Proof.
  unfold ranks_are. induction 1 as [|[v|] cells Hc _ IH]; intros Hf; simpl;
    [constructor | | discriminate].
  constructor.
  - exists (f v). split; [reflexivity|]. apply Hf. simpl. now left.
  - apply IH. intros w Hw. apply Hf. simpl. now right.
Qed.

(** Without ties and without missing cells, the ranks of a row are a
    permutation of [1 .. k]. *)
Lemma rank_average_permutation (cells : list (option Q)) :
  complete cells -> untied (Ranking.present cells) ->
  exists p, Permutation p (seq 1 (List.length cells)) /\
            ranks_are (Ranking.rank_average cells) p.
Proof.
  intros Hc Hu. set (vs := Ranking.present cells).
  set (less := fun v => List.length (filter (fun w => Qltb w v) vs)).
  exists (map (fun v => S (less v)) vs). split.
  - rewrite <- (present_complete Hc). fold vs.
    rewrite <- seq_shift, <- (map_map less S).
    apply Permutation_map.
    apply NoDup_Permutation_bis.
    + apply less_NoDup; [apply incl_refl | exact Hu].
    + now rewrite length_seq, length_map.
    + intros n Hn. apply in_map_iff in Hn as (v & <- & Hv).
      apply in_seq. split; [lia|]. simpl. now apply less_bound.
  - unfold Ranking.rank_average. cbv zeta. fold vs.
    apply ranks_are_map; [exact Hc|]. fold vs. intros v Hv.
    unfold Ranking.count_less, Ranking.count_equal.
    change (fun w => negb (Qle_bool v w)) with (fun w => Qltb w v).
    rewrite (@equal_once vs v Hu Hv). fold (less v).
    unfold Qeq, inject_Z. cbn [Qnum Qden]. lia.
Qed.

Lemma align_rows (columns : list Ranking.Series) (indices : option (list Q)) row :
  In row (Ranking.align columns indices) ->
  List.length (snd row) = List.length columns.
Proof.
  unfold Ranking.align. intros H. apply in_map_iff in H as (x & <- & _).
  simpl. apply length_map.
Qed.

Lemma ffill_from_rows (k : nat) (t : Ranking.Table) :
  (forall row, In row t -> List.length (snd row) = k) ->
  forall last, List.length last = k ->
    forall row, In row (Ranking.ffill_from last t) -> List.length (snd row) = k.
Proof.
  induction t as [|[x cells] t IH]; intros Ht last Hlast row Hrow; [destruct Hrow|].
  simpl in Hrow.
  assert (Hfilled : List.length
                      (map (fun cl : option Q * option Q =>
                              match fst cl with Some v => Some v | None => snd cl end)
                           (combine cells last)) = k).
  { pose proof (Ht (x, cells) (in_eq _ _)) as Hcells. simpl in Hcells.
    rewrite length_map, length_combine, Hlast, Hcells. apply Nat.min_id. }
  destruct Hrow as [<-|Hrow]; [exact Hfilled|].
  apply (IH (fun r Hr => Ht r (or_intror Hr)) _ Hfilled row Hrow).
Qed.

Lemma ffill_rows (k : nat) (t : Ranking.Table) :
  (forall row, In row t -> List.length (snd row) = k) ->
  forall row, In row (Ranking.ffill t) -> List.length (snd row) = k.
Proof.
  destruct t as [|[x cells] t]; intros Ht row Hrow; [destruct Hrow|].
  simpl in Hrow. destruct Hrow as [<-|Hrow]; [apply Ht, in_eq|].
  apply (@ffill_from_rows k t (fun r Hr => Ht r (or_intror Hr)) cells
           (Ht (x, cells) (in_eq _ _)) row Hrow).
Qed.

(** Every row of a rank table ranks one row of losses, with one cell per
    algorithm. *)
Lemma ranks_rows (xaxis yaxis : attr) (seed : Z) (indices : option (list Q))
    (b : Ranking.BenchmarkResults) (tbl : Ranking.Table) :
  Ranking.ranks xaxis yaxis seed indices b = Ok tbl ->
  forall row, In row tbl ->
    exists cells, snd row = Ranking.rank_average cells /\
                  List.length cells = List.length b.
Proof.
  unfold Ranking.ranks. intros H.
  apply bind_Ok_inv in H as (seed_results & H1 & H).
  apply bind_Ok_inv in H as (incumbent_results & H2 & H).
  apply bind_Ok_inv in H as (columns & H3 & [= <-]).
  apply mapM_length in H1, H2, H3.
  intros row Hrow. apply in_map_iff in Hrow as (row0 & <- & Hrow0).
  exists (snd row0). split; [reflexivity|].
  rewrite <- H1, <- H2, <- H3.
  apply (@ffill_rows (List.length columns) (Ranking.align columns indices)); [|exact Hrow0].
  intros r Hr. now apply align_rows in Hr.
Qed.

(** C5, amended: every row of a per-seed rank table over k algorithms ranks
    k cells; when none of them is missing, the ranks of the row add up to
    k (k + 1) / 2, and when moreover no two of the losses are equal they are
    a permutation of 1 .. k. *)
Theorem rank_table_rows (xaxis yaxis : attr) (seed : Z) (indices : option (list Q))
    (b : Ranking.BenchmarkResults) (tbl : Ranking.Table) :
  Ranking.ranks xaxis yaxis seed indices b = Ok tbl ->
  forall row, In row tbl ->
    exists cells,
      snd row = Ranking.rank_average cells /\
      List.length cells = List.length b /\
      (complete cells ->
       Ranking.row_sum (snd row)
       == Z.of_nat (List.length b * (List.length b + 1)) # 2 /\
       (untied (Ranking.present cells) ->
        exists p, Permutation p (seq 1 (List.length b)) /\ ranks_are (snd row) p)).
Proof.
  intros H row Hrow.
  destruct (ranks_rows _ _ _ _ _ H row Hrow) as (cells & Hr & Hlen).
  exists cells. split; [exact Hr|]. split; [exact Hlen|].
  intros Hc. rewrite Hr, <- Hlen. split; [now apply rank_average_sum|].
  intros Hu. now apply rank_average_permutation.
Qed.

Lemma rank_table_rows_witness :
  exists tbl,
    Ranking.ranks ax_cumulated_fidelity ax_loss 0%Z None scenario_D = Ok tbl /\
    forall row, In row tbl -> exists cells,
      snd row = Ranking.rank_average cells /\ List.length cells = 2%nat.
Proof.
  eexists. split; [reflexivity|].
  intros row Hrow.
  destruct (@rank_table_rows ax_cumulated_fidelity ax_loss 0%Z None scenario_D _
              eq_refl row Hrow) as (cells & Hr & Hlen & _).
  exists cells. split; [exact Hr | exact Hlen].
Defined.

(** C5 as stated fails where an algorithm has no evaluation yet: at the
    axis value 1 the second algorithm of [late_start] has no loss, its
    rank is missing, and the row neither is a permutation of 1, 2 nor adds
    up to 3. *)
Lemma rank_table_leading_gap :
  exists tbl row,
    Ranking.ranks ax_cumulated_fidelity ax_loss 0%Z None late_start = Ok tbl /\
    In row tbl /\
    List.length (snd row) = 2%nat /\
    ~ Ranking.row_sum (snd row) == 3 /\
    ~ (exists p, Permutation p (seq 1 2) /\ ranks_are (snd row) p).
Proof.
  eexists. exists (1, [Some (2 # 2); None])%Q.
  split; [reflexivity|]. split; [left; reflexivity|]. split; [reflexivity|].
  split.
  - intros H. vm_compute in H. discriminate H.
  - intros (p & _ & H). unfold ranks_are in H. simpl in H.
    inversion H as [|? ? ? ? _ H']; subst.
    inversion H' as [|? n ? ? (q & Hq & _) _]; subst. discriminate Hq.
Qed.


(** * Further properties of the transformations *)


Lemma filterM_between (low high : Q) (xaxis : attr) (rs : list (Result Q)) :
  populated xaxis rs ->
  exists kept,
    filterM (fun result => between low high (getattr xaxis result)) rs = Ok kept /\
    populated xaxis kept /\
    forall r, In r kept <-> In r rs /\ within low high xaxis r.
Proof.
  induction 1 as [|r rs Hr _ (kept & Hk & Hpop & Hin)].
  - exists []. split; [reflexivity|]. split; [constructor|].
    intros r. split; [intros [] | intros [[] _]].
  - simpl. destruct (getattr xaxis r) as [v|] eqn:Ev; [|discriminate].
    simpl. rewrite Hk. simpl.
    destruct (Qle_bool low v && Qle_bool v high) eqn:E.
    + exists (r :: kept). split; [reflexivity|].
      split; [constructor; [now rewrite Ev | exact Hpop]|].
      apply andb_true_iff in E as [E1 E2]. apply Qle_bool_iff in E1, E2.
      intros r'. simpl. rewrite Hin. split.
      * intros [<-|[H1 H2]]; [|now auto]. split; [now left|]. exists v. auto.
      * intros [[<-|H1] H2]; auto.
    + exists kept. split; [reflexivity|]. split; [exact Hpop|].
      intros r'. rewrite Hin. simpl. split; [intros [H1 H2]; auto|].
      intros [[<-|H1] H2]; [|auto].
      exfalso. destruct H2 as (v' & Hv' & Hlo & Hhi). rewrite Ev in Hv'.
      injection Hv' as <-. apply Qle_bool_iff in Hlo, Hhi.
      unfold fleb in E. simpl in E. now rewrite Hlo, Hhi in E.
Qed.

Lemma filterM_between_raises {F : Type} {PF : PyFloat F} (low high : F) (xaxis : attr)
    (rs : list (Result F)) :
  ~ populated xaxis rs ->
  filterM (fun result => between low high (getattr xaxis result)) rs = Raise TypeError.
Proof.
  induction rs as [|r rs IH]; intros H; [exfalso; apply H; constructor|].
  apply not_populated_cons in H as [E|[E Hrs]]; simpl.
  - now rewrite E.
  - destruct (getattr xaxis r); [|congruence]. simpl. now rewrite (IH Hrs).
Qed.

(** X1: [in_range] returns exactly when every record carries the axis; it
    then keeps the records whose axis value lies in the closed interval,
    and no others, in ascending axis order.  Otherwise it raises a type
    error. *)
Theorem in_range_spec (low high : Q) (xaxis : attr) (t : Trace Q) :
  (populated xaxis (results t) ->
   exists t',
     in_range (low, high) xaxis t = Ok t' /\
     StronglySorted (axis_le xaxis) (results t') /\
     forall r, In r (results t') <-> In r (results t) /\ within low high xaxis r) /\
  (~ populated xaxis (results t) -> in_range (low, high) xaxis t = Raise TypeError).
Proof.
  split.
  - intros Hpop. destruct (filterM_between low high Hpop) as (kept & Hk & Hpk & Hin).
    exists (mkTrace (sorted olt (getattr xaxis) kept)).
    split; [|split].
    + unfold in_range. rewrite Hk. simpl bind.
      assert (Ho : sorted_opt (getattr xaxis) kept = Ok (sorted olt (getattr xaxis) kept))
        by (apply sorted_opt_Ok; split; [reflexivity | now right]).
      now rewrite Ho.
    + simpl. apply sorted_by_axis. now right.
    + intros r. simpl. rewrite sorted_In. apply Hin.
  - intros H. unfold in_range. now rewrite filterM_between_raises.
Qed.

Lemma in_range_spec_witness :
  exists t',
    in_range (2 # 1, 3 # 1)%Q ax_end_time scenario_A = Ok t' /\
    forall r, In r (results t') <->
              In r (results scenario_A) /\ within (2 # 1) (3 # 1) ax_end_time r.
Proof.
  destruct (proj1 (in_range_spec (2 # 1) (3 # 1) ax_end_time scenario_A))
    as (t' & Ht' & _ & Hin).
  - repeat constructor.
  - exists t'. split; [exact Ht' | exact Hin].
Defined.


(** X2: in any float arithmetic, [rescale_xaxis] returns exactly when
    every record carries the axis; the output then holds, for every input
    record, that record with its axis value multiplied by [c] and nothing
    else changed, so the count is preserved.  Otherwise it raises a type
    error. *)
Theorem rescale_xaxis_linear (F : Type) (PF : PyFloat F) (c : F) (xaxis : attr)
    (t : Trace F) :
  (populated xaxis (results t) ->
   exists t',
     rescale_xaxis c xaxis t = Ok t' /\
     Permutation (results t') (map (scaled c xaxis) (results t)) /\
     List.length (results t') = List.length (results t) /\
     forall r, In r (results t) ->
       exists v, getattr xaxis r = Some v /\
                 scaled c xaxis r = setattr xaxis (fmul v c) r) /\
  (~ populated xaxis (results t) -> rescale_xaxis c xaxis t = Raise TypeError).
Proof.
  split.
  - intros Hpop. eexists. split; [now apply rescale_xaxis_populated|].
    simpl. split; [apply sorted_perm|].
    split; [now rewrite sorted_length, length_map|].
    intros r Hr. unfold populated in Hpop. rewrite Forall_forall in Hpop.
    specialize (Hpop r Hr). unfold scaled.
    destruct (getattr xaxis r) as [v|]; [|discriminate]. now exists v.
  - intros H. unfold rescale_xaxis. now rewrite rescale_results_raises.
Qed.

Lemma rescale_xaxis_linear_witness :
  exists t',
    rescale_xaxis (1 / 100)%float ax_cumulated_fidelity seven_units = Ok t' /\
    List.length (results t') = 1%nat.
Proof.
  destruct (proj1 (rescale_xaxis_linear binary64 (1 / 100)%float ax_cumulated_fidelity
                     seven_units))
    as (t' & Ht' & _ & Hlen & _).
  - repeat constructor.
  - exists t'. split; [exact Ht' | exact Hlen].
Defined.

(** X3: rescaling by a positive factor never reorders a trace that is in
    ascending axis order: the output is the input, record by record, with
    the axis values multiplied. *)
Theorem rescale_xaxis_keeps_order (c : Q) (xaxis : attr) (t : Trace Q) :
  (0 < c)%Q -> populated xaxis (results t) ->
  StronglySorted (axis_le xaxis) (results t) ->
  rescale_xaxis c xaxis t = Ok (mkTrace (map (scaled c xaxis) (results t))).
Proof.
  intros Hc Hpop Hs. rewrite (@rescale_xaxis_populated _ _ c xaxis t Hpop).
  do 2 f_equal. apply sorted_id.
  unfold populated in Hpop.
  induction Hs as [|r rs Hs IH Hr]; simpl; [constructor|].
  inversion Hpop as [|? ? Hpr Hprs]; subst.
  constructor; [now apply IH|].
  rewrite Forall_forall in *. intros r' Hr'.
  apply in_map_iff in Hr' as (r0 & <- & Hr0).
  pose proof (Hr r0 Hr0) as Hle. pose proof (Hprs r0 Hr0) as Hp0.
  unfold key_le, scaled, axis_le in *.
  destruct (getattr xaxis r) as [x|]; [|discriminate].
  destruct (getattr xaxis r0) as [y|]; [|discriminate].
  rewrite !getattr_setattr. simpl. apply Qltb_ge.
  apply Qmult_le_compat_r; [now apply Hle | now apply Qlt_le_weak].
Qed.

Lemma rescale_xaxis_keeps_order_witness :
  exists t, incumbent_trace ax_end_time "loss" scenario_A = Ok t /\
            rescale_xaxis (1 # 100) ax_end_time t
            = Ok (mkTrace (map (scaled (1 # 100) ax_end_time) (results t))).
Proof.
  eexists. split; [reflexivity|].
  apply rescale_xaxis_keeps_order.
  - reflexivity.
  - repeat constructor.
  - repeat constructor; intros x y [= <-] [= <-]; discriminate.
Defined.


Lemma all_equal_differ {A : Type} (f : A -> option Z) (l : list A) (a b : A) :
  In a l -> In b l -> f a <> f b -> all_equal (option_eqb Z.eqb) (map f l) = false.
Proof.
  intros Ha Hb Hne. destruct (all_equal (option_eqb Z.eqb) (map f l)) eqn:E; [|reflexivity].
  exfalso. apply Hne. destruct l as [|x l]; [destruct Ha|].
  simpl in E. rewrite forallb_forall in E.
  assert (Hx : forall c, In c (x :: l) -> f x = f c).
  { intros c [<-|Hc]; [reflexivity|]. apply option_Z_eqb_eq, E, in_map, Hc. }
  now rewrite <- (Hx a Ha), <- (Hx b Hb).
Qed.

(** X4: with one worker (or no worker count), [with_cumulative_fidelity]
    returns when all records name the same worker, whatever the metric, and
    then every record of the output has a cumulated fidelity and the count
    is preserved; when two records name different workers it fails on its
    first assertion. *)
Theorem single_worker_requires_one_process (F : Type) (PF : PyFloat F)
    (n_workers : option Z) (yaxis : string) (t : Trace F) :
  n_workers = None \/ n_workers = Some 1%Z ->
  ((forall r r', In r (results t) -> In r' (results t) -> process_id r = process_id r') ->
   exists t',
     with_cumulative_fidelity n_workers yaxis t = Ok t' /\
     List.length (results t') = List.length (results t) /\
     populated ax_cumulated_fidelity (results t')) /\
  ((exists r r', In r (results t) /\ In r' (results t) /\ process_id r <> process_id r') ->
   with_cumulative_fidelity n_workers yaxis t = Raise (AssertionError WorkersNotEqual)).
Proof.
  intros Hn.
  assert (Hs : with_cumulative_fidelity n_workers yaxis t
               = if all_equal (option_eqb Z.eqb) (map (@process_id F) (results t))
                 then Ok (mkTrace (cumulate (results t)))
                 else Raise (AssertionError WorkersNotEqual))
    by (destruct Hn as [-> | ->]; reflexivity).
  rewrite Hs. split.
  - intros Hsame. rewrite all_equal_same.
    + eexists. split; [reflexivity|]. simpl. split; [apply cumulate_length|].
      apply Forall_forall. intros r Hr. now apply cumulate_In_cf in Hr.
    + apply option_Z_eqb_refl.
    + intros x y Hx Hy. apply in_map_iff in Hx as (r & <- & Hr).
      apply in_map_iff in Hy as (r' & <- & Hr'). now apply Hsame.
  - intros (r & r' & Hr & Hr' & Hne). now rewrite (all_equal_differ _ _ _ _ Hr Hr' Hne).
Qed.

Lemma single_worker_requires_one_process_witness :
  (exists t', with_cumulative_fidelity (Some 1%Z) "cost" scenario_B = Ok t' /\
              List.length (results t') = 5%nat) /\
  with_cumulative_fidelity (Some 1%Z) "loss" mixed_workers
  = Raise (AssertionError WorkersNotEqual).
Proof.
  destruct (single_worker_requires_one_process Q_float (n_workers := Some 1%Z) "cost"
              scenario_B (or_intror eq_refl)) as [Hok _].
  destruct (single_worker_requires_one_process Q_float (n_workers := Some 1%Z) "loss"
              mixed_workers (or_intror eq_refl)) as [_ Hfail].
  split.
  - destruct Hok as (t' & Ht' & Hlen & _).
    + intros r r' Hr Hr'. simpl in Hr, Hr'.
      repeat (destruct Hr as [<-|Hr]; [repeat (destruct Hr' as [<-|Hr']; [reflexivity|]);
                                       destruct Hr'|]).
      destruct Hr.
    + exists t'. split; [exact Ht' | exact Hlen].
  - apply Hfail. eexists _, _. split; [left; reflexivity|].
    split; [right; left; reflexivity|]. discriminate.
Defined.

Lemma cumulated_fidelity_mutate {F : Type} (r : Result F) (v : option F) :
  cumulated_fidelity (mutate r [CumulatedFidelity v]) = v.
Proof. now destruct r. Qed.

Lemma accumulate_from_gap (gap : Z) (s : list (Result Q)) :
  (0 <= gap)%Z -> Forall (fun r => (gap <= fidelity r)%Z) s ->
  forall total,
    let out := map (fun rf : Result Q * Z =>
                      mutate (fst rf) [CumulatedFidelity (Some (of_int (snd rf)))])
                   (zip s (accumulate_from total (map (@fidelity Q) s))) in
    Forall (fun r => exists z, cumulated_fidelity r = Some (inject_Z z) /\
                               (total + gap <= z)%Z) out /\
    StronglySorted (cf_gap gap) out.
Proof.
  intros Hgap. induction 1 as [|r s Hr _ IH]; intros total; simpl.
  - split; constructor.
  - destruct (IH (total + fidelity r)%Z) as [Hall Hsorted].
    split; [constructor|constructor].
    + exists (total + fidelity r)%Z.
      split; [apply cumulated_fidelity_mutate | lia].
    + eapply Forall_impl; [|exact Hall]. simpl.
      intros r' (z & Hz & Hle). exists z. split; [exact Hz | lia].
    + exact Hsorted.
    + eapply Forall_impl; [|exact Hall]. simpl.
      intros r' (z & Hz & Hle). exists (inject_Z (total + fidelity r)), (inject_Z z).
      split; [apply cumulated_fidelity_mutate|]. split; [exact Hz|].
      rewrite <- inject_Z_plus, <- Zle_Qle. exact Hle.
Qed.

Lemma cumulate_gap (gap : Z) (rs : list (Result Q)) :
  (0 <= gap)%Z -> Forall (fun r => (gap <= fidelity r)%Z) rs ->
  StronglySorted (cf_gap gap) (cumulate rs).
Proof.
  intros Hgap Hrs. unfold cumulate.
  assert (Hs : Forall (fun r => (gap <= fidelity r)%Z) (sorted fltb (@end_time Q) rs)).
  { rewrite Forall_forall in *. intros r Hr. apply Hrs. now apply sorted_In in Hr. }
  destruct (sorted fltb (@end_time Q) rs) as [|r s]; [constructor|].
  inversion Hs as [|? ? Hr Hs']; subst. simpl.
  destruct (accumulate_from_gap Hgap Hs' (fidelity r)) as [Hall Hsorted].
  constructor; [exact Hsorted|].
  eapply Forall_impl; [|exact Hall]. simpl.
  intros r' (z & Hz & Hle). exists (inject_Z (fidelity r)), (inject_Z z).
  split; [apply cumulated_fidelity_mutate|]. split; [exact Hz|].
  rewrite <- inject_Z_plus, <- Zle_Qle. exact Hle.
Qed.

(** X5: in the single-worker output, when no evaluation has a fidelity
    below [gap] (with [gap] not negative), the cumulated fidelity of every
    record exceeds the one of every earlier record by [gap] at least: it
    never decreases when fidelities are not negative, and no two records
    share a value when they are positive. *)
Theorem cumulated_fidelity_monotone (gap : Z) (yaxis : string) (t t' : Trace Q) :
  (0 <= gap)%Z ->
  Forall (fun r => (gap <= fidelity r)%Z) (results t) ->
  with_cumulative_fidelity None yaxis t = Ok t' ->
  StronglySorted (cf_gap gap) (results t').
Proof.
  intros Hgap Hfid H. unfold with_cumulative_fidelity in H.
  destruct (all_equal _ _); [|discriminate]. injection H as <-.
  simpl. now apply cumulate_gap.
Qed.

Lemma cumulated_fidelity_monotone_witness :
  exists t', with_cumulative_fidelity None "loss" scenario_B = Ok t' /\
             StronglySorted (cf_gap 1) (results t').
Proof.
  eexists. split; [reflexivity|].
  apply (@cumulated_fidelity_monotone 1 "loss" scenario_B); [lia | | reflexivity].
  repeat constructor; simpl; lia.
Defined.


(** * Properties of the loaders *)

Lemma from_dir_well_named {F : Type} (d : @config_dir F) :
  well_named d -> exists r, from_dir d = Ok r.
Proof.
  unfold well_named, from_dir. destruct (name_parts d) as [|a [|b [|c l]]]; simpl;
    intros [H|H]; try discriminate; eexists; reflexivity.
Qed.

Lemma from_dir_fields {F : Type} (d : @config_dir F) (r : Result F) :
  from_dir d = Ok r ->
  cumulated_fidelity r = None /\ continued_from r = None /\
  start_time r = info_start_time d /\ end_time r = info_end_time d.
Proof.
  unfold from_dir. intros H. apply bind_Ok_inv in H as (name & _ & [= <-]).
  repeat split.
Qed.

Lemma mutate_offsets {F : Type} (r : Result F) (a b : option F) :
  let r' := mutate r [StartTimeSinceGlobalStart a; EndTimeSinceGlobalStart b] in
  start_time_since_global_start r' = a /\ end_time_since_global_start r' = b /\
  start_time r' = start_time r /\ end_time r' = end_time r /\
  cumulated_fidelity r' = cumulated_fidelity r /\
  continued_from r' = continued_from r.
Proof. destruct r. repeat split. Qed.

(** X6: [load_neps] returns on every non-empty directory whose entries are
    well named.  Its output is in ascending order of end time; the global
    start is the start time of one of its records and no record starts
    before it; every record carries its start and end time relative to the
    global start, has no cumulated fidelity and continues nothing. *)
Theorem load_neps_offsets (config_dirs : list (@config_dir Q)) :
  (config_dirs <> [] -> Forall well_named config_dirs ->
   exists t, load_neps (Some config_dirs) = Ok t) /\
  (forall t, load_neps (Some config_dirs) = Ok t ->
     StronglySorted (fun a b => (end_time a <= end_time b)%Q) (results t) /\
     exists g,
       (exists r, In r (results t) /\ start_time r = g) /\
       Forall (offset_from g) (results t)).
Proof.
  split.
  - intros Hne Hnames.
    destruct (@mapM_total _ _ (@from_dir Q) config_dirs) as (rs & Hrs).
    { eapply Forall_impl; [|exact Hnames]. apply from_dir_well_named. }
    unfold load_neps. rewrite Hrs. simpl bind.
    pose proof (mapM_length _ _ Hrs) as Hlen.
    destruct rs as [|r rs]; [destruct config_dirs; [congruence | discriminate]|].
    simpl. eexists. reflexivity.
  - intros t H. unfold load_neps in H.
    apply bind_Ok_inv in H as (rs & Hrs & H).
    destruct (List.length rs =? 0)%nat eqn:E; [discriminate|].
    apply bind_Ok_inv in H as (g & Hg & [= <-]). cbn [results].
    split; [apply sorted_by_end_time|].
    destruct rs as [|r0 rs]; [discriminate|].
    set (m := min_from fltb (fun x : Q => x) (start_time r0) (map (@start_time Q) rs)).
    assert (Hm : g = m) by (symmetry; injection Hg as Hg; exact Hg).
    clear Hg. subst g. exists m.
    pose proof (@min_from_In Q Q fltb (fun x => x) (start_time r0)
                  (map (@start_time Q) rs)) as Hin.
    change (In m (map (@start_time Q) (r0 :: rs))) in Hin.
    apply in_map_iff in Hin as (rg & Hrg & Hing).
    split.
    + eexists. split.
      * rewrite sorted_In. apply in_map. exact Hing.
      * destruct rg. exact Hrg.
    + apply Forall_forall. intros r Hr. rewrite sorted_In in Hr.
      apply in_map_iff in Hr as (r1 & <- & Hr1).
      destruct (Forall2_in_r _ (mapM_Forall2 _ _ Hrs) Hr1) as (d & _ & Hd).
      apply from_dir_fields in Hd as (Hcf & Hcont & _).
      assert (Hle : Qltb (start_time r1) m = false).
      { apply (@min_from_least Q Q Qltb (fun x => x) Qltb_asym Qle_trans' Qltb_irrefl
                 (start_time r0) (map (@start_time Q) rs) (start_time r1)).
        change (In (start_time r1) (map (@start_time Q) (r0 :: rs))).
        now apply in_map. }
      apply Qltb_ge in Hle. clearbody m. clear Hr1.
      destruct r1. unfold offset_from. simpl in *.
      rewrite Hcf, Hcont. now repeat split.
Qed.

Lemma load_neps_offsets_witness :
  exists t, load_neps (Some two_dirs) = Ok t /\
            exists g, Forall (offset_from g) (results t).
Proof.
  destruct (load_neps_offsets two_dirs) as [Hok Hspec].
  destruct Hok as (t & Ht).
  - discriminate.
  - repeat (apply Forall_cons; [right; reflexivity|]). apply Forall_nil.
  - exists t. split; [exact Ht|].
    destruct (Hspec t Ht) as (_ & g & _ & Hall). now exists g.
Defined.

Lemma load_hpbandster_shape {F : Type} {PF : PyFloat F}
    (configs : list (list Z)) (lines : list (@hpbandster_line F)) (t : Trace F) :
  load_hpbandster configs lines = Ok t ->
  List.length (results t) = List.length lines /\
  Forall hpbandster_shaped (results t).
Proof.
  unfold load_hpbandster. intros H.
  apply bind_Ok_inv in H as (hp & Hhp & H).
  apply bind_Ok_inv in H as (parsed & Hparsed & [= <-]). cbn [results].
  split.
  - rewrite sorted_length, (mapM_length _ _ Hparsed). apply (mapM_length _ _ Hhp).
  - apply Forall_forall. intros r Hr. rewrite sorted_In in Hr.
    destruct (Forall2_in_r _ (mapM_Forall2 _ _ Hparsed) Hr) as ([[new_id fid] line] & _ & Hx).
    apply bind_Ok_inv in Hx as (b & _ & [= <-]). repeat split.
Qed.

Lemma not_populated_In {F : Type} (xaxis : attr) (rs : list (Result F)) (r : Result F) :
  In r rs -> getattr xaxis r = None -> ~ populated xaxis rs.
Proof.
  intros Hr Hnone Hpop. unfold populated in Hpop. rewrite Forall_forall in Hpop.
  specialize (Hpop r Hr). now rewrite Hnone in Hpop.
Qed.

(** X7: a trace that [load_hpbandster] returns has one record per line of
    the results file, each with a bracket and without worker, time since
    the global start, cumulated fidelity or continuation.  So the
    incumbent trace over the time since the global start fails with a type
    error once there are two lines; the cumulation with a worker count
    other than 1 fails on its assertion that every record names a worker,
    while the cumulation with the worker count 1 or with none returns. *)
Theorem load_hpbandster_records (F : Type) (PF : PyFloat F)
    (configs : list (list Z)) (lines : list (@hpbandster_line F)) (t : Trace F) :
  load_hpbandster configs lines = Ok t ->
  List.length (results t) = List.length lines /\
  Forall hpbandster_shaped (results t) /\
  ((2 <= List.length lines)%nat ->
   incumbent_trace ax_end_time_since_global_start "loss" t = Raise TypeError) /\
  (lines <> [] ->
   forall (n : Z) (yaxis : string), n <> 1%Z ->
     with_cumulative_fidelity (Some n) yaxis t = Raise (AssertionError WorkerMissing)) /\
  (forall (n_workers : option Z) (yaxis : string),
     n_workers = None \/ n_workers = Some 1%Z ->
     exists t', with_cumulative_fidelity n_workers yaxis t = Ok t' /\
                List.length (results t') = List.length lines).
Proof.
  intros H. destruct (load_hpbandster_shape _ _ H) as [Hlen Hall].
  split; [exact Hlen|]. split; [exact Hall|].
  rewrite Forall_forall in Hall. split; [|split].
  - intros H2. unfold incumbent_trace. simpl negb. cbv iota.
    rewrite sorted_opt_raises; [reflexivity | lia |].
    destruct (results t) as [|r rs]; [simpl in Hlen; lia|].
    apply not_populated_In with r; [now left|].
    now destruct (Hall r (or_introl eq_refl)) as (_ & _ & _ & Hend & _).
  - intros Hne n yaxis Hn. unfold with_cumulative_fidelity.
    apply Z.eqb_neq in Hn. rewrite Hn.
    destruct (results t) as [|r rs]; [destruct lines; [congruence | discriminate]|].
    destruct (Hall r (or_introl eq_refl)) as (_ & Hpid & _).
    simpl. now rewrite Hpid.
  - intros n_workers yaxis Hn.
    assert (Hs : with_cumulative_fidelity n_workers yaxis t
                 = if all_equal (option_eqb Z.eqb) (map (@process_id F) (results t))
                   then Ok (mkTrace (cumulate (results t)))
                   else Raise (AssertionError WorkersNotEqual))
      by (destruct Hn as [-> | ->]; reflexivity).
    rewrite Hs, all_equal_same.
    + eexists. split; [reflexivity|]. cbn [results]. now rewrite cumulate_length.
    + apply option_Z_eqb_refl.
    + intros x y Hx Hy. apply in_map_iff in Hx as (a & <- & Ha).
      apply in_map_iff in Hy as (b & <- & Hb).
      destruct (Hall a Ha) as (_ & -> & _). now destruct (Hall b Hb) as (_ & -> & _).
Qed.

Lemma load_hpbandster_records_witness :
  exists t, load_hpbandster [[0; 0; 0]; [0; 0; 1]]%Z three_lines = Ok t /\
            incumbent_trace ax_end_time_since_global_start "loss" t = Raise TypeError /\
            with_cumulative_fidelity (Some 2%Z) "loss" t
            = Raise (AssertionError WorkerMissing) /\
            exists t', with_cumulative_fidelity None "loss" t = Ok t'.
Proof.
  destruct (load_hpbandster (F := Q) [[0; 0; 0]; [0; 0; 1]]%Z three_lines) as [t|e] eqn:E;
    [|vm_compute in E; discriminate].
  destruct (load_hpbandster_records Q_float _ three_lines E)
    as (_ & _ & Htype & Hworker & Hsingle).
  exists t. split; [reflexivity|]. split; [|split].
  - apply Htype. simpl. lia.
  - apply Hworker; [discriminate | lia].
  - destruct (Hsingle None "loss"%string (or_introl eq_refl)) as (t' & Ht' & _).
    now exists t'.
Defined.

Section EnumerateFacts.
Context {K : Type}.
Variable eqb : K -> K -> bool.
Hypothesis eqb_spec : forall a b, eqb a b = true <-> a = b.

Lemma eqb_false a b : eqb a b = false <-> a <> b.
Proof. rewrite <- eqb_spec. destruct (eqb a b); split; congruence. Qed.

Lemma key_dec (a b : K) : {a = b} + {a <> b}.
Proof.
  destruct (eqb a b) eqn:E; [left; now apply eqb_spec | right; now apply eqb_false].
Qed.

Lemma dict_get_In {V : Type} k (d : list (K * V)) :
  In k (dict_keys d) -> exists v, dict_get eqb k d = Ok v.
Proof.
  induction d as [|[k' v'] d IH]; simpl; [intros []|].
  destruct (eqb k' k) eqn:E; [now exists v'|].
  intros [H|H]; [apply eqb_false in E; contradiction | now apply IH].
Qed.

Lemma dict_get_missing {V : Type} k (d : list (K * V)) :
  ~ In k (dict_keys d) -> dict_get eqb k d = Raise KeyError.
Proof.
  induction d as [|[k' v'] d IH]; simpl; [reflexivity|].
  intros H. destruct (eqb k' k) eqn:E.
  - apply eqb_spec in E. exfalso. apply H. now left.
  - apply IH. intros Hin. apply H. now right.
Qed.

Lemma dict_set_keys_in {V : Type} k (v : V) d :
  In k (dict_keys d) -> dict_keys (dict_set eqb k v d) = dict_keys d.
Proof.
  induction d as [|[k' v'] d IH]; [intros []|].
  intros Hin. simpl dict_set. destruct (eqb k' k) eqn:E; [reflexivity|].
  apply eqb_false in E. destruct Hin as [Heq|Hin]; [contradiction|].
  simpl. f_equal. now apply IH.
Qed.

Lemma dict_set_keys_new {V : Type} k (v : V) d :
  ~ In k (dict_keys d) -> dict_keys (dict_set eqb k v d) = dict_keys d ++ [k].
Proof.
  induction d as [|[k' v'] d IH]; [reflexivity|].
  intros Hn. simpl dict_set. destruct (eqb k' k) eqn:E.
  - apply eqb_spec in E. exfalso. apply Hn. now left.
  - simpl. f_equal. apply IH. intros Hin. apply Hn. now right.
Qed.

Lemma fold_dict_set_keys {V : Type} (items : list (K * V)) :
  forall d, NoDup (dict_keys d) ->
    let d' := fold_left (fun d kv => dict_set eqb (fst kv) (snd kv) d) items d in
    NoDup (dict_keys d') /\
    forall k, In k (dict_keys d') <-> In k (dict_keys d) \/ In k (map fst items).
Proof.
  induction items as [|[k v] items IH]; intros d Hd; simpl.
  - split; [exact Hd|]. intros k. tauto.
  - assert (Hd' : NoDup (dict_keys (dict_set eqb k v d)) /\
                  forall k', In k' (dict_keys (dict_set eqb k v d))
                             <-> In k' (dict_keys d) \/ k = k').
    { destruct (in_dec key_dec k (dict_keys d)) as [Hin|Hn].
      - rewrite dict_set_keys_in by exact Hin.
        split; [exact Hd|]. intros k'. split; [tauto|]. intros [H|<-]; assumption.
      - rewrite dict_set_keys_new by exact Hn. split.
        + apply NoDup_app; [exact Hd | repeat constructor; intros [] |].
          intros x Hx [<-|[]]. contradiction.
        + intros k'. rewrite in_app_iff. simpl. tauto. }
    destruct Hd' as [Hnd Hkeys].
    destruct (IH _ Hnd) as [Hnd' Hkeys'].
    split; [exact Hnd'|]. intros k'. rewrite Hkeys', Hkeys. tauto.
Qed.

Lemma dict_of_keys {V : Type} (items : list (K * V)) :
  NoDup (dict_keys (dict_of eqb items)) /\
  forall k, In k (dict_keys (dict_of eqb items)) <-> In k (map fst items).
Proof.
  destruct (@fold_dict_set_keys V items [] (NoDup_nil _)) as [Hnd Hkeys].
  split; [exact Hnd|]. intros k. unfold dict_of. rewrite Hkeys. simpl. tauto.
Qed.

Lemma combine_distinct {V : Type} (keys : list K) :
  NoDup keys -> forall vals : list V,
    ForallOrdPairs (fun p q => eqb (fst p) (fst q) = false) (combine keys vals).
Proof.
  induction 1 as [|k keys Hk _ IH]; intros vals; [constructor|].
  destruct vals as [|v vals]; [constructor|]. simpl.
  constructor; [|apply IH].
  apply Forall_forall. intros [k' v'] Hin. simpl.
  apply eqb_false. intros <-. apply Hk. eapply in_combine_l, Hin.
Qed.

Lemma enumerate_from_get (keys : list K) :
  NoDup keys -> forall (s : nat) k i,
    dict_get eqb k (combine keys (map Z.of_nat (seq s (List.length keys)))) = Ok i <->
    exists j, i = Z.of_nat (s + j) /\ nth_error keys j = Some k.
Proof.
  induction 1 as [|a keys Ha _ IH]; intros s k i.
  - simpl. split; [discriminate|]. intros (j & _ & Hj). now destruct j.
  - simpl. destruct (eqb a k) eqn:E.
    + apply eqb_spec in E. subst a. split.
      * intros [= <-]. exists 0%nat. now rewrite Nat.add_0_r.
      * intros (j & -> & Hj). destruct j as [|j]; [now rewrite Nat.add_0_r|].
        exfalso. apply Ha. eapply nth_error_In, Hj.
    + apply eqb_false in E. rewrite IH. split.
      * intros (j & -> & Hj). exists (S j). split; [f_equal; lia | exact Hj].
      * intros (j & -> & Hj). destruct j as [|j]; [simpl in Hj; congruence|].
        exists j. split; [f_equal; lia | exact Hj].
Qed.

Lemma enumerate_dict_get (keys : list K) :
  NoDup keys -> forall k i,
    dict_get eqb k (enumerate_dict eqb keys) = Ok i <->
    exists j, i = Z.of_nat j /\ nth_error keys j = Some k.
Proof.
  intros Hnd k i. unfold enumerate_dict.
  rewrite dict_of_distinct by now apply combine_distinct.
  now rewrite enumerate_from_get.
Qed.

Lemma enumerate_dict_In (keys : list K) k :
  NoDup keys -> In k keys -> exists j, dict_get eqb k (enumerate_dict eqb keys) = Ok (Z.of_nat j)
                                       /\ nth_error keys j = Some k.
Proof.
  intros Hnd Hin. apply In_nth_error in Hin as (j & Hj).
  exists j. split; [|exact Hj]. apply enumerate_dict_get; [exact Hnd|]. now exists j.
Qed.
End EnumerateFacts.

Lemma tuple_eqb_spec (a b : list Z) : tuple_eqb a b = true <-> a = b.
Proof. unfold tuple_eqb. destruct (list_eq_dec Z.eq_dec a b); split; congruence. Qed.

Lemma StronglySorted_nth {A : Type} (R : A -> A -> Prop) (l : list A) :
  StronglySorted R l ->
  forall i j a b, (i < j)%nat -> nth_error l i = Some a -> nth_error l j = Some b -> R a b.
Proof.
  induction 1 as [|x l _ IH Hx]; intros i j a b Hij Hi Hj; [now destruct i|].
  destruct j as [|j]; [lia|]. simpl in Hj.
  destruct i as [|i].
  - injection Hi as <-. rewrite Forall_forall in Hx. eapply Hx, nth_error_In, Hj.
  - simpl in Hi. apply (IH i j); [lia | exact Hi | exact Hj].
Qed.

Lemma sorted_nodup_strict (l : list Z) :
  NoDup l -> StronglySorted Z.lt (sorted Z.ltb (fun f => f) l).
Proof.
  intros Hnd.
  assert (Hnd' : NoDup (sorted Z.ltb (fun f : Z => f) l)).
  { eapply Permutation_NoDup; [|exact Hnd]. symmetry. apply sorted_perm. }
  pose proof (sorted_sorted Z.ltb (fun f : Z => f) Zltb_asym Zle_trans l) as Hs.
  induction Hs as [|x s _ IH Hx]; [constructor|].
  inversion Hnd' as [|? ? Hnx Hnds]; subst.
  constructor; [now apply IH|].
  rewrite Forall_forall in *. intros y Hy. specialize (Hx y Hy).
  unfold key_le in Hx. apply Z.ltb_ge in Hx.
  assert (x <> y) by (intros ->; contradiction). lia.
Qed.

Lemma mapM_ext_Ok {A B : Type} (f : A -> res B) (g : A -> B) (l : list A) :
  (forall a, In a l -> f a = Ok (g a)) -> mapM f l = Ok (map g l).
Proof.
  induction l as [|a l IH]; intros H; [reflexivity|].
  simpl. rewrite (H a (or_introl eq_refl)). simpl.
  rewrite IH; [reflexivity|]. intros b Hb. apply H. now right.
Qed.

Lemma mapM_raises {A B : Type} (f : A -> res B) (e : exn) (l : list A) :
  (forall a, In a l -> (exists b, f a = Ok b) \/ f a = Raise e) ->
  Exists (fun a => f a = Raise e) l -> mapM f l = Raise e.
Proof.
  induction l as [|a l IH]; intros Hall Hex; [inversion Hex|].
  simpl. destruct (Hall a (or_introl eq_refl)) as [(b & Hb)|Hr]; [|now rewrite Hr].
  rewrite Hb. simpl. rewrite IH; [reflexivity | |].
  - intros x Hx. apply Hall. now right.
  - inversion Hex as [? ? Hh|? ? Ht]; subst; [congruence | exact Ht].
Qed.

Lemma loaded_configs_keys (configs : list (list Z)) :
  let loaded_configs := dict_of tuple_eqb (map (fun i => (i, tt)) configs) in
  NoDup (dict_keys loaded_configs) /\
  forall k, In k (dict_keys loaded_configs) <-> In k configs.
Proof.
  intros loaded_configs.
  destruct (dict_of_keys tuple_eqb tuple_eqb_spec (map (fun i : list Z => (i, tt)) configs))
    as [Hnd Hkeys].
  split; [exact Hnd|]. intros k. unfold loaded_configs. rewrite Hkeys.
  now rewrite map_map, map_id.
Qed.

Lemma config_lookup (configs : list (list Z)) (k : list Z) :
  let loaded_configs := dict_of tuple_eqb (map (fun i => (i, tt)) configs) in
  let new_id_mappings := enumerate_dict tuple_eqb (dict_keys loaded_configs) in
  (In k configs ->
   exists u j, dict_get tuple_eqb k loaded_configs = Ok u /\
               dict_get tuple_eqb k new_id_mappings = Ok (Z.of_nat j) /\
               nth_error (dict_keys loaded_configs) j = Some k) /\
  (~ In k configs -> dict_get tuple_eqb k loaded_configs = Raise KeyError).
Proof.
  intros loaded_configs new_id_mappings.
  destruct (loaded_configs_keys configs) as [Hnd Hkeys]. fold loaded_configs in Hnd, Hkeys.
  split.
  - intros Hin. apply Hkeys in Hin.
    destruct (dict_get_In tuple_eqb tuple_eqb_spec _ _ Hin) as (u & Hu).
    destruct (enumerate_dict_In tuple_eqb tuple_eqb_spec k Hnd Hin) as (j & Hj & Hnth).
    now exists u, j.
  - intros Hn. apply (dict_get_missing tuple_eqb tuple_eqb_spec). now rewrite Hkeys.
Qed.

Lemma Zeqb_spec (a b : Z) : (a =? b)%Z = true <-> a = b.
Proof. apply Z.eqb_eq. Qed.

(** X8: when every line of the results file names a configuration of the
    configurations file, [load_hpbandster] returns the records of the
    lines in ascending order of end time, with identifiers that tell the
    configurations apart and brackets that grow with the fidelity, both
    counted from zero; when a line names an unknown configuration it
    raises a key error. *)
Theorem load_hpbandster_spec (configs : list (list Z)) (lines : list (@hpbandster_line Q)) :
  (Forall (fun line => In (line_id line) configs) lines ->
   exists new_id bracket_of,
     load_hpbandster configs lines
     = Ok (mkTrace (sorted fltb (@end_time Q)
                           (map (hpbandster_record new_id bracket_of) lines))) /\
     (forall a b, In a configs -> In b configs -> new_id a = new_id b -> a = b) /\
     (forall l l', In l lines -> In l' lines ->
        (truncate (line_budget l) < truncate (line_budget l'))%Z ->
        (bracket_of (truncate (line_budget l))
         < bracket_of (truncate (line_budget l')))%Z) /\
     (forall a, In a configs -> (0 <= new_id a)%Z) /\
     (forall l, In l lines -> (0 <= bracket_of (truncate (line_budget l)))%Z)) /\
  (Exists (fun line => ~ In (line_id line) configs) lines ->
   load_hpbandster configs lines = Raise KeyError).
Proof.
  unfold load_hpbandster. cbv zeta.
  set (loaded_configs := dict_of tuple_eqb (map (fun i => (i, tt)) configs)).
  set (new_id_mappings := enumerate_dict tuple_eqb (dict_keys loaded_configs)).
  set (new_id := fun a => match dict_get tuple_eqb a new_id_mappings with
                          | Ok i => i
                          | Raise _ => 0%Z
                          end).
  pose proof (config_lookup configs) as Hlookup. cbv zeta in Hlookup.
  fold loaded_configs in Hlookup. fold new_id_mappings in Hlookup.
  split.
  - intros Hall. rewrite Forall_forall in Hall.
    set (g1 := fun line : @hpbandster_line Q =>
                 (new_id (line_id line), truncate (line_budget line), line)).
    rewrite (@mapM_ext_Ok _ _ _ g1 lines).
    2:{ intros line Hline.
        destruct (proj1 (Hlookup (line_id line)) (Hall line Hline)) as (u & j & Hu & Hj & _).
        rewrite Hu. simpl bind. unfold g1, new_id. rewrite Hj. reflexivity. }
    simpl bind.
    set (keys := sorted Z.ltb (fun f : Z => f)
                   (nodup Z.eq_dec (map (fun r : Z * Z * hpbandster_line => snd (fst r))
                                        (map g1 lines)))).
    set (_fid_to_bracket := enumerate_dict Z.eqb keys).
    set (bracket_of := fun f => match dict_get Z.eqb f _fid_to_bracket with
                                | Ok i => i
                                | Raise _ => 0%Z
                                end).
    assert (Hnd : NoDup keys).
    { eapply Permutation_NoDup; [symmetry; apply sorted_perm | apply NoDup_nodup]. }
    assert (Hstrict : StronglySorted Z.lt keys) by (apply sorted_nodup_strict, NoDup_nodup).
    assert (Hfid : forall l, In l lines ->
              exists j, dict_get Z.eqb (truncate (line_budget l)) _fid_to_bracket
                        = Ok (Z.of_nat j) /\
                        nth_error keys j = Some (truncate (line_budget l))).
    { intros l Hl. apply (enumerate_dict_In Z.eqb Zeqb_spec _ Hnd).
      unfold keys. rewrite sorted_In, nodup_In, map_map. simpl.
      apply in_map_iff. now exists l. }
    set (g2 := fun r : Z * Z * hpbandster_line =>
                 hpbandster_record (fun _ => fst (fst r)) bracket_of (snd r)).
    rewrite (@mapM_ext_Ok _ _ _
               (fun r : Z * Z * hpbandster_line =>
                  mkResult (fst (fst r)) (Some (bracket_of (snd (fst r))))
                    (line_loss (snd r)) (line_cost (snd r)) (line_val_score (snd r))
                    (line_test_score (snd r)) (snd (fst r)) (line_started (snd r))
                    (line_finished (snd r)) (line_max_fidelity_loss (snd r))
                    (line_max_fidelity_cost (snd r)) None None None None None)
               (map g1 lines)).
    2:{ intros [[i f] line] Hr. apply in_map_iff in Hr as (l & [= <- <- <-] & Hl).
        destruct (Hfid l Hl) as (j & Hj & _).
        rewrite Hj. simpl. unfold bracket_of. now rewrite Hj. }
    simpl bind. rewrite map_map.
    exists new_id, bracket_of. split; [reflexivity|].
    split; [|split; [|split]].
    + intros a b Ha Hb Hab.
      destruct (proj1 (Hlookup a) Ha) as (_ & j & _ & Hj & Hnth).
      destruct (proj1 (Hlookup b) Hb) as (_ & j' & _ & Hj' & Hnth').
      unfold new_id in Hab. rewrite Hj, Hj' in Hab.
      apply Nat2Z.inj in Hab. subst j'. congruence.
    + intros l l' Hl Hl' Hlt.
      destruct (Hfid l Hl) as (j & Hj & Hnth).
      destruct (Hfid l' Hl') as (j' & Hj' & Hnth').
      unfold bracket_of. rewrite Hj, Hj'. apply Nat2Z.inj_lt.
      destruct (Nat.lt_trichotomy j j') as [H|[H|H]]; [exact H | |].
      * subst j'. rewrite Hnth in Hnth'. injection Hnth' as Heq. lia.
      * pose proof (StronglySorted_nth Hstrict H Hnth' Hnth). lia.
    + intros a Ha. destruct (proj1 (Hlookup a) Ha) as (_ & j & _ & Hj & _).
      unfold new_id. rewrite Hj. lia.
    + intros l Hl. destruct (Hfid l Hl) as (j & Hj & _).
      unfold bracket_of. rewrite Hj. lia.
  - intros Hex. rewrite (@mapM_raises _ _ _ KeyError lines); [reflexivity | |].
    + intros line _.
      destruct (in_dec (list_eq_dec Z.eq_dec) (line_id line) configs) as [Hin|Hn].
      * left. destruct (proj1 (Hlookup (line_id line)) Hin) as (u & j & Hu & Hj & _).
        rewrite Hu. simpl bind. rewrite Hj. eexists. reflexivity.
      * right. now rewrite (proj2 (Hlookup (line_id line)) Hn).
    + eapply Exists_impl; [|exact Hex]. intros line Hn. simpl in Hn.
      now rewrite (proj2 (Hlookup (line_id line)) Hn).
Qed.

Lemma load_hpbandster_spec_witness :
  exists new_id bracket_of,
    load_hpbandster [[0; 0; 0]; [0; 0; 1]]%Z three_lines
    = Ok (mkTrace (sorted fltb (@end_time Q)
                          (map (hpbandster_record new_id bracket_of) three_lines))) /\
    (bracket_of 1 < bracket_of 3)%Z.
Proof.
  destruct (proj1 (load_hpbandster_spec [[0; 0; 0]; [0; 0; 1]]%Z three_lines))
    as (new_id & bracket_of & Hload & _ & Hmono & _).
  - repeat (apply Forall_cons; [simpl; auto|]). apply Forall_nil.
  - exists new_id, bracket_of. split; [exact Hload|].
    apply (Hmono (mkHpbandsterLine [0; 0; 1]%Z 1 1 2 (8 # 10) 1 0 0 0 0)%Q
                 (mkHpbandsterLine [0; 0; 0]%Z 3 0 1 (9 # 10) 1 0 0 0 0)%Q).
    + right. left. reflexivity.
    + left. reflexivity.
    + reflexivity.
Defined.


(** * Further properties of the incumbent trace *)

Lemma incumbents_after_fixed {F : Type} {PF : PyFloat F} (rs : list (Result F)) :
  forall incumbent,
    incumbents_after incumbent (incumbents_after incumbent rs)
    = incumbents_after incumbent rs.
Proof.
  induction rs as [|r rs IH]; intros incumbent; [reflexivity|].
  simpl. destruct (fltb (loss r) (loss incumbent)) eqn:E.
  - simpl. rewrite E. f_equal. apply IH.
  - apply IH.
Qed.

Lemma subseq_In {A : Type} (l l' : list A) (a : A) : subseq l l' -> In a l -> In a l'.
Proof.
  induction 1 as [|x l l' _ IH|x l l' _ IH]; intros Ha; [destruct Ha | right; auto|].
  destruct Ha as [<-|Ha]; [now left | right; auto].
Qed.

Lemma subseq_sorted {A : Type} (R : A -> A -> Prop) (l l' : list A) :
  subseq l l' -> StronglySorted R l' -> StronglySorted R l.
Proof.
  induction 1 as [|x l l' Hsub IH|x l l' Hsub IH]; intros Hs.
  - constructor.
  - inversion Hs; subst. auto.
  - inversion Hs as [|? ? Hl' Hx]; subst. constructor; [auto|].
    rewrite Forall_forall in *. intros a Ha. apply Hx. eapply subseq_In; eassumption.
Qed.

Lemma sorted_by_key (xaxis : attr) (l : list (Result Q)) :
  populated xaxis l ->
  StronglySorted (key_le olt (getattr xaxis)) (sorted olt (getattr xaxis) l).
Proof.
  intros Hpop.
  set (key' := fun r : Result Q =>
                 match getattr xaxis r with Some v => v | None => 0%Q end).
  rewrite (sorted_ext olt Qltb (getattr xaxis) key').
  - apply StronglySorted_weaken with (R := key_le Qltb key').
    + intros a b Hab. unfold key_le, key' in *.
      destruct (getattr xaxis a), (getattr xaxis b); try reflexivity. exact Hab.
    + apply (sorted_sorted Qltb key' Qltb_asym Qle_trans').
  - unfold populated in Hpop. rewrite Forall_forall in Hpop.
    intros a b Ha Hb. unfold key'.
    pose proof (Hpop a Ha) as Ea. pose proof (Hpop b Hb) as Eb.
    destruct (getattr xaxis a), (getattr xaxis b); try discriminate. reflexivity.
Qed.

(** X9: the incumbent trace of an incumbent trace is that trace. *)
Theorem incumbent_trace_idempotent (xaxis : attr) (t t' : Trace Q) :
  incumbent_trace xaxis "loss" t = Ok t' ->
  incumbent_trace xaxis "loss" t' = Ok t'.
Proof.
  intros H. apply incumbent_trace_Ok in H as (inc & rest & Hs & Hcase & ->).
  apply incumbent_trace_Ok. exists inc, (incumbents_after inc rest). cbn [results].
  assert (Hsub : subseq (inc :: incumbents_after inc rest)
                        (sorted olt (getattr xaxis) (results t))).
  { rewrite Hs. apply subseq_keep. apply incumbents_after_subseq. }
  destruct Hcase as [Hlen|Hpop].
  - rewrite sorted_small in Hs by exact Hlen.
    rewrite Hs in Hlen. destruct rest; [|simpl in Hlen; lia].
    split; [reflexivity|]. split; [left; simpl; lia | reflexivity].
  - assert (Hpop' : populated xaxis (inc :: incumbents_after inc rest)).
    { unfold populated in *. rewrite Forall_forall in *. intros r Hr.
      apply Hpop. eapply sorted_In, subseq_In; eassumption. }
    split; [|split; [now right|]].
    + apply sorted_id. eapply subseq_sorted; [exact Hsub|]. now apply sorted_by_key.
    + now rewrite incumbents_after_fixed.
Qed.

Lemma incumbent_trace_idempotent_witness :
  exists t', incumbent_trace ax_end_time "loss" scenario_A = Ok t' /\
             incumbent_trace ax_end_time "loss" t' = Ok t'.
Proof.
  eexists. split; [reflexivity|].
  apply (@incumbent_trace_idempotent ax_end_time scenario_A). reflexivity.
Defined.

Lemma incumbents_after_best (rs : list (Result Q)) :
  forall incumbent,
    exists earlier best,
      incumbent :: incumbents_after incumbent rs = earlier ++ [best] /\
      (loss best <= loss incumbent)%Q /\
      forall r, In r rs -> (loss best <= loss r)%Q.
Proof.
  induction rs as [|r rs IH]; intros incumbent.
  - exists [], incumbent. split; [reflexivity|]. split; [apply Qle_refl | intros r []].
  - simpl. destruct (negb (Qle_bool (loss incumbent) (loss r))) eqn:E.
    + change (Qltb (loss r) (loss incumbent) = true) in E. apply Qltb_lt in E.
      destruct (IH r) as (earlier & best & Heq & Hle & Hall).
      exists (incumbent :: earlier), best. split; [simpl; now rewrite Heq|].
      split; [apply Qlt_le_weak; eapply Qle_lt_trans; eassumption|].
      intros r' [<-|Hr']; [exact Hle | now apply Hall].
    + change (Qltb (loss r) (loss incumbent) = false) in E. apply Qltb_ge in E.
      destruct (IH incumbent) as (earlier & best & Heq & Hle & Hall).
      exists earlier, best. split; [exact Heq|]. split; [exact Hle|].
      intros r' [<-|Hr']; [eapply Qle_trans; eassumption | now apply Hall].
Qed.

(** X10: the last record of an incumbent trace has the least loss of the
    whole input trace. *)
Theorem incumbent_trace_ends_at_best (xaxis : attr) (t t' : Trace Q) :
  incumbent_trace xaxis "loss" t = Ok t' ->
  exists earlier best,
    results t' = earlier ++ [best] /\
    In best (results t) /\
    forall r, In r (results t) -> (loss best <= loss r)%Q.
Proof.
  intros H. apply incumbent_trace_Ok in H as (inc & rest & Hs & _ & ->).
  destruct (incumbents_after_best rest inc) as (earlier & best & Heq & Hle & Hall).
  exists earlier, best. cbn [results]. split; [exact Heq|].
  assert (Hin : forall r, In r (results t) <-> In r (inc :: rest))
    by (intros r; now rewrite <- Hs, sorted_In).
  split.
  - apply Hin. apply (@subseq_In _ (inc :: incumbents_after inc rest) (inc :: rest) best).
    + apply subseq_keep. apply incumbents_after_subseq.
    + rewrite Heq. apply in_or_app. right. now left.
  - intros r Hr. apply Hin in Hr as [<-|Hr]; [exact Hle | now apply Hall].
Qed.

Lemma incumbent_trace_ends_at_best_witness :
  exists t' earlier best,
    incumbent_trace ax_end_time "loss" scenario_A = Ok t' /\
    results t' = earlier ++ [best] /\
    forall r, In r (results scenario_A) -> (loss best <= loss r)%Q.
Proof.
  destruct (@incumbent_trace_ends_at_best ax_end_time scenario_A _ eq_refl)
    as (earlier & best & Heq & _ & Hall).
  eexists _, earlier, best. split; [reflexivity|]. split; [exact Heq | exact Hall].
Defined.


(** * Further properties of stitching *)

Lemma groupby_singletons {A : Type} (key : A -> Z) (l : list A) :
  NoDup (map key l) -> groupby Z.eqb key l = map (fun x => (key x, [x])) l.
Proof.
  induction l as [|x l IH]; intros Hnd; [reflexivity|].
  inversion Hnd as [|? ? Hx Hl]; subst. simpl. rewrite (IH Hl).
  destruct l as [|y l]; [reflexivity|]. simpl.
  assert (E : (key x =? key y)%Z = false).
  { apply Z.eqb_neq. intros Heq. apply Hx. left. now symmetry. }
  now rewrite E.
Qed.

Lemma concat_singletons {A : Type} (l : list A) :
  List.concat (map (fun x => [x]) l) = l.
Proof. induction l as [|x l IH]; [reflexivity|]. simpl. now rewrite IH. Qed.

(** X11: on a trace in which no configuration is evaluated twice,
    stitching changes no record and never fails, whether or not a record
    is already a continuation: it returns the records sorted by
    configuration and then by end time. *)
Theorem with_continuations_distinct_ids (F : Type) (PF : PyFloat F) (t : Trace F) :
  NoDup (map (@id F) (results t)) ->
  with_continuations t
  = Ok (mkTrace (sorted fltb (@end_time F) (sorted Z.ltb (@id F) (results t)))).
Proof.
  intros Hnd. rewrite with_continuations_eq. unfold config_groups.
  assert (Hnd' : NoDup (map (@id F) (sorted Z.ltb (@id F) (results t)))).
  { eapply Permutation_NoDup; [|exact Hnd].
    apply Permutation_map. symmetry. apply sorted_perm. }
  rewrite (groupby_singletons _ _ Hnd'), map_map.
  rewrite (map_ext _ (fun x : Result F => [x])) by reflexivity.
  rewrite (@mapM_ext_Ok _ _ _ (fun g : list (Result F) => g)).
  - simpl bind. rewrite map_id, concat_singletons, Nat.eqb_refl. reflexivity.
  - intros g Hg. apply in_map_iff in Hg as (x & <- & _). reflexivity.
Qed.

Lemma with_continuations_distinct_ids_witness :
  exists t', with_continuations three_configs = Ok t' /\
             List.length (results t') = 3%nat.
Proof.
  eexists. split.
  - apply with_continuations_distinct_ids.
    repeat constructor; simpl; intuition discriminate.
  - reflexivity.
Defined.

Lemma mapM_Ok_or_raise {A B : Type} (f : A -> res B) (e : exn) (l : list A) :
  (forall a, In a l -> (exists b, f a = Ok b) \/ f a = Raise e) ->
  (exists l', mapM f l = Ok l') \/ mapM f l = Raise e.
Proof.
  induction l as [|a l IH]; intros H; [left; now exists []|].
  simpl. destruct (H a (or_introl eq_refl)) as [(b & Hb)|Hr]; [|right; now rewrite Hr].
  rewrite Hb. simpl.
  destruct IH as [(l' & Hl')|Hr]; [intros x Hx; apply H; now right | |].
  - left. rewrite Hl'. now eexists.
  - right. now rewrite Hr.
Qed.

Lemma continue_from_cases {F : Type} {PF : PyFloat F} (self other : Result F) :
  (exists r, continue_from self other = Ok r) \/
  continue_from self other = Raise (AssertionError AlreadyContinued).
Proof.
  unfold continue_from. destruct (continued_from self); simpl; [now right | left; eauto].
Qed.

Lemma continue_group_cases {F : Type} {PF : PyFloat F} (g : list (Result F)) :
  g <> [] ->
  (exists out, continue_group g = Ok out) \/
  continue_group g = Raise (AssertionError AlreadyContinued).
Proof.
  intros Hne. unfold continue_group. destruct g as [|first rest]; [congruence|].
  destruct (List.length (first :: rest) =? 1)%nat; [left; eauto|].
  destruct (@mapM_Ok_or_raise _ _
              (fun p : Result F * Result F => continue_from (snd p) (fst p))
              (AssertionError AlreadyContinued) (pairwise (first :: rest)))
    as [(l' & Hl')|Hr].
  - intros p _. apply continue_from_cases.
  - left. rewrite Hl'. simpl. eauto.
  - right. now rewrite Hr.
Qed.

Lemma In_tail_adjacent {A : Type} (h c : A) (tl : list A) :
  In c tl -> exists x, adjacent x c (h :: tl).
Proof.
  intros Hin. apply in_split in Hin as (l1 & l2 & ->).
  destruct (@exists_last _ (h :: l1)) as (l1' & x & Heq); [discriminate|].
  exists x, l1', l2. rewrite app_comm_cons, Heq, <- app_assoc. reflexivity.
Qed.

Lemma config_group_id {F : Type} (i : Z) (l : list (Result F)) (r : Result F) :
  In r (config_group i l) <-> In r l /\ id r = i.
Proof.
  unfold config_group. rewrite sorted_In, filter_In. now rewrite Z.eqb_eq.
Qed.

Lemma config_group_sorted {F : Type} (i : Z) (l : list (Result F)) :
  StronglySorted (key_le Z.ltb (@bracket_key F)) (config_group i l).
Proof. apply sorted_sorted; [apply Zltb_asym | apply Zle_trans]. Qed.

(** X12: stitching is not meant to be applied twice.  When stitching has
    returned on a trace in which some configuration has two consecutive
    evaluations at different brackets, stitching its output fails on the
    assertion of [continue_from]. *)
Theorem with_continuations_twice (F : Type) (PF : PyFloat F) (t t' : Trace F)
    (i : Z) (lower higher : Result F) :
  with_continuations t = Ok t' ->
  adjacent lower higher (config_group i (results t)) ->
  (bracket_key lower < bracket_key higher)%Z ->
  with_continuations t' = Raise (AssertionError AlreadyContinued).
Proof.
  intros H Hadj Hlt.
  set (c := mutate higher [ Fidelity (fidelity higher - fidelity lower)%Z;
                            Cost (fsub (cost higher) (cost lower));
                            ContinuedFrom (Some lower) ]).
  assert (Hst : stitched lower higher c) by (unfold c; destruct higher; repeat split).
  assert (Hc : In c (results t')).
  { apply (@with_continuations_In _ _ t t' c H). right. now exists i, lower, higher. }
  pose proof (config_group_sorted i (results t)) as Hsorted.
  destruct Hadj as (l1 & l2 & Hg).
  assert (Hhigher : In higher (config_group i (results t))).
  { rewrite Hg. apply in_or_app. right. right. now left. }
  assert (Hfirst : exists first rest,
             config_group i (results t) = first :: rest /\
             (bracket_key first <= bracket_key lower)%Z).
  { destruct l1 as [|first l1].
    - exists lower, (higher :: l2). split; [exact Hg | lia].
    - exists first, (l1 ++ lower :: higher :: l2). split; [exact Hg|].
      rewrite Hg in Hsorted. simpl in Hsorted.
      inversion Hsorted as [|? ? _ Hall]; subst. rewrite Forall_forall in Hall.
      assert (Hk : key_le Z.ltb (@bracket_key F) first lower)
        by (apply Hall, in_or_app; right; now left).
      unfold key_le in Hk. apply Z.ltb_ge in Hk. exact Hk. }
  destruct Hfirst as (first & rest & Hg1 & Hle).
  assert (Hf : In first (results t')).
  { apply (@with_continuations_In _ _ t t' first H). left. now exists i, rest. }
  assert (Hidf : id first = i).
  { apply (config_group_id i (results t) first). rewrite Hg1. now left. }
  assert (Hidc : id c = i).
  { destruct Hst as (_ & _ & _ & Hid & _). rewrite Hid.
    now apply (config_group_id i (results t) higher). }
  assert (Hbc : bracket_key c = bracket_key higher).
  { destruct Hst as (_ & _ & _ & _ & Hb & _). unfold bracket_key. now rewrite Hb. }
  assert (Hcont : continued_from c = Some lower) by (now destruct Hst as (_ & _ & Hcf & _)).
  pose proof (config_group_sorted i (results t')) as Hsorted'.
  assert (Hc' : In c (config_group i (results t'))) by (now apply config_group_id).
  assert (Hf' : In first (config_group i (results t'))) by (now apply config_group_id).
  rewrite with_continuations_eq.
  rewrite (@mapM_raises _ _ continue_group (AssertionError AlreadyContinued));
    [reflexivity | |].
  - intros g Hg'. apply config_groups_In in Hg' as (j & -> & Hne).
    now apply continue_group_cases.
  - apply Exists_exists. exists (config_group i (results t')). split.
    + apply config_groups_In. exists i. split; [reflexivity|].
      intros Hnil. rewrite Hnil in Hc'. destruct Hc'.
    + destruct (config_group i (results t')) as [|h tl] eqn:Eg; [destruct Hc'|].
      inversion Hsorted' as [|? ? _ Hall]; subst. rewrite Forall_forall in Hall.
      assert (Hh : (bracket_key h <= bracket_key first)%Z).
      { destruct Hf' as [->|Hf']; [lia|].
        specialize (Hall first Hf'). unfold key_le in Hall.
        now apply Z.ltb_ge in Hall. }
      assert (Hctl : In c tl).
      { destruct Hc' as [->|Hc']; [lia | exact Hc']. }
      destruct (@In_tail_adjacent _ h c tl Hctl) as (x & Hx).
      apply pairwise_adjacent in Hx.
      unfold continue_group.
      destruct tl as [|y tl]; [destruct Hctl|].
      cbn [List.length Nat.eqb].
      rewrite (@mapM_raises _ _
                 (fun p : Result F * Result F => continue_from (snd p) (fst p))
                 (AssertionError AlreadyContinued)); [reflexivity | |].
      * intros p _. apply continue_from_cases.
      * apply Exists_exists. exists (x, c). split; [exact Hx|].
        unfold continue_from. simpl. now rewrite Hcont.
Qed.

Lemma with_continuations_twice_witness :
  exists t', with_continuations scenario_A = Ok t' /\
             with_continuations t' = Raise (AssertionError AlreadyContinued).
Proof.
  eexists. split; [reflexivity|].
  apply (@with_continuations_twice Q Q_float scenario_A _ 0%Z
           (record 0%Z (Some 0%Z) (9 # 10) (10 # 1) 1%Z (0 # 1) (1 # 1) None 0%Q)
           (record 0%Z (Some 1%Z) (5 # 10) (30 # 1) 3%Z (1 # 1) (2 # 1) None 0%Q)).
  - reflexivity.
  - exists [], [record 0%Z (Some 2%Z) (2 # 10) (50 # 1) 5%Z (2 # 1) (3 # 1) None 0%Q].
    reflexivity.
  - reflexivity.
Defined.


(** * The transformations in sequence *)

Lemma with_continuations_process_id {F : Type} {PF : PyFloat F} (t t' : Trace F)
    (r' : Result F) :
  with_continuations t = Ok t' -> In r' (results t') ->
  exists r, In r (results t) /\ process_id r' = process_id r.
Proof.
  intros H Hr'. apply (@with_continuations_In _ _ t t' r' H) in Hr'.
  destruct Hr' as [(i & rest & Hg)|(i & lower & higher & (l1 & l2 & Hg) & Hst)].
  - exists r'. split; [|reflexivity].
    apply (config_group_id i (results t) r'). rewrite Hg. now left.
  - exists higher. split.
    + apply (config_group_id i (results t) higher). rewrite Hg.
      apply in_or_app. right. right. now left.
    + now destruct Hst as (_ & _ & _ & _ & _ & _ & _ & _ & _ & _ & _ & _ & _ & _ & _ & Hp).
Qed.

(** X13: the steps that [fetch_results] applies to a trace by default
    compose.  On a non-empty trace whose records continue nothing and all
    name the same worker, stitching, then cumulating the fidelity, then
    taking the incumbent trace over the cumulated fidelity, then rescaling
    that axis by any factor all return; the result is not empty and has
    no more records than the input. *)
Theorem default_steps_compose (c : Q) (t : Trace Q) :
  results t <> [] ->
  Forall fresh (results t) ->
  (forall r r', In r (results t) -> In r' (results t) -> process_id r = process_id r') ->
  exists t1 t2 t3 t4,
    with_continuations t = Ok t1 /\
    with_cumulative_fidelity (Some 1%Z) "loss" t1 = Ok t2 /\
    incumbent_trace ax_cumulated_fidelity "loss" t2 = Ok t3 /\
    rescale_xaxis c ax_cumulated_fidelity t3 = Ok t4 /\
    results t4 <> [] /\
    (List.length (results t4) <= List.length (results t))%nat.
Proof.
  intros Hne Hfresh Hsame.
  destruct (with_continuations_total t Hfresh) as (t1 & H1).
  pose proof (@with_continuations_length _ _ t t1 H1) as Hlen1.
  assert (Hsame1 : all_equal (option_eqb Z.eqb) (map (@process_id Q) (results t1)) = true).
  { apply all_equal_same; [apply option_Z_eqb_refl|].
    intros x y Hx Hy.
    apply in_map_iff in Hx as (a & <- & Ha). apply in_map_iff in Hy as (b & <- & Hb).
    destruct (@with_continuations_process_id _ _ t t1 a H1 Ha) as (a0 & Ha0 & ->).
    destruct (@with_continuations_process_id _ _ t t1 b H1 Hb) as (b0 & Hb0 & ->).
    now apply Hsame. }
  set (t2 := mkTrace (cumulate (results t1))).
  assert (H2 : with_cumulative_fidelity (Some 1%Z) "loss" t1 = Ok t2).
  { unfold with_cumulative_fidelity. simpl Z.eqb. cbv iota. now rewrite Hsame1. }
  assert (Hpop2 : populated ax_cumulated_fidelity (results t2)).
  { apply Forall_forall. intros r Hr. now apply cumulate_In_cf in Hr. }
  assert (Hlen2 : List.length (results t2) = List.length (results t)).
  { unfold t2. cbn [results]. now rewrite cumulate_length. }
  destruct (sorted olt (getattr ax_cumulated_fidelity) (results t2)) as [|inc rest] eqn:Es.
  { exfalso. apply Hne. apply length_zero_iff_nil.
    rewrite <- Hlen2, <- (sorted_length olt (getattr ax_cumulated_fidelity)), Es.
    reflexivity. }
  set (t3 := mkTrace (inc :: incumbents_after inc rest)).
  assert (H3 : incumbent_trace ax_cumulated_fidelity "loss" t2 = Ok t3).
  { apply incumbent_trace_Ok. exists inc, rest.
    split; [exact Es|]. split; [now right | reflexivity]. }
  assert (Hsub : subseq (results t3) (sorted olt (getattr ax_cumulated_fidelity) (results t2))).
  { rewrite Es. apply subseq_keep, incumbents_after_subseq. }
  assert (Hpop3 : populated ax_cumulated_fidelity (results t3)).
  { unfold populated in *. rewrite Forall_forall in *. intros r Hr.
    apply Hpop2. eapply sorted_In, subseq_In; eassumption. }
  exists t1, t2, t3. eexists.
  split; [exact H1|]. split; [exact H2|]. split; [exact H3|].
  split; [now apply rescale_xaxis_populated|]. cbn [results].
  split.
  - intros Hnil. apply (f_equal (@List.length _)) in Hnil.
    rewrite sorted_length, length_map in Hnil. discriminate.
  - rewrite sorted_length, length_map, <- Hlen2,
      <- (sorted_length olt (getattr ax_cumulated_fidelity) (results t2)), Es.
    simpl. apply le_n_S.
    pose proof (incumbents_after_subseq rest inc) as Hs.
    clear - Hs. induction Hs; simpl; lia.
Qed.

Lemma default_steps_compose_witness :
  exists t1 t2 t3 t4,
    with_continuations scenario_A = Ok t1 /\
    with_cumulative_fidelity (Some 1%Z) "loss" t1 = Ok t2 /\
    incumbent_trace ax_cumulated_fidelity "loss" t2 = Ok t3 /\
    rescale_xaxis (1 # 5) ax_cumulated_fidelity t3 = Ok t4 /\
    results t4 <> [].
Proof.
  destruct (@default_steps_compose (1 # 5) scenario_A)
    as (t1 & t2 & t3 & t4 & H1 & H2 & H3 & H4 & Hne & _).
  - discriminate.
  - repeat constructor.
  - intros r r' Hr Hr'. simpl in Hr, Hr'.
    repeat (destruct Hr as [<-|Hr]; [repeat (destruct Hr' as [<-|Hr']; [reflexivity|]);
                                     destruct Hr'|]).
    destruct Hr.
  - now exists t1, t2, t3, t4.
Defined.


(** * Properties of the containers *)

Section DictGetFacts.
Context {K : Type}.
Variable eqb : K -> K -> bool.
Hypothesis eqb_spec : forall a b, eqb a b = true <-> a = b.

Lemma dict_get_set {V : Type} (k k' : K) (v : V) (d : list (K * V)) :
  dict_get eqb k (dict_set eqb k' v d) = if eqb k' k then Ok v else dict_get eqb k d.
Proof.
  induction d as [|[k2 v2] d IH]; [reflexivity|].
  simpl dict_set. destruct (eqb k2 k') eqn:E2.
  - apply eqb_spec in E2. subst k2. simpl. now destruct (eqb k' k).
  - simpl. rewrite IH. destruct (eqb k2 k) eqn:E; [|reflexivity].
    apply eqb_spec in E. subst k2.
    destruct (eqb k' k) eqn:E3; [|reflexivity].
    apply eqb_spec in E3. subst k'. now rewrite (proj2 (eqb_spec k k) eq_refl) in E2.
Qed.

Lemma fold_dict_get {V : Type} (k : K) (v : V) (items : list (K * V)) :
  forall d,
    dict_get eqb k (fold_left (fun d kv => dict_set eqb (fst kv) (snd kv) d) items d) = Ok v ->
    In (k, v) items \/ dict_get eqb k d = Ok v.
Proof.
  induction items as [|[k1 v1] items IH]; intros d H; [now right|].
  simpl in H. apply IH in H as [H|H]; [left; now right|].
  rewrite dict_get_set in H. destruct (eqb k1 k) eqn:E; [|now right].
  apply eqb_spec in E. injection H as ->. subst k1. left. now left.
Qed.

Lemma dict_of_get {V : Type} (k : K) (v : V) (items : list (K * V)) :
  dict_get eqb k (dict_of eqb items) = Ok v -> In (k, v) items.
Proof.
  intros H. apply fold_dict_get in H as [H|H]; [exact H | discriminate].
Qed.

Lemma dict_of_get_In {V : Type} (k : K) (items : list (K * V)) :
  In k (map fst items) ->
  exists v, dict_get eqb k (dict_of eqb items) = Ok v /\ In (k, v) items.
Proof.
  intros Hin. apply (proj2 (dict_of_keys eqb eqb_spec items)) in Hin.
  destruct (dict_get_In eqb eqb_spec _ _ Hin) as (v & Hv).
  exists v. split; [exact Hv | now apply dict_of_get].
Qed.

Lemma dict_of_get_missing {V : Type} (k : K) (items : list (K * V)) :
  ~ In k (map fst items) -> dict_get eqb k (dict_of eqb items) = Raise KeyError.
Proof.
  intros Hn. apply (dict_get_missing eqb eqb_spec).
  now rewrite (proj2 (dict_of_keys eqb eqb_spec items)).
Qed.

Lemma dict_get_map {V W : Type} (g : V -> W) (k : K) (d : list (K * V)) :
  dict_get eqb k (map (fun kv => (fst kv, g (snd kv))) d)
  = (v <- dict_get eqb k d ;; Ok (g v)).
Proof.
  induction d as [|[k1 v1] d IH]; [reflexivity|].
  simpl. destruct (eqb k1 k); [reflexivity | exact IH].
Qed.
End DictGetFacts.

Lemma Forall2_nth_error {A B : Type} (R : A -> B -> Prop) (l : list A) (l' : list B) :
  Forall2 R l l' ->
  forall k a, nth_error l k = Some a -> exists b, nth_error l' k = Some b /\ R a b.
Proof.
  induction 1 as [|x y l l' Hxy _ IH]; intros k a Hk; [now destruct k|].
  destruct k as [|k]; [injection Hk as <-; now exists y|]. now apply IH.
Qed.

Lemma select_items (self : @Algorithm.AlgorithmResults Q) (seeds : list Z)
    (items : list (Z * Trace Q)) :
  mapM (fun s => trace <- dict_get Z.eqb s self ;; Ok (s, trace)) seeds = Ok items ->
  map fst items = seeds /\
  forall s t, In (s, t) items -> dict_get Z.eqb s self = Ok t.
Proof.
  intros H. apply mapM_Forall2 in H.
  induction H as [|s st seeds items Hs _ [IH1 IH2]]; [split; [reflexivity | intros ? ? []]|].
  apply bind_Ok_inv in Hs as (t & Ht & [= <-]).
  split; [simpl; now rewrite IH1|].
  intros s' t' [[= <- <-]|Hin]; [exact Ht | now apply IH2].
Qed.

(** X14: [AlgorithmResults.select] with a list of seeds returns exactly
    when the results have every seed of the list, and raises a key error
    otherwise.  The selection has no seed twice, maps every seed of the
    list to the trace the results have for it, and has no other seed. *)
Theorem select_seeds (self : @Algorithm.AlgorithmResults Q) (seeds : list Z) :
  (Forall (fun s => In s (Algorithm.seeds self)) seeds ->
   exists selected, Algorithm.select (Some seeds) self = Ok selected) /\
  (Exists (fun s => ~ In s (Algorithm.seeds self)) seeds ->
   Algorithm.select (Some seeds) self = Raise KeyError) /\
  (forall selected, Algorithm.select (Some seeds) self = Ok selected ->
     NoDup (Algorithm.seeds selected) /\
     (forall s, In s seeds ->
        exists t, dict_get Z.eqb s selected = Ok t /\ dict_get Z.eqb s self = Ok t) /\
     (forall s, ~ In s seeds -> dict_get Z.eqb s selected = Raise KeyError)).
Proof.
  unfold Algorithm.select, Algorithm.seeds.
  assert (Hcases : forall s,
            (In s (dict_keys self) ->
             exists st, (trace <- dict_get Z.eqb s self ;; Ok (s, trace)) = Ok st) /\
            (~ In s (dict_keys self) ->
             (trace <- dict_get Z.eqb s self ;; Ok (s, trace)) = Raise KeyError)).
  { intros s. split; intros Hs.
    - destruct (dict_get_In Z.eqb Zeqb_spec _ _ Hs) as (t & Ht). rewrite Ht. simpl. eauto.
    - now rewrite (dict_get_missing Z.eqb Zeqb_spec _ _ Hs). }
  split; [|split].
  - intros Hall.
    destruct (@mapM_total _ _ (fun s => trace <- dict_get Z.eqb s self ;; Ok (s, trace)) seeds)
      as (items & Hitems).
    + eapply Forall_impl; [|exact Hall]. intros s Hs. now apply Hcases.
    + rewrite Hitems. simpl. eauto.
  - intros Hex. rewrite (@mapM_raises _ _ _ KeyError seeds); [reflexivity | |].
    + intros s _. destruct (in_dec Z.eq_dec s (dict_keys self)) as [Hin|Hn].
      * left. now apply Hcases.
      * right. now apply Hcases.
    + revert Hex. apply Exists_impl. intros s Hn. now apply Hcases.
  - intros selected H. apply bind_Ok_inv in H as (items & Hitems & [= <-]).
    destruct (select_items _ _ Hitems) as [Hkeys Hvals].
    split; [apply (dict_of_keys Z.eqb Zeqb_spec)|]. split.
    + intros s Hs. rewrite <- Hkeys in Hs.
      destruct (dict_of_get_In Z.eqb Zeqb_spec _ _ Hs) as (t & Ht & Hin).
      exists t. split; [exact Ht | now apply Hvals].
    + intros s Hn. apply (dict_of_get_missing Z.eqb Zeqb_spec). now rewrite Hkeys.
Qed.

Lemma select_seeds_witness :
  exists selected,
    Algorithm.select (Some [0; 0]%Z) [(0%Z, scenario_A); (1%Z, scenario_B)] = Ok selected /\
    NoDup (Algorithm.seeds selected).
Proof.
  destruct (select_seeds [(0%Z, scenario_A); (1%Z, scenario_B)] [0; 0]%Z)
    as (Hok & _ & Hspec).
  destruct Hok as (selected & Hsel).
  - repeat (apply Forall_cons; [simpl; auto|]). apply Forall_nil.
  - exists selected. split; [exact Hsel|]. now destruct (Hspec selected Hsel).
Defined.

(** X15: [BenchmarkResults.ranks] raises a key error as soon as one of the
    algorithms has no trace for the seed. *)
Theorem ranks_missing_seed (xaxis yaxis : attr) (seed : Z) (indices : option (list Q))
    (b : Ranking.BenchmarkResults) :
  Exists (fun ar => ~ In seed (dict_keys (snd ar))) b ->
  Ranking.ranks xaxis yaxis seed indices b = Raise KeyError.
Proof.
  intros Hex. unfold Ranking.ranks.
  rewrite (@mapM_raises _ _ _ KeyError b); [reflexivity | |].
  - intros ar _. unfold Ranking.select.
    destruct (in_dec Z.eq_dec seed (dict_keys (snd ar))) as [Hin|Hn].
    + left. destruct (dict_get_In Z.eqb Zeqb_spec _ _ Hin) as (t & Ht).
      assert (E : dict_get Z.eqb seed (snd ar) = Ok t) by exact Ht.
      rewrite E. simpl. eauto.
    + right.
      assert (E : dict_get Z.eqb seed (snd ar) = Raise KeyError)
        by exact (dict_get_missing Z.eqb Zeqb_spec _ _ Hn).
      now rewrite E.
  - revert Hex. apply Exists_impl. intros ar Hn. unfold Ranking.select.
    assert (E : dict_get Z.eqb seed (snd ar) = Raise KeyError)
      by exact (dict_get_missing Z.eqb Zeqb_spec _ _ Hn).
    now rewrite E.
Qed.

Lemma ranks_missing_seed_witness :
  Ranking.ranks ax_cumulated_fidelity ax_loss 1%Z None late_start = Raise KeyError.
Proof.
  apply ranks_missing_seed. apply Exists_cons_hd. simpl. intros [H|[]]. discriminate.
Defined.

Lemma map_fst_zip {A B : Type} (l : list A) (l' : list B) :
  List.length l = List.length l' -> map fst (zip l l') = l.
Proof.
  revert l'. induction l as [|a l IH]; intros [|b l'] H; try discriminate; [reflexivity|].
  simpl. f_equal. apply IH. now injection H.
Qed.

Lemma Forall2_zip_In {A B : Type} (R : A -> B -> Prop) (l : list A) (l' : list B) a b :
  Forall2 R l l' -> In (a, b) (zip l l') -> R a b.
Proof.
  induction 1 as [|x y l l' Hxy _ IH]; [intros []|].
  intros [[= <- <-]|Hin]; [exact Hxy | now apply IH].
Qed.

(** X16: [AlgorithmResults.load] keys the traces by seed: when it returns,
    the result has no seed twice, maps every seed of the list to the trace
    loaded from the directory of that seed, and has no other seed. *)
Theorem algorithm_load_by_seed (F : Type) (PF : PyFloat F)
    (disk : Z -> @seed_dir F) (seeds : list Z) (a : @Algorithm.AlgorithmResults F) :
  Algorithm.load disk seeds = Ok a ->
  NoDup (Algorithm.seeds a) /\
  (forall s, In s seeds -> exists t, dict_get Z.eqb s a = Ok t /\ load (disk s) = Ok t) /\
  (forall s, ~ In s seeds -> dict_get Z.eqb s a = Raise KeyError).
Proof.
  unfold Algorithm.load, Algorithm.seeds. intros H.
  apply bind_Ok_inv in H as (traces_ & Htraces & [= <-]).
  pose proof (mapM_length _ _ Htraces) as Hlen.
  apply mapM_Forall2 in Htraces.
  assert (Hkeys : map fst (zip seeds traces_) = seeds) by (apply map_fst_zip; now symmetry).
  split; [apply (dict_of_keys Z.eqb Zeqb_spec)|]. split.
  - intros s Hs. rewrite <- Hkeys in Hs.
    destruct (dict_of_get_In Z.eqb Zeqb_spec _ _ Hs) as (t & Ht & Hin).
    exists t. split; [exact Ht|].
    apply (Forall2_zip_In _ _ Htraces Hin).
  - intros s Hn. apply (dict_of_get_missing Z.eqb Zeqb_spec). now rewrite Hkeys.
Qed.

Lemma algorithm_load_by_seed_witness :
  exists a t,
    Algorithm.load (uniform_disk "b"%string "a"%string) [3; 5]%Z = Ok a /\
    dict_get Z.eqb 5%Z a = Ok t /\
    dict_get Z.eqb 0%Z a = Raise KeyError.
Proof.
  destruct (Algorithm.load (uniform_disk "b"%string "a"%string) [3; 5]%Z) as [a|e] eqn:E;
    [|vm_compute in E; discriminate].
  destruct (algorithm_load_by_seed Q_float (uniform_disk "b"%string "a"%string) [3; 5]%Z E)
    as (_ & Hin & Hout).
  destruct (Hin 5%Z) as (t & Ht & _); [simpl; auto|].
  exists a, t. split; [reflexivity|]. split; [exact Ht|].
  apply Hout. simpl. intros [H|[H|[]]]; discriminate.
Defined.

Lemma enumerate_from_traces {V : Type} (traces : list V) :
  forall (s k : nat) t,
    nth_error traces k = Some t ->
    dict_get Z.eqb (Z.of_nat (s + k))
      (zip (map Z.of_nat (seq s (List.length traces))) traces) = Ok t.
Proof.
  induction traces as [|x traces IH]; intros s k t Hk; [now destruct k|].
  simpl. destruct k as [|k].
  - injection Hk as <-. now rewrite Nat.add_0_r, Z.eqb_refl.
  - assert (E : (Z.of_nat s =? Z.of_nat (s + S k))%Z = false) by (apply Z.eqb_neq; lia).
    rewrite E. rewrite Nat.add_succ_r. apply (IH (S s) k t Hk).
Qed.

Lemma enumerate_traces_spec {F : Type} (traces : list (Trace F)) :
  Algorithm.seeds (Experiment.enumerate_traces traces)
  = map Z.of_nat (seq 0 (List.length traces)) /\
  forall k t, nth_error traces k = Some t ->
    dict_get Z.eqb (Z.of_nat k) (Experiment.enumerate_traces traces) = Ok t.
Proof.
  unfold Experiment.enumerate_traces, Algorithm.seeds.
  rewrite dict_of_distinct.
  - split.
    + apply map_fst_zip. now rewrite length_map, length_seq.
    + intros k t Hk. apply (enumerate_from_traces traces 0 k Hk).
  - apply (combine_distinct Z.eqb Zeqb_spec).
    apply Finite.Injective_map_NoDup; [intros x y; apply Nat2Z.inj | apply seq_NoDup].
Qed.

Lemma String_eqb_spec (a b : string) : String.eqb a b = true <-> a = b.
Proof. apply String.eqb_eq. Qed.

(** X17: [ExperimentResults.load] keys the traces of an algorithm by their
    position in the list of seeds, not by seed: when it returns, the
    results of every benchmark and algorithm asked for have the keys
    [0 .. len(seeds) - 1], and key [k] holds the trace loaded from the
    directory of the [k]-th seed. *)
Theorem experiment_load_by_position (F : Type) (PF : PyFloat F) (B : Type)
    (listing : string -> string -> option (list Z))
    (disk : string -> string -> Z -> @seed_dir F)
    (from_name : string -> res B)
    (name benchmarks algorithms : _) (seeds : list Z)
    (e : @Experiment.ExperimentResults F B) :
  Experiment.load listing disk from_name name benchmarks algorithms (Some seeds) = Ok e ->
  forall benchmark algorithm k seed,
    In benchmark benchmarks -> In algorithm algorithms ->
    nth_error seeds k = Some seed ->
    exists per_algorithm traces t,
      dict_get String.eqb benchmark (Experiment.results e) = Ok per_algorithm /\
      dict_get String.eqb algorithm per_algorithm = Ok traces /\
      Algorithm.seeds traces = map Z.of_nat (seq 0 (List.length seeds)) /\
      dict_get Z.eqb (Z.of_nat k) traces = Ok t /\
      load (disk benchmark algorithm seed) = Ok t.
Proof.
  unfold Experiment.load. intros H benchmark algorithm k seed Hb Ha Hk.
  simpl bind in H.
  apply bind_Ok_inv in H as (results_ & Hres & H).
  apply bind_Ok_inv in H as (configs & _ & [= <-]). cbn [Experiment.results].
  pose proof (mapM_Forall2 _ _ Hres) as Hall.
  assert (Hbkey : In benchmark (map fst results_)).
  { destruct (Forall2_in_l _ Hall Hb) as (br & Hbr & Hf).
    apply bind_Ok_inv in Hf as (pa & _ & [= <-]).
    apply in_map_iff. now exists (benchmark, dict_of String.eqb pa). }
  destruct (dict_of_get_In String.eqb String_eqb_spec _ _ Hbkey) as (per_algo & Hget & Hin).
  destruct (Forall2_in_r _ Hall Hin) as (b' & _ & Hf).
  apply bind_Ok_inv in Hf as (pa & Hpa & [= -> <-]).
  pose proof (mapM_Forall2 _ _ Hpa) as Hall'.
  assert (Hakey : In algorithm (map fst pa)).
  { destruct (Forall2_in_l _ Hall' Ha) as (at_ & Hat & Hf).
    apply bind_Ok_inv in Hf as (tr & _ & [= <-]).
    apply in_map_iff. now exists (algorithm, tr). }
  destruct (dict_of_get_In String.eqb String_eqb_spec _ _ Hakey) as (traces & Hget' & Hin').
  destruct (Forall2_in_r _ Hall' Hin') as (a' & _ & Hf).
  apply bind_Ok_inv in Hf as (tr & Htr & [= -> <-]).
  pose proof (mapM_length _ _ Htr) as Hlen.
  destruct (Forall2_nth_error (mapM_Forall2 _ _ Htr) _ Hk) as (t & Ht & Hload).
  destruct (enumerate_traces_spec tr) as [Hkeys Hpos].
  eexists _, (Experiment.enumerate_traces tr), t.
  split; [|split; [|split; [|split]]].
  - rewrite (dict_get_map String.eqb), Hget. reflexivity.
  - cbv beta. rewrite (dict_get_map String.eqb), Hget'. reflexivity.
  - now rewrite Hkeys, Hlen.
  - now apply Hpos.
  - exact Hload.
Qed.

Lemma experiment_load_by_position_witness :
  exists e per_algorithm traces t,
    Experiment.load (fun _ _ => None) uniform_disk (fun _ => Ok tt) "x"%string
      ["b"%string] ["a"%string] (Some [3; 5]%Z) = Ok e /\
    dict_get String.eqb "b"%string (Experiment.results e) = Ok per_algorithm /\
    dict_get String.eqb "a"%string per_algorithm = Ok traces /\
    Algorithm.seeds traces = [0; 1]%Z /\
    dict_get Z.eqb 1%Z traces = Ok t /\
    load (uniform_disk "b"%string "a"%string 5%Z) = Ok t.
Proof.
  destruct (Experiment.load (fun _ _ => None) uniform_disk (fun _ : string => Ok tt)
              "x"%string ["b"%string] ["a"%string] (Some [3; 5]%Z)) as [e|err] eqn:E;
    [|vm_compute in E; discriminate].
  destruct (@experiment_load_by_position Q Q_float unit (fun _ _ => None) uniform_disk
              (fun _ => Ok tt) "x"%string ["b"%string] ["a"%string] [3; 5]%Z e E
              "b"%string "a"%string 1%nat 5%Z)
    as (per_algorithm & traces & t & H1 & H2 & H3 & H4 & H5);
    [now left | now left | reflexivity|].
  exists e, per_algorithm, traces, t. repeat split; assumption.
Defined.


(** * Aggregate ranks *)

Lemma Qeq_bool_congr (x y z : Q) : Qeq_bool x y = true -> Qeq_bool z x = Qeq_bool z y.
Proof.
  intros H. destruct (Qeq_bool z y) eqn:E.
  - apply Qeq_bool_trans with y; [exact E | now apply Qeq_bool_sym].
  - destruct (Qeq_bool z x) eqn:E'; [|reflexivity].
    rewrite <- E. symmetry. now apply Qeq_bool_trans with x.
Qed.

Lemma find_is_some {A : Type} (p : A -> bool) (l : list A) :
  is_some (find p l) = existsb p l.
Proof. induction l as [|a l IH]; [reflexivity|]. simpl. now destruct (p a). Qed.

Lemma find_true {A : Type} (p : A -> bool) (l : list A) (a : A) :
  find p l = Some a -> p a = true /\ In a l.
Proof. intros H. apply find_some in H. tauto. Qed.

Lemma existsb_perm {A : Type} (p : A -> bool) (l l' : list A) :
  Permutation l l' -> existsb p l = existsb p l'.
Proof.
  induction 1 as [|x l l' _ IH|x y l|l l' l'' _ IH1 _ IH2]; simpl.
  - reflexivity.
  - now rewrite IH.
  - now destruct (p x), (p y).
  - now rewrite IH1.
Qed.

Lemma existsb_sorted {A K : Type} (ltb : K -> K -> bool) (key : A -> K) (p : A -> bool)
    (l : list A) :
  existsb p (sorted ltb key l) = existsb p l.
Proof. apply existsb_perm, sorted_perm. Qed.

Lemma existsb_dedup_labels (x : Q) (l : list Q) :
  existsb (fun y => Qeq_bool y x) (Ranking.dedup_labels l)
  = existsb (fun y => Qeq_bool y x) l.
Proof.
  induction l as [|x0 l IH]; [reflexivity|].
  simpl. destruct (existsb (Qeq_bool x0) l) eqn:E; simpl; rewrite IH; [|reflexivity].
  destruct (Qeq_bool x0 x) eqn:E0; [|reflexivity]. simpl.
  apply existsb_exists in E as (y & Hy & Hxy).
  apply existsb_exists. exists y. split; [exact Hy|].
  apply Qeq_bool_trans with x0; [now apply Qeq_bool_sym | exact E0].
Qed.

Section FrameFacts.
Import Aggregate.

Lemma row_at_Qeq (x y : Q) (t : Ranking.Table) :
  Qeq_bool x y = true -> row_at x t = row_at y t.
Proof.
  intros H. induction t as [|[x' cells] t IH]; [reflexivity|].
  simpl. now rewrite (@Qeq_bool_congr x y x' H), IH.
Qed.

Lemma row_at_labels (f : Q -> list (option Q)) (labels : list Q) (x : Q) :
  row_at x (map (fun y => (y, f y)) labels)
  = option_map f (find (fun y => Qeq_bool y x) labels).
Proof.
  induction labels as [|y labels IH]; [reflexivity|].
  simpl. now destruct (Qeq_bool y x).
Qed.

Lemma row_at_is_some (x : Q) (t : Ranking.Table) :
  is_some (row_at x t) = existsb (fun y => Qeq_bool y x) (map fst t).
Proof.
  induction t as [|[y cells] t IH]; [reflexivity|].
  simpl. now destruct (Qeq_bool y x).
Qed.

Lemma row_at_cells (g : list (option Q) -> list (option Q)) (x : Q) (t : Ranking.Table) :
  row_at x (map (fun row => (fst row, g (snd row))) t) = option_map g (row_at x t).
Proof.
  induction t as [|[y cells] t IH]; [reflexivity|].
  simpl. now destruct (Qeq_bool y x).
Qed.

Lemma index_of_nth (a : string) (names : list string) (j : nat) :
  index_of a names = Some j -> nth_error names j = Some a.
Proof.
  revert j. induction names as [|a' names IH]; intros j H; [discriminate|].
  simpl in H. destruct (String.eqb a' a) eqn:E.
  - injection H as <-. apply String.eqb_eq in E. now subst.
  - destruct (index_of a names) as [k|]; [|discriminate].
    injection H as <-. now apply IH.
Qed.

Lemma index_of_In (a : string) (names : list string) :
  is_some (index_of a names) = true <-> In a names.
Proof.
  induction names as [|a' names IH]; simpl; [split; [discriminate | intros []]|].
  destruct (String.eqb a' a) eqn:E.
  - apply String.eqb_eq in E. split; [now left | reflexivity].
  - apply String.eqb_neq in E. rewrite <- IH.
    destruct (index_of a names); simpl; split; auto; intros [H|H]; congruence.
Qed.

Lemma index_of_None (a : string) (names : list string) :
  index_of a names = None <-> ~ In a names.
Proof.
  rewrite <- index_of_In. destruct (index_of a names); simpl; split; congruence.
Qed.

Lemma nth_index_of {A : Type} (f : string -> option A) (a : string)
    (names : list string) (j : nat) :
  index_of a names = Some j -> nth j (map f names) None = f a.
Proof.
  intros H. apply index_of_nth in H.
  revert j H. induction names as [|a' names IH]; intros [|j] H; try discriminate.
  - now injection H as ->.
  - simpl. now apply IH.
Qed.

Lemma cell_Qeq (f : Frame) (x y : Q) (a : string) :
  Qeq_bool x y = true -> cell f x a = cell f y a.
Proof. intros H. unfold cell. now rewrite (@row_at_Qeq x y (snd f) H). Qed.

Lemma cell_no_row (f : Frame) (x : Q) (a : string) :
  has_row f x = false -> cell f x a = None.
Proof.
  unfold has_row, cell. now destruct (row_at x (snd f)).
Qed.

Lemma cell_no_column (f : Frame) (x : Q) (a : string) :
  ~ In a (fst f) -> cell f x a = None.
Proof.
  intros H. apply index_of_None in H. unfold cell. rewrite H.
  now destruct (row_at x (snd f)).
Qed.

Lemma has_row_table_add (f g : Frame) (x : Q) :
  has_row (table_add f g) x = has_row f x || has_row g x.
Proof.
  unfold has_row, table_add. cbn [snd].
  rewrite row_at_labels. destruct (find _ _) eqn:E; simpl.
  - pose proof (f_equal (@is_some Q) E) as E'. rewrite find_is_some in E'.
    rewrite existsb_sorted, existsb_dedup_labels, existsb_app in E'.
    now rewrite !row_at_is_some, E'.
  - pose proof (f_equal (@is_some Q) E) as E'. rewrite find_is_some in E'.
    rewrite existsb_sorted, existsb_dedup_labels, existsb_app in E'.
    now rewrite !row_at_is_some, E'.
Qed.

Lemma cell_table_add (f g : Frame) (x : Q) (a : string) :
  cell (table_add f g) x a = add_cells (cell f x a) (cell g x a).
Proof.
  destruct (has_row (table_add f g) x) eqn:Hrow.
  - unfold cell at 1. unfold has_row in Hrow. unfold table_add in *. cbn [fst snd] in *.
    rewrite row_at_labels in *.
    destruct (find (fun y => Qeq_bool y x) _) as [y|] eqn:E; [|discriminate]. simpl.
    apply find_true in E as [Hy _].
    set (names := fst f ++ filter (fun a0 => negb (existsb (String.eqb a0) (fst f))) (fst g)).
    destruct (index_of a names) as [j|] eqn:Ej.
    + rewrite (@nth_index_of _ (fun a0 => add_cells (cell f y a0) (cell g y a0)) a names j Ej).
      now rewrite (@cell_Qeq f y x a Hy), (@cell_Qeq g y x a Hy).
    + apply index_of_None in Ej.
      assert (Hf : ~ In a (fst f)) by (intros H; apply Ej, in_or_app; now left).
      assert (Hg : ~ In a (fst g)).
      { intros H. apply Ej, in_or_app. right. apply filter_In. split; [exact H|].
        apply negb_true_iff. destruct (existsb (String.eqb a) (fst f)) eqn:Ex; [|reflexivity].
        apply existsb_exists in Ex as (a' & Ha' & Heq). apply String.eqb_eq in Heq.
        now subst. }
      now rewrite (@cell_no_column f x a Hf), (@cell_no_column g x a Hg).
  - rewrite (@cell_no_row _ x a Hrow). rewrite has_row_table_add in Hrow.
    apply orb_false_iff in Hrow as [Hf Hg].
    now rewrite (@cell_no_row f x a Hf).
Qed.

Lemma has_row_table_div (f : Frame) (n : nat) (x : Q) :
  has_row (table_div f n) x = has_row f x.
Proof.
  unfold has_row, table_div. cbn [snd]. rewrite row_at_cells.
  now destruct (row_at x (snd f)).
Qed.

Lemma cell_table_div (f : Frame) (n : nat) (x : Q) (a : string) :
  cell (table_div f n) x a
  = option_map (fun v => v / inject_Z (Z.of_nat n)) (cell f x a).
Proof.
  unfold cell, table_div. cbn [fst snd]. rewrite row_at_cells.
  destruct (row_at x (snd f)) as [cells|]; [|reflexivity]. simpl.
  destruct (index_of a (fst f)) as [j|]; [|reflexivity].
  apply (map_nth (option_map (fun v => v / inject_Z (Z.of_nat n))) cells None j).
Qed.

Lemma cell_fold (fs : list Frame) (x : Q) (a : string) :
  forall f,
    cell (fold_left table_add fs f) x a
    = fold_left add_cells (map (fun g => cell g x a) fs) (cell f x a).
Proof.
  induction fs as [|g fs IH]; intros f; [reflexivity|].
  simpl. now rewrite IH, cell_table_add.
Qed.

Lemma has_row_fold (fs : list Frame) (x : Q) :
  forall f,
    has_row (fold_left table_add fs f) x
    = has_row f x || existsb (fun g => has_row g x) fs.
Proof.
  induction fs as [|g fs IH]; intros f; simpl; [now rewrite orb_false_r|].
  now rewrite IH, has_row_table_add, orb_assoc.
Qed.
End FrameFacts.

Lemma same_cell_refl (u : option Q) : same_cell u u.
Proof. destruct u; simpl; [apply Qeq_refl | exact I]. Qed.

Lemma same_cell_trans (u v w : option Q) : same_cell u v -> same_cell v w -> same_cell u w.
Proof.
  destruct u, v, w; simpl; try tauto. intros H1 H2. now rewrite H1.
Qed.

Lemma same_cell_map (k : Q) (u v : option Q) :
  same_cell u v -> same_cell (option_map (fun x => x / k) u) (option_map (fun x => x / k) v).
Proof. destruct u, v; simpl; try tauto. intros H. now rewrite H. Qed.

Lemma total_add_cells (c c1 : option Q) (cs : list (option Q)) :
  same_cell (total (Aggregate.add_cells c c1 :: cs)) (total (c :: c1 :: cs)).
Proof.
  unfold total. destruct c as [a|], c1 as [b|]; simpl; try exact I.
  destruct (forallb _ cs); simpl; [|exact I]. symmetry. apply Qplus_assoc.
Qed.

Lemma fold_add_cells (cs : list (option Q)) :
  forall c, same_cell (fold_left Aggregate.add_cells cs c) (total (c :: cs)).
Proof.
  induction cs as [|c1 cs IH]; intros c.
  - unfold total. destruct c; simpl; [|exact I]. symmetry. apply Qplus_0_r.
  - simpl fold_left. eapply same_cell_trans; [apply IH | apply total_add_cells].
Qed.

Section SemFacts.
Import Aggregate.

Lemma lookup_Qeq (x y : Q) (s : Ranking.Series) :
  Qeq_bool x y = true -> Ranking.lookup x s = Ranking.lookup y s.
Proof.
  intros H. induction s as [|[x' v] s IH]; [reflexivity|].
  simpl. now rewrite (@Qeq_bool_congr x y x' H), IH.
Qed.

Lemma lookup_rows (h : list (option Q) -> option Q) (t : Ranking.Table) (x : Q) :
  Ranking.lookup x (map (fun row => (fst row, h (snd row))) t)
  = match row_at x t with Some cells => h cells | None => None end.
Proof.
  induction t as [|[y cells] t IH]; [reflexivity|].
  simpl. now destruct (Qeq_bool y x).
Qed.

Lemma lookup_no_label (x : Q) (s : Ranking.Series) :
  existsb (fun y => Qeq_bool y x) (map fst s) = false -> Ranking.lookup x s = None.
Proof.
  induction s as [|[y v] s IH]; [reflexivity|].
  simpl. destruct (Qeq_bool y x); [discriminate | exact IH].
Qed.

Lemma lookup_column (f : Frame) (a : string) (c : Ranking.Series) (x : Q) :
  column a f = Ok c -> Ranking.lookup x c = cell f x a.
Proof.
  unfold column, cell. destruct (index_of a (fst f)) as [j|]; [|discriminate].
  intros [= <-]. rewrite (lookup_rows (fun cells => nth j cells None)).
  now destruct (row_at x (snd f)).
Qed.

Lemma align_row (columns : list Ranking.Series) (x : Q) :
  match row_at x (Ranking.align columns None) with
  | Some cells => cells = map (Ranking.lookup x) columns
  | None => Forall (fun s => Ranking.lookup x s = None) columns
  end.
Proof.
  unfold Ranking.align. rewrite row_at_labels.
  destruct (find _ _) as [y|] eqn:E; simpl.
  - apply find_true in E as [Hy _]. apply map_ext. intros s0.
    now apply lookup_Qeq.
  - pose proof (f_equal (@is_some Q) E) as E'. rewrite find_is_some in E'.
    rewrite existsb_sorted, existsb_dedup_labels in E'. simpl in E'.
    apply Forall_forall. intros s0 Hs. apply lookup_no_label.
    destruct (existsb (fun y => Qeq_bool y x) (map fst s0)) eqn:Ex; [|reflexivity].
    rewrite <- E'. symmetry. apply existsb_exists.
    apply existsb_exists in Ex as (y & Hy & Hxy). exists y. split; [|exact Hxy].
    apply in_concat. exists (map fst s0). split; [|exact Hy].
    apply in_map_iff. now exists s0.
Qed.

Lemma present_none {A : Type} (f : A -> option Q) (l : list A) :
  Forall (fun a => f a = None) l -> Ranking.present (map f l) = [].
Proof.
  induction 1 as [|a l Ha _ IH]; [reflexivity|].
  unfold Ranking.present in *. simpl. now rewrite Ha, IH.
Qed.

Lemma lookup_sem (columns : list Ranking.Series) (x : Q) :
  Ranking.lookup x (sem (Ranking.align columns None))
  = sem_squared (Ranking.present (map (Ranking.lookup x) columns)).
Proof.
  unfold sem. rewrite (lookup_rows (fun cells => sem_squared (Ranking.present cells))).
  pose proof (align_row columns x) as H.
  destruct (row_at x (Ranking.align columns None)) as [cells|].
  - now subst cells.
  - now rewrite (present_none _ H).
Qed.

Lemma sem_frame_cell (algorithms : list string) (per : string -> list Ranking.Series)
    (x : Q) (a : string) :
  In a algorithms ->
  cell (algorithms,
        Ranking.align (map (fun a' => sem (Ranking.align (per a') None)) algorithms) None)
       x a
  = sem_squared (Ranking.present (map (Ranking.lookup x) (per a))).
Proof.
  intros Ha. unfold cell. cbn [fst snd].
  apply index_of_In in Ha. destruct (index_of a algorithms) as [j|] eqn:Ej; [|discriminate].
  set (sems := map (fun a' => sem (Ranking.align (per a') None)) algorithms).
  pose proof (align_row sems x) as H.
  destruct (row_at x (Ranking.align sems None)) as [cells|].
  - subst cells. unfold sems. rewrite map_map.
    rewrite (@nth_index_of _ (fun a' => Ranking.lookup x (sem (Ranking.align (per a') None)))
               a algorithms j Ej).
    apply lookup_sem.
  - rewrite <- lookup_sem. symmetry.
    rewrite Forall_forall in H. apply H. unfold sems.
    apply in_map_iff. exists a. split; [reflexivity|].
    apply index_of_nth in Ej. eapply nth_error_In, Ej.
Qed.
End SemFacts.

Section SetFacts.
Import Aggregate.

Lemma set_of_incl {A : Type} (eqb : A -> A -> bool) (xs : list A) (a : A) :
  In a (set_of eqb xs) -> In a xs.
Proof.
  induction xs as [|x xs IH]; [intros []|].
  simpl. destruct (existsb (eqb x) xs); [right; auto|].
  intros [<-|H]; [now left | right; auto].
Qed.

Lemma existsb_set_of {A : Type} (eqb : A -> A -> bool) (p : A -> bool) (xs : list A) :
  (forall a b, eqb a b = true -> p a = true -> p b = true) ->
  existsb p (set_of eqb xs) = existsb p xs.
Proof.
  intros Hp. induction xs as [|x xs IH]; [reflexivity|].
  simpl. destruct (existsb (eqb x) xs) eqn:E; simpl; rewrite IH; [|reflexivity].
  destruct (p x) eqn:Ex; [|reflexivity]. simpl.
  apply existsb_exists in E as (y & Hy & Hxy).
  apply existsb_exists. exists y. split; [exact Hy|]. now apply (Hp x y).
Qed.

Lemma set_of_In {A : Type} (eqb : A -> A -> bool) (xs : list A) (a : A) :
  (forall a b, eqb a b = true <-> a = b) ->
  (In a (set_of eqb xs) <-> In a xs).
Proof.
  intros Hspec. split; [apply set_of_incl|].
  induction xs as [|x xs IH]; [intros []|].
  simpl. destruct (existsb (eqb x) xs) eqn:E.
  - intros [<-|H]; [|auto].
    apply existsb_exists in E as (y & Hy & Hxy). apply Hspec in Hxy. subst y. auto.
  - intros [<-|H]; [now left | right; auto].
Qed.

Lemma set_of_NoDup {A : Type} (eqb : A -> A -> bool) (xs : list A) :
  (forall a b, eqb a b = true <-> a = b) -> NoDup (set_of eqb xs).
Proof.
  intros Hspec. induction xs as [|x xs IH]; [constructor|].
  simpl. destruct (existsb (eqb x) xs) eqn:E; [exact IH|].
  constructor; [|exact IH]. intros Hin. apply set_of_incl in Hin.
  assert (Ht : existsb (eqb x) xs = true).
  { apply existsb_exists. exists x. split; [exact Hin | now apply Hspec]. }
  congruence.
Qed.

Lemma existsb_concat_map {A B : Type} (p : B -> bool) (f : A -> list B) (l : list A) :
  existsb p (List.concat (map f l)) = existsb (fun a => existsb p (f a)) l.
Proof.
  induction l as [|a l IH]; [reflexivity|]. simpl. now rewrite existsb_app, IH.
Qed.

Lemma existsb_flat_map {A B : Type} (p : B -> bool) (f : A -> list B) (l : list A) :
  existsb p (flat_map f l) = existsb (fun a => existsb p (f a)) l.
Proof.
  induction l as [|a l IH]; [reflexivity|]. simpl. now rewrite existsb_app, IH.
Qed.

Lemma existsb_ext_in {A : Type} (p q : A -> bool) (l : list A) :
  (forall a, In a l -> p a = q a) -> existsb p l = existsb q l.
Proof.
  induction l as [|a l IH]; intros H; [reflexivity|].
  simpl. rewrite (H a (or_introl eq_refl)), IH; [reflexivity|].
  intros b Hb. apply H. now right.
Qed.

Lemma same_value_respects (v a b : option Q) :
  option_eqb Qeq_bool a b = true ->
  option_eqb Qeq_bool v a = true -> option_eqb Qeq_bool v b = true.
Proof. intros Hab Hva. exact (option_Q_eqb_trans _ _ _ Hva Hab). Qed.

Lemma algorithm_indices_Ok (xaxis : attr) (ar : Ranking.AlgorithmResults) :
  algorithm_indices xaxis false ar
  = Ok (set_of (option_eqb Qeq_bool)
               (List.concat (map (fun st : Z * Trace Q =>
                                    map (getattr xaxis) (results (snd st))) ar))).
Proof.
  unfold algorithm_indices, trace_indices, sort_indices.
  now rewrite (mapM_pure (fun st : Z * Trace Q => map (getattr xaxis) (results (snd st)))).
Qed.

Lemma benchmark_indices_Ok (xaxis : attr) (br : Ranking.BenchmarkResults) :
  benchmark_indices xaxis false br
  = Ok (set_of (option_eqb Qeq_bool)
          (List.concat
             (map (fun ar : string * Ranking.AlgorithmResults =>
                     set_of (option_eqb Qeq_bool)
                       (List.concat (map (fun st : Z * Trace Q =>
                                            map (getattr xaxis) (results (snd st)))
                                         (snd ar))))
                  br))).
Proof.
  unfold benchmark_indices, sort_indices.
  rewrite (@mapM_ext_Ok _ _ _
             (fun ar : string * Ranking.AlgorithmResults =>
                set_of (option_eqb Qeq_bool)
                  (List.concat (map (fun st : Z * Trace Q =>
                                       map (getattr xaxis) (results (snd st)))
                                    (snd ar))))).
  - reflexivity.
  - intros ar _. apply algorithm_indices_Ok.
Qed.

Lemma indices_Ok (B : Type) (xaxis : attr) (e : @Experiment.ExperimentResults Q B) :
  exists universe,
    indices xaxis false e = Ok universe /\
    (forall w, In w universe -> In w (axis_values xaxis e)) /\
    (forall v, existsb (option_eqb Qeq_bool v) universe
               = existsb (option_eqb Qeq_bool v) (axis_values xaxis e)).
Proof.
  unfold indices, sort_indices.
  rewrite (@mapM_ext_Ok _ _ _
             (fun br : string * Ranking.BenchmarkResults =>
                set_of (option_eqb Qeq_bool)
                  (List.concat
                     (map (fun ar : string * Ranking.AlgorithmResults =>
                             set_of (option_eqb Qeq_bool)
                               (List.concat (map (fun st : Z * Trace Q =>
                                                    map (getattr xaxis) (results (snd st)))
                                                 (snd ar))))
                          (snd br)))))
    by (intros br _; apply benchmark_indices_Ok).
  simpl bind. eexists. split; [reflexivity|]. unfold axis_values. split.
  - intros w Hw. apply set_of_incl, in_concat in Hw as (l & Hl & Hw).
    apply in_map_iff in Hl as (br & <- & Hbr).
    apply set_of_incl, in_concat in Hw as (l & Hl & Hw).
    apply in_map_iff in Hl as (ar & <- & Har).
    apply set_of_incl, in_concat in Hw as (l & Hl & Hw).
    apply in_map_iff in Hl as (st & <- & Hst).
    apply in_flat_map. exists br. split; [exact Hbr|].
    apply in_flat_map. exists ar. split; [exact Har|].
    apply in_flat_map. exists st. split; [exact Hst | exact Hw].
  - intros v.
    rewrite (existsb_set_of _ _ _ (same_value_respects v)).
    rewrite existsb_concat_map, existsb_flat_map.
    apply existsb_ext_in. intros br _.
    rewrite (existsb_set_of _ _ _ (same_value_respects v)).
    rewrite existsb_concat_map, existsb_flat_map.
    apply existsb_ext_in. intros ar _.
    rewrite (existsb_set_of _ _ _ (same_value_respects v)).
    now rewrite existsb_concat_map, existsb_flat_map.
Qed.

Lemma labels_Ok (universe : list (option Q)) :
  Forall (fun w => is_some w = true) universe ->
  exists labels,
    mapM label universe = Ok labels /\
    forall x, existsb (fun y => Qeq_bool y x) labels
              = existsb (option_eqb Qeq_bool (Some x)) universe.
Proof.
  induction 1 as [|w universe Hw _ (labels & Hl & Hmem)].
  - exists []. split; [reflexivity | reflexivity].
  - destruct w as [v|]; [|discriminate]. exists (v :: labels).
    split; [simpl; now rewrite Hl|].
    intros x. simpl. now rewrite Hmem, Qeq_bool_comm.
Qed.

Lemma seeds_spec (B : Type) (e : @Experiment.ExperimentResults Q B) :
  NoDup (seeds e) /\
  forall s, In s (seeds e) <->
    exists b br a ar,
      In (b, br) (Experiment.results e) /\ In (a, ar) br /\ In s (dict_keys ar).
Proof.
  unfold seeds, benchmark_seeds. split; [apply set_of_NoDup, Zeqb_spec|].
  intros s. rewrite (set_of_In _ _ _ Zeqb_spec), in_concat. split.
  - intros (l & Hl & Hs). apply in_map_iff in Hl as ([b br] & <- & Hbr).
    apply (set_of_In _ _ _ Zeqb_spec), in_concat in Hs as (l & Hl & Hs).
    apply in_map_iff in Hl as ([a ar] & <- & Har).
    now exists b, br, a, ar.
  - intros (b & br & a & ar & Hbr & Har & Hs).
    eexists. split; [apply in_map_iff; exists (b, br); split; [reflexivity | exact Hbr]|].
    apply (set_of_In _ _ _ Zeqb_spec), in_concat.
    eexists. split; [apply in_map_iff; exists (a, ar); split; [reflexivity | exact Har]|].
    exact Hs.
Qed.
End SetFacts.

Lemma ffill_from_labels (t : Ranking.Table) :
  forall last, map fst (Ranking.ffill_from last t) = map fst t.
Proof.
  induction t as [|[x cells] t IH]; intros last; [reflexivity|].
  simpl. now rewrite IH.
Qed.

Lemma ffill_labels (t : Ranking.Table) : map fst (Ranking.ffill t) = map fst t.
Proof.
  destruct t as [|[x cells] t]; [reflexivity|]. simpl. now rewrite ffill_from_labels.
Qed.

Lemma align_labels (columns : list Ranking.Series) (labels : list Q) (x : Q) :
  existsb (fun y => Qeq_bool y x) (map fst (Ranking.align columns (Some labels)))
  = existsb (fun y => Qeq_bool y x) (List.concat (map (map fst) columns))
    || existsb (fun y => Qeq_bool y x) labels.
Proof.
  unfold Ranking.align. rewrite map_map. cbn [fst]. rewrite map_id.
  now rewrite existsb_sorted, existsb_dedup_labels, existsb_app.
Qed.

(** The column of one algorithm: the incumbent trace of a non-empty trace
    whose records carry the axis, as a series; its labels are axis values
    of records of the trace. *)
Lemma column_total (xaxis yaxis : attr) (t : Trace Q) :
  results t <> [] -> populated xaxis (results t) ->
  exists t' c,
    incumbent_trace xaxis "loss" t = Ok t' /\
    Ranking.series xaxis yaxis t' = Ok c /\
    forall y, In y (map fst c) ->
      exists r, In r (results t) /\ getattr xaxis r = Some y.
Proof.
  intros Hne Hpop.
  destruct (sorted olt (getattr xaxis) (results t)) as [|inc rest] eqn:Es.
  { exfalso. apply Hne. apply length_zero_iff_nil.
    rewrite <- (sorted_length olt (getattr xaxis)), Es. reflexivity. }
  set (t' := mkTrace (inc :: incumbents_after inc rest)).
  assert (H1 : incumbent_trace xaxis "loss" t = Ok t').
  { apply incumbent_trace_Ok. exists inc, rest.
    split; [exact Es|]. split; [now right | reflexivity]. }
  assert (Hsub : forall r, In r (results t') -> In r (results t)).
  { intros r Hr. apply (sorted_In olt (getattr xaxis)). rewrite Es.
    apply (@subseq_In _ (inc :: incumbents_after inc rest) (inc :: rest) r);
      [apply subseq_keep, incumbents_after_subseq | exact Hr]. }
  set (g := fun r : Result Q =>
              (match getattr xaxis r with Some x => x | None => 0 end, getattr yaxis r)).
  assert (H2 : Ranking.series xaxis yaxis t'
               = Ok (sorted fltb fst (map g (results t')))).
  { unfold Ranking.series. rewrite (@mapM_ext_Ok _ _ _ g); [reflexivity|].
    intros r Hr. unfold g. unfold populated in Hpop. rewrite Forall_forall in Hpop.
    specialize (Hpop r (Hsub r Hr)). now destruct (getattr xaxis r). }
  exists t', (sorted fltb fst (map g (results t'))).
  split; [exact H1|]. split; [exact H2|].
  intros y Hy. apply in_map_iff in Hy as ([y' v] & <- & Hin).
  apply sorted_In, in_map_iff in Hin as (r & Hg & Hr).
  exists r. split; [now apply Hsub|].
  unfold populated in Hpop. rewrite Forall_forall in Hpop.
  specialize (Hpop r (Hsub r Hr)). unfold g in Hg.
  destruct (getattr xaxis r); [|discriminate]. now injection Hg as <- _.
Qed.

(** A per-seed rank table exists when every algorithm has a non-empty
    trace for the seed whose records carry the axis; its labels are the
    axis values observed for the seed and the supplied ones. *)
Lemma ranks_total (xaxis yaxis : attr) (seed : Z) (labels : list Q)
    (br : Ranking.BenchmarkResults) :
  (forall a ar, In (a, ar) br ->
     exists t, dict_get Z.eqb seed ar = Ok t /\
               results t <> [] /\ populated xaxis (results t)) ->
  exists tbl columns,
    Ranking.ranks xaxis yaxis seed (Some labels) br = Ok tbl /\
    map fst tbl = map fst (Ranking.align columns (Some labels)) /\
    forall y, In y (List.concat (map (map fst) columns)) ->
      exists a ar t r,
        In (a, ar) br /\ dict_get Z.eqb seed ar = Ok t /\
        In r (results t) /\ getattr xaxis r = Some y.
Proof.
  intros Hall.
  set (T := fun ar : Ranking.AlgorithmResults =>
              match dict_get Z.eqb seed ar with Ok t => t | Raise _ => mkTrace [] end).
  set (I := fun t : Trace Q =>
              match incumbent_trace xaxis "loss" t with
              | Ok t' => t'
              | Raise _ => mkTrace []
              end).
  set (S := fun t' : Trace Q =>
              match Ranking.series xaxis yaxis t' with Ok c => c | Raise _ => [] end).
  assert (Hcol : forall a ar, In (a, ar) br ->
            dict_get Z.eqb seed ar = Ok (T ar) /\
            incumbent_trace xaxis "loss" (T ar) = Ok (I (T ar)) /\
            Ranking.series xaxis yaxis (I (T ar)) = Ok (S (I (T ar))) /\
            forall y, In y (map fst (S (I (T ar)))) ->
              exists r, In r (results (T ar)) /\ getattr xaxis r = Some y).
  { intros a ar Har. destruct (Hall a ar Har) as (t & Ht & Hne & Hpop).
    destruct (@column_total xaxis yaxis t Hne Hpop) as (t' & c & H1 & H2 & H3).
    unfold T. rewrite Ht. unfold I. rewrite H1. unfold S. rewrite H2. auto. }
  set (g1 := fun ar : string * Ranking.AlgorithmResults =>
               (fst ar, [(seed, T (snd ar))])).
  set (g2 := fun ar : string * Ranking.AlgorithmResults =>
               (fst ar, [(seed, I (T (snd ar)))])).
  set (g3 := fun ar : string * Ranking.AlgorithmResults => S (I (T (snd ar)))).
  exists (map (fun row => (fst row, Ranking.rank_average (snd row)))
              (Ranking.ffill (Ranking.align (map g3 br) (Some labels)))),
         (map g3 br).
  split; [|split].
  - unfold Ranking.ranks.
    rewrite (@mapM_ext_Ok _ _ _ g1 br).
    2:{ intros [a ar] Har. destruct (Hcol a ar Har) as (H1 & _).
        unfold Ranking.select, g1. cbn [fst snd]. now rewrite H1. }
    simpl bind.
    rewrite (@mapM_ext_Ok _ _ _ (fun sr : string * Ranking.AlgorithmResults =>
                                   (fst sr, map (fun st : Z * Trace Q => (fst st, I (snd st)))
                                                (snd sr)))
               (map g1 br)).
    2:{ intros sr Hsr. apply in_map_iff in Hsr as ([a ar] & <- & Har).
        destruct (Hcol a ar Har) as (_ & H2 & _).
        unfold Ranking.incumbent_traces, g1. cbn [fst snd mapM]. now rewrite H2. }
    simpl bind.
    rewrite (@mapM_ext_Ok _ _ _
               (fun ir : string * Ranking.AlgorithmResults =>
                  match snd ir with
                  | [(_, t')] => S t'
                  | _ => []
                  end)
               (map (fun sr : string * Ranking.AlgorithmResults =>
                       (fst sr, map (fun st : Z * Trace Q => (fst st, I (snd st))) (snd sr)))
                    (map g1 br))).
    + simpl bind. rewrite !map_map. reflexivity.
    + intros ir Hir. rewrite map_map in Hir.
      apply in_map_iff in Hir as ([a ar] & <- & Har).
      destruct (Hcol a ar Har) as (_ & _ & H3 & _).
      unfold g1. cbn [fst snd map]. unfold Ranking.df. exact H3.
  - rewrite map_map. cbn [fst]. rewrite <- (ffill_labels (Ranking.align _ _)).
    reflexivity.
  - intros y Hy. apply in_concat in Hy as (l & Hl & Hy).
    rewrite map_map in Hl. apply in_map_iff in Hl as ([a ar] & <- & Har).
    destruct (Hcol a ar Har) as (H1 & _ & _ & H4).
    destruct (H4 y Hy) as (r & Hr & Hv).
    now exists a, ar, (T ar), r.
Qed.

Lemma pair_eqb_spec (p q : string * Z) : Aggregate.pair_eqb p q = true <-> p = q.
Proof.
  destruct p as [b s], q as [b' s']. unfold Aggregate.pair_eqb. simpl.
  rewrite andb_true_iff, String.eqb_eq, Z.eqb_eq. split; [intros [-> ->] | intros [= -> ->]]; auto.
Qed.

Lemma dict_get_entry {K V : Type} (eqb : K -> K -> bool) (k : K) (v : V)
    (d : list (K * V)) :
  (forall a b, eqb a b = true <-> a = b) ->
  dict_get eqb k d = Ok v -> In (k, v) d.
Proof.
  intros Hspec. induction d as [|[k' v'] d IH]; [discriminate|].
  simpl. destruct (eqb k' k) eqn:E.
  - apply Hspec in E. intros [= ->]. subst. now left.
  - intros H. right. now apply IH.
Qed.

Lemma dict_get_NoDup {K V : Type} (eqb : K -> K -> bool) (k : K) (v : V)
    (d : list (K * V)) :
  (forall a b, eqb a b = true <-> a = b) ->
  NoDup (dict_keys d) -> In (k, v) d -> dict_get eqb k d = Ok v.
Proof.
  intros Hspec. induction d as [|[k' v'] d IH]; intros Hnd Hin; [destruct Hin|].
  inversion Hnd as [|? ? Hk Hd]; subst. simpl.
  destruct Hin as [[= -> ->]|Hin].
  - now rewrite (proj2 (Hspec k k) eq_refl).
  - destruct (eqb k' k) eqn:E; [|now apply IH].
    apply Hspec in E. subst k'. exfalso. apply Hk.
    apply in_map_iff. now exists (k, v).
Qed.

Lemma dict_of_entries {K V : Type} (eqb : K -> K -> bool) (k : K) (v : V)
    (items : list (K * V)) :
  (forall a b, eqb a b = true <-> a = b) ->
  In (k, v) (dict_of eqb items) -> In (k, v) items.
Proof.
  intros Hspec Hin. apply (@dict_of_get _ eqb Hspec _ k v items).
  apply (@dict_get_NoDup _ _ eqb k v _ Hspec);
    [apply (proj1 (dict_of_keys eqb Hspec items)) | exact Hin].
Qed.

Lemma columns_cells (a : string) (x : Q) (ranked : list (string * Z * Aggregate.Frame))
    (cols : list Ranking.Series) :
  mapM (fun kv => Aggregate.column a (snd kv)) ranked = Ok cols ->
  map (Ranking.lookup x) cols = map (fun kv => Aggregate.cell (snd kv) x a) ranked.
Proof.
  intros H. apply mapM_Forall2 in H.
  induction H as [|kv c ranked cols Hc _ IH]; [reflexivity|].
  simpl. now rewrite IH, (lookup_column _ _ x Hc).
Qed.

Lemma sem_squared_spec (samples : list Q) :
  standard_error_squared samples (Aggregate.sem_squared samples).
Proof.
  unfold standard_error_squared, Aggregate.sem_squared.
  destruct (List.length samples <? 2)%nat eqn:E.
  - now apply Nat.ltb_lt.
  - apply Nat.ltb_ge in E. split; [exact E|].
    set (n := inject_Z (Z.of_nat (List.length samples))).
    assert (Hn : ~ n == 0).
    { unfold n, Qeq. simpl. lia. }
    assert (Hn1 : ~ n - 1 == 0).
    { unfold n, Qeq. simpl. lia. }
    exists (fold_right Qplus 0 samples / n). split; field; auto.
Qed.

(** C6, amended: on an experiment that is rankable, the ranks of the
    experiment return.  The tables that are aggregated are the per-seed
    rank tables of the pairs in the product of the benchmarks and the
    union of the seeds, one per pair, each extended to the axis values of
    the whole experiment; the table of the means has those axis values as
    rows and in every place the average of the pairs' values there,
    missing when one of them is; the table of the uncertainties has, for
    every algorithm of the experiment, the squared standard error of the
    mean of the pairs' values there that are not missing (their sample
    variance over their number), missing when fewer than two pairs have
    a value there. *)
Theorem experiment_ranks (B : Type) (xaxis yaxis : attr)
    (e : @Experiment.ExperimentResults Q B) :
  rankable xaxis e ->
  exists means stds ranked,
    Aggregate.ranks xaxis yaxis e = Ok (means, stds) /\
    NoDup (map fst ranked) /\
    (forall b s, In (b, s) (map fst ranked) <->
                 In b (Experiment.benchmarks e) /\ In s (Aggregate.seeds e)) /\
    (forall s, In s (Aggregate.seeds e) <->
               exists b br a ar,
                 In (b, br) (Experiment.results e) /\ In (a, ar) br /\
                 In s (dict_keys ar)) /\
    Forall (fun kv => per_seed_table xaxis yaxis e (fst kv) (snd kv)) ranked /\
    (forall x, has_row means x = true <-> on_axis xaxis e x) /\
    (forall x a,
        same_cell (Aggregate.cell means x a)
                  (average (map (fun kv => Aggregate.cell (snd kv) x a) ranked))) /\
    (forall x a, In a (Experiment.algorithms e) ->
        standard_error_squared
          (Ranking.present (map (fun kv => Aggregate.cell (snd kv) x a) ranked))
          (Aggregate.cell stds x a)).
Proof.
  intros (Hbench & Hseeds & Hkeys & Htraces & Halgos).
  destruct (indices_Ok xaxis e) as (universe & Hidx & Hincl & Hmem).
  assert (Hsome : Forall (fun w => is_some w = true) universe).
  { apply Forall_forall. intros w Hw. apply Hincl in Hw. unfold axis_values in Hw.
    apply in_flat_map in Hw as ([b br] & Hbr & Hw).
    apply in_flat_map in Hw as ([a ar] & Har & Hw).
    apply in_flat_map in Hw as ([s0 t] & Ht & Hw).
    apply in_map_iff in Hw as (r & <- & Hr).
    destruct (Htraces b br a ar Hbr Har) as [_ Hpop].
    destruct (Hpop s0 t Ht) as [_ Hp]. unfold populated in Hp.
    rewrite Forall_forall in Hp. now apply Hp. }
  destruct (labels_Ok Hsome) as (labels & Hlabels & Hlmem).
  assert (HL : forall x, existsb (fun y => Qeq_bool y x) labels = true <-> on_axis xaxis e x).
  { intros x. unfold on_axis. now rewrite Hlmem, Hmem. }
  set (step := fun bs : string * Z =>
                 benchmark_results <-
                   dict_get String.eqb (fst bs) (Experiment.results e) ;;
                 Aggregate.benchmark_ranks xaxis yaxis (snd bs) universe benchmark_results).
  set (G := fun bs : string * Z =>
              match step bs with Ok f => f | Raise _ => ([], []) end).
  set (pairs := list_prod (Experiment.benchmarks e) (Aggregate.seeds e)).
  assert (Hstep : forall bs, In bs pairs ->
            step bs = Ok (G bs) /\ per_seed_table xaxis yaxis e bs (G bs)).
  { intros [b s0] Hbs. apply in_prod_iff in Hbs as [Hb Hs].
    destruct (dict_get_In String.eqb String_eqb_spec _ _ (Hkeys b Hb)) as (br & Hbr).
    pose proof (dict_get_entry String.eqb _ _ String_eqb_spec Hbr) as Hin.
    destruct (@ranks_total xaxis yaxis s0 labels br) as (tbl & columns & Hr & Hfst & Hobs).
    { intros a ar Har. destruct (Htraces b br a ar Hin Har) as [Hall Hpop].
      destruct (dict_get_In Z.eqb Zeqb_spec _ _ (Hall s0 Hs)) as (t & Ht).
      exists t. split; [exact Ht|].
      apply Hpop with s0. exact (dict_get_entry Z.eqb _ _ Zeqb_spec Ht). }
    assert (Hs1 : step (b, s0) = Ok (dict_keys br, tbl)).
    { unfold step. cbn [fst snd]. rewrite Hbr. simpl bind.
      unfold Aggregate.benchmark_ranks. now rewrite Hlabels, Hr. }
    unfold G. rewrite Hs1. split; [reflexivity|].
    exists br, labels. cbn [fst snd].
    split; [exact Hbr|]. split; [exact HL|]. split; [exact Hr|]. split; [reflexivity|].
    intros x. unfold has_row. cbn [snd].
    rewrite row_at_is_some, Hfst, align_labels, <- HL. split.
    - intros H. apply orb_true_iff in H as [H|H]; [|exact H].
      apply existsb_exists in H as (y & Hy & Hyx).
      destruct (Hobs y Hy) as (a & ar & t & r & Har & Ht & Hr' & Hv).
      assert (Hon : on_axis xaxis e y).
      { unfold on_axis, axis_values. apply existsb_exists. exists (Some y).
        split; [|simpl; apply Qeq_bool_refl].
        apply in_flat_map. exists (b, br). split; [exact Hin|].
        apply in_flat_map. exists (a, ar). split; [exact Har|].
        apply in_flat_map. exists (s0, t).
        split; [exact (dict_get_entry Z.eqb _ _ Zeqb_spec Ht)|].
        apply in_map_iff. now exists r. }
      apply HL in Hon. apply existsb_exists in Hon as (z & Hz & Hzy).
      apply existsb_exists. exists z. split; [exact Hz|].
      now apply Qeq_bool_trans with y.
    - intros H. rewrite H. apply orb_true_r. }
  set (items := map (fun bs => (bs, G bs)) pairs).
  assert (Hitems : mapM (fun bs : string * Z =>
                           benchmark_results <-
                             dict_get String.eqb (fst bs) (Experiment.results e) ;;
                           rank_df <- Aggregate.benchmark_ranks xaxis yaxis (snd bs)
                                        universe benchmark_results ;;
                           Ok (bs, rank_df)) pairs = Ok items).
  { apply mapM_ext_Ok. intros bs Hbs. destruct (Hstep bs Hbs) as [Hs _].
    unfold step in Hs.
    destruct (dict_get String.eqb (fst bs) (Experiment.results e)) as [br|]; [|discriminate].
    simpl bind in *. now rewrite Hs. }
  set (ranked := dict_of Aggregate.pair_eqb items).
  assert (Hfst_items : map fst items = pairs).
  { unfold items. rewrite map_map. cbn [fst]. apply map_id. }
  destruct (dict_of_keys Aggregate.pair_eqb pair_eqb_spec items) as [Hnd Hk].
  fold ranked in Hnd, Hk. rewrite Hfst_items in Hk.
  assert (Hranked : Forall (fun kv => per_seed_table xaxis yaxis e (fst kv) (snd kv)) ranked).
  { apply Forall_forall. intros [bs f] Hkv.
    apply (@dict_of_entries _ _ Aggregate.pair_eqb bs f items pair_eqb_spec) in Hkv.
    apply in_map_iff in Hkv as (bs' & [= -> <-] & Hbs').
    now apply Hstep. }
  destruct ranked as [|kv0 rest] eqn:Eranked.
  { exfalso. destruct (Experiment.benchmarks e) as [|b bl] eqn:Eb; [congruence|].
    destruct (Aggregate.seeds e) as [|s0 sl] eqn:Es; [congruence|].
    assert (Hp : In (b, s0) pairs).
    { unfold pairs. try rewrite Eb. try rewrite Es. apply in_prod_iff. split; now left. }
    apply Hk in Hp. destruct Hp. }
  set (per := fun a : string =>
                match mapM (fun kv : string * Z * Aggregate.Frame =>
                              Aggregate.column a (snd kv)) (kv0 :: rest) with
                | Ok cols => cols
                | Raise _ => []
                end).
  assert (Hper : forall a, In a (Experiment.algorithms e) ->
            mapM (fun kv : string * Z * Aggregate.Frame =>
                    Aggregate.column a (snd kv)) (kv0 :: rest) = Ok (per a)).
  { intros a Ha.
    destruct (@mapM_total _ _ (fun kv : string * Z * Aggregate.Frame =>
                                 Aggregate.column a (snd kv)) (kv0 :: rest)) as (cols & Hcols).
    - eapply Forall_impl; [|exact Hranked].
      intros [bs f] (br & lb & Hbr & _ & _ & Hnames & _). cbn [fst snd] in *.
      unfold Aggregate.column. rewrite Hnames.
      pose proof (dict_get_entry String.eqb _ _ String_eqb_spec Hbr) as Hin.
      pose proof (Halgos _ _ a Hin Ha) as Hcol. apply index_of_In in Hcol.
      destruct (Aggregate.index_of a (dict_keys br)); [eauto | discriminate].
    - unfold per. now rewrite Hcols. }
  exists (Aggregate.table_div
            (fold_left Aggregate.table_add (map snd rest) (snd kv0))
            (List.length (kv0 :: rest))),
         (Experiment.algorithms e,
          Ranking.align (map (fun a => Aggregate.sem (Ranking.align (per a) None))
                             (Experiment.algorithms e)) None),
         (kv0 :: rest).
  split; [|split; [|split; [|split; [|split; [|split; [|split]]]]]].
  - unfold Aggregate.ranks. rewrite Hidx. simpl bind. cbv zeta.
    fold pairs. rewrite Hitems. simpl bind. fold ranked. rewrite Eranked.
    unfold dict_values. cbn [map Aggregate.reduce]. simpl bind.
    rewrite (@mapM_ext_Ok _ _ _
               (fun a => Aggregate.sem (Ranking.align (per a) None))
               (Experiment.algorithms e)); [reflexivity|].
    intros a Ha. pose proof (Hper a Ha) as Hp. cbn [mapM] in Hp. now rewrite Hp.
  - exact Hnd.
  - intros b s0. rewrite Hk. unfold pairs. apply in_prod_iff.
  - apply seeds_spec.
  - exact Hranked.
  - intros x. rewrite has_row_table_div, has_row_fold.
    inversion Hranked as [|? ? H0 Hrest]; subst.
    destruct H0 as (br0 & lb0 & _ & _ & _ & _ & H0). split.
    + intros H. apply orb_true_iff in H as [H|H]; [now apply H0|].
      apply existsb_exists in H as (f & Hf & Hx).
      apply in_map_iff in Hf as (kv & <- & Hkv).
      rewrite Forall_forall in Hrest.
      destruct (Hrest kv Hkv) as (br1 & lb1 & _ & _ & _ & _ & Hkvx). now apply Hkvx.
    + intros H. apply H0 in H. now rewrite H.
  - intros x a. rewrite cell_table_div, cell_fold. unfold average.
    replace (List.length (map (fun kv : string * Z * Aggregate.Frame =>
                                 Aggregate.cell (snd kv) x a) (kv0 :: rest)))
      with (List.length (kv0 :: rest)) by (now rewrite length_map).
    apply same_cell_map. rewrite map_map. cbn [map].
    apply fold_add_cells.
  - intros x a Ha. rewrite (sem_frame_cell _ per x a Ha).
    rewrite (@columns_cells a x (kv0 :: rest) (per a)) by now apply Hper.
    apply sem_squared_spec.
Qed.

Lemma experiment_ranks_witness :
  rankable ax_end_time two_benchmarks /\
  exists means stds,
    Aggregate.ranks ax_end_time ax_loss two_benchmarks = Ok (means, stds) /\
    (forall x, has_row means x = true <-> on_axis ax_end_time two_benchmarks x) /\
    same_cell (Aggregate.cell means 1 "A") (Some (3 # 2)) /\
    same_cell (Aggregate.cell means 2 "A") (Some 2) /\
    same_cell (Aggregate.cell means 2 "B") (Some 1) /\
    same_cell (Aggregate.cell stds 1 "A") (Some (1 # 4)) /\
    same_cell (Aggregate.cell stds 2 "B") (Some 0).
Proof.
  assert (R : rankable ax_end_time two_benchmarks).
  { unfold rankable. split; [discriminate|]. split; [vm_compute; discriminate|].
    split.
    { intros b Hb. vm_compute in Hb |- *. tauto. }
    split.
    { intros b br a ar Hb Ha.
      assert (Hs : Aggregate.seeds two_benchmarks = [0%Z]) by reflexivity.
      rewrite Hs.
      cbn in Hb. destruct Hb as [[= <- <-]|[[= <- <-]|[]]];
      cbn in Ha; destruct Ha as [[= <- <-]|[[= <- <-]|[]]];
      (split; [intros s [<-|[]]; left; reflexivity|]);
      intros s t [[= <- <-]|[]]; (split; [discriminate|]);
      repeat constructor; discriminate. }
    intros b br a Hb Ha.
    cbn in Hb. destruct Hb as [[= <- <-]|[[= <- <-]|[]]];
    cbn in Ha; destruct Ha as [<-|[<-|[]]]; cbn; tauto. }
  split; [exact R|].
  destruct (@experiment_ranks unit ax_end_time ax_loss two_benchmarks R)
    as (means & stds & ranked & Hr & _ & _ & _ & _ & Hrows & _).
  exists means, stds. split; [exact Hr|]. split; [exact Hrows|].
  clear - Hr. vm_compute in Hr. injection Hr as <- <-.
  repeat split; reflexivity.
Defined.

(** C6 as stated fails where the algorithms of a benchmark have different
    seeds: algorithm A of [uneven_seeds] has the seeds 0 and 1 and
    algorithm B the seed 0 only, the pair of the benchmark and the seed 1
    is in the product that is ranked, and selecting the seed 1 of B raises
    a key error: no table is returned. *)
Lemma experiment_ranks_uneven_seeds :
  In ("d"%string, 1%Z)
     (list_prod (Experiment.benchmarks uneven_seeds) (Aggregate.seeds uneven_seeds)) /\
  Aggregate.ranks ax_end_time ax_loss uneven_seeds = Raise KeyError /\
  ~ (exists means stds,
        Aggregate.ranks ax_end_time ax_loss uneven_seeds = Ok (means, stds)).
Proof.
  split; [left; reflexivity|]. split; [reflexivity|].
  intros (means & stds & H). vm_compute in H. discriminate H.
Qed.
